(** * trigger-svelte: the handler-list engine of [src/trigger-svelte.mjs]

    A shallow embedding of the event system: handler objects, handler lists,
    the two global maps and the public [Trigger] entry points, followed by
    the properties of dispatch order, cancellation, one-shot handlers and the
    lazy purge / sort maintenance.

    JavaScript objects are shared by reference (a handler is held both by
    its list's array and by whoever registered it), so handlers and lists
    live in two stores and are named by their index there.  Exceptions
    keep the mutations done before the throw, so a computation returns
    either [Ok] or [Throw], both with the state reached.

    The component-lifetime registration ([handles], [modifies], [on],
    [once], built on promises and the host's mount signals) and the
    factories of self-keyed functions are not part of this development. *)

From stdpp Require Import gmap strings list sorting.

Local Open Scope Z_scope.

(** ** Values *)

(** The values that travel through the system: keys, arguments, results.
    Numbers are the integers (priorities and the arithmetic of the
    scenarios); [VUndefined] and [VNull] are the two nullish values. *)
Inductive Value : Type :=
| VUndefined
| VNull
| VNum (n : Z)
| VStr (s : string).

#[global] Instance Value_eq_dec : EqDecision Value.
Proof. solve_decision. Defined.

Definition Value_encode (v : Value) : unit + unit + (Z + string) :=
  match v with
  | VUndefined => inl (inl tt)
  | VNull => inl (inr tt)
  | VNum n => inr (inl n)
  | VStr s => inr (inr s)
  end.

Definition Value_decode (x : unit + unit + (Z + string)) : Value :=
  match x with
  | inl (inl _) => VUndefined
  | inl (inr _) => VNull
  | inr (inl n) => VNum n
  | inr (inr s) => VStr s
  end.

#[global] Instance Value_countable : Countable Value.
Proof.
  apply (inj_countable' Value_encode Value_decode).
  by intros [].
Defined.

(** [x ?? y] tests its left operand for being nullish. *)
Definition nullish (v : Value) : bool :=
  match v with
  | VUndefined | VNull => true
  | _ => false
  end.

(** References into the two stores. *)
Abbreviation HandlerRef := nat.
Abbreviation ListRef := nat.

(** ** Callbacks

    A callback is foreign code.  It is given its actual arguments and
    either returns a value or throws one; while it runs it may cancel
    handlers it holds a reference to (the re-entrancy the traversals guard
    against by testing [isCancelled] handler by handler).  Callbacks that
    register handlers or dispatch from inside a dispatch are outside this
    model. *)
Inductive Completion : Type :=
| Return (v : Value)
| Raise (v : Value).

Record Effect : Type := mkEffect {
  cancels : list HandlerRef;
  completion : Completion
}.

Definition Callback : Type := list Value → Effect.

(** What a [#callback] field can hold: a function, or some other value
    (calling which is a TypeError). *)
Inductive Callee : Type :=
| Fn (f : Callback)
| NotFn (v : Value).

(** [const doNothing = () => {}] *)
Definition doNothing : Callback :=
  fun _ => mkEffect [] (Return VUndefined).

(** The value a call expression evaluates to when the call completes. *)
Definition call_value (e : Effect) : Value :=
  match completion e with
  | Return v => v
  | Raise v => v
  end.

(** ** Objects *)

(** [class TriggerHandler]: its six private fields. *)
Record Handler : Type := mkHandler {
  h_once : bool;
  h_list : ListRef;
  h_args : list Value;
  h_callback : Callee;
  h_priority : Z;
  h_cancelled : bool
}.

(** [class TriggerHandlerList]: the array of handlers, the three flags and
    the public [trigger] field. *)
Record HandlerList : Type := mkList {
  l_handlers : list HandlerRef;
  l_usesPriorities : bool;
  l_needsPriorityUpdate : bool;
  l_needsPurge : bool;
  l_trigger : Value
}.

(** One call of a callback: the handler and the actual arguments. *)
Abbreviation Call := (HandlerRef * list Value)%type.

(** The program state: both object stores, the module-level maps
    [handlers] and [modifiers], and the log of callback calls (most recent
    last). *)
Record State : Type := mkState {
  hstore : list Handler;
  lstore : list HandlerList;
  handlers : gmap Value ListRef;
  modifiers : gmap Value ListRef;
  trace : list Call
}.

Definition init : State := mkState [] [] ∅ ∅ [].

(** The two module-level maps, as the [lists] argument of the private
    functions. *)
Inductive Lists : Type := Handlers | Modifiers.

Definition lists_of (m : Lists) (s : State) : gmap Value ListRef :=
  match m with
  | Handlers => handlers s
  | Modifiers => modifiers s
  end.

(** Field updates. *)
Definition set_cancelled (b : bool) (h : Handler) : Handler :=
  mkHandler (h_once h) (h_list h) (h_args h) (h_callback h) (h_priority h) b.

Definition set_priority (p : Z) (h : Handler) : Handler :=
  mkHandler (h_once h) (h_list h) (h_args h) (h_callback h) p (h_cancelled h).

Definition set_once (b : bool) (h : Handler) : Handler :=
  mkHandler b (h_list h) (h_args h) (h_callback h) (h_priority h) (h_cancelled h).

Definition set_handlers (hs : list HandlerRef) (l : HandlerList)
  : HandlerList :=
  mkList hs (l_usesPriorities l) (l_needsPriorityUpdate l) (l_needsPurge l)
         (l_trigger l).

Definition set_usesPriorities (b : bool) (l : HandlerList)
  : HandlerList :=
  mkList (l_handlers l) b (l_needsPriorityUpdate l) (l_needsPurge l)
         (l_trigger l).

Definition set_needsPriorityUpdate (b : bool) (l : HandlerList)
  : HandlerList :=
  mkList (l_handlers l) (l_usesPriorities l) b (l_needsPurge l) (l_trigger l).

Definition set_needsPurge (b : bool) (l : HandlerList)
  : HandlerList :=
  mkList (l_handlers l) (l_usesPriorities l) (l_needsPriorityUpdate l) b
         (l_trigger l).

Definition with_hstore (f : list Handler → list Handler)
  (s : State) : State :=
  mkState (f (hstore s)) (lstore s) (handlers s) (modifiers s) (trace s).

Definition with_lstore (f : list HandlerList → list HandlerList)
  (s : State) : State :=
  mkState (hstore s) (f (lstore s)) (handlers s) (modifiers s) (trace s).

Definition with_lists (m : Lists) (f : gmap Value ListRef → gmap Value ListRef)
  (s : State) : State :=
  match m with
  | Handlers =>
      mkState (hstore s) (lstore s) (f (handlers s)) (modifiers s) (trace s)
  | Modifiers =>
      mkState (hstore s) (lstore s) (handlers s) (f (modifiers s)) (trace s)
  end.

Definition with_trace (f : list Call → list Call) (s : State) : State :=
  mkState (hstore s) (lstore s) (handlers s) (modifiers s) (f (trace s)).

(** [x.isCancelled()] and [x.getPriority()] read through a reference. *)
Definition isCancelled (s : State) (h : HandlerRef) : bool :=
  match hstore s !! h with
  | Some x => h_cancelled x
  | None => false
  end.

Definition getPriority (s : State) (h : HandlerRef) : Z :=
  match hstore s !! h with
  | Some x => h_priority x
  | None => 0
  end.

(** ** Computations *)

Inductive Error : Type :=
| TypeError (msg : string)
| Thrown (v : Value)
| BadRef.

Inductive Result (A : Type) : Type :=
| Ok (s : State) (a : A)
| Throw (s : State) (e : Error).
Arguments Ok {A} s a.
Arguments Throw {A} s e.

Definition M (A : Type) : Type := State → Result A.

Definition state_of {A} (r : Result A) : State :=
  match r with
  | Ok s _ => s
  | Throw s _ => s
  end.

Definition ret {A} (a : A) : M A := fun s => Ok s a.

Definition bind {A B} (m : M A) (k : A → M B) : M B :=
  fun s =>
    match m s with
    | Ok s' a => k a s'
    | Throw s' e => Throw s' e
    end.

Definition throw {A} (e : Error) : M A := fun s => Throw s e.

Definition get : M State := fun s => Ok s s.

Definition update (f : State → State) : M unit := fun s => Ok (f s) tt.

Notation "x <- m ;; k" := (bind m (fun x => k))
  (at level 100, m at next level, right associativity).
Notation "m ;; k" := (bind m (fun _ => k))
  (at level 100, right associativity).

Definition when (b : bool) (m : M unit) : M unit :=
  if b then m else ret tt.

(** [for (const x of xs) body(x)] over a sequence that the body does not
    resize. *)
Fixpoint for_of {A} (xs : list A) (body : A → M unit) : M unit :=
  match xs with
  | [] => ret tt
  | x :: xs' => body x ;; for_of xs' body
  end.

(** The same loop with a local variable that the body reassigns. *)
Fixpoint for_of_acc {A R} (xs : list A) (r : R) (body : R → A → M R) : M R :=
  match xs with
  | [] => ret r
  | x :: xs' => r' <- body r x ;; for_of_acc xs' r' body
  end.

Definition deref_handler (h : HandlerRef) : M Handler :=
  fun s =>
    match hstore s !! h with
    | Some x => Ok s x
    | None => Throw s BadRef
    end.

Definition deref_list (l : ListRef) : M HandlerList :=
  fun s =>
    match lstore s !! l with
    | Some x => Ok s x
    | None => Throw s BadRef
    end.

(** [Array.prototype.sort] with a comparator: the sort is stable, and for
    a consistent comparator its result is determined; insertion from the
    right computes it.  [x] goes in front of the first [y] it does not
    compare greater than. *)
Fixpoint sort_insert {A} (cmp : A → A → Z) (x : A) (l : list A) : list A :=
  match l with
  | [] => [x]
  | y :: l' =>
      if cmp x y <=? 0 then x :: y :: l'
      else y :: sort_insert cmp x l'
  end.

Fixpoint js_sort {A} (cmp : A → A → Z) (l : list A) : list A :=
  match l with
  | [] => []
  | x :: l' => sort_insert cmp x (js_sort cmp l')
  end.

(** ** The handler list's flag setters

    [queuePurge] and [queuePriorityUpdate] are the two methods of
    [TriggerHandlerList] that a handler calls on its owning list. *)

(** [queuePurge() { this.#needsPurge = true }] *)
Definition queuePurge (l : ListRef) : M unit :=
  update (with_lstore (alter (set_needsPurge true) l)).

(** [queuePriorityUpdate()] sets [#needsPriorityUpdate] and
    [#usesPriorities]. *)
Definition queuePriorityUpdate (l : ListRef) : M unit :=
  update (with_lstore (alter (set_needsPriorityUpdate true) l)) ;;
  update (with_lstore (alter (set_usesPriorities true) l)).

(** ** class TriggerHandler *)
Module TriggerHandler.

(** The initialiser of the private field: [#callback = doNothing()], the
    value of a call of [doNothing], not the function. *)
Definition callback_init : Callee := NotFn (call_value (doNothing [])).

(** [constructor(list, callback = this.#callback, args = this.#args)]:
    the fields are initialised first; a default applies when the
    argument is [undefined]. *)
Definition new (owner : ListRef) (callback : Callee) (args : list Value)
  : Handler :=
  mkHandler false owner args
            (match callback with
             | NotFn VUndefined => callback_init
             | _ => callback
             end)
            0 false.

(** [cancel()]: sets [#cancelled] and queues a purge on the list. *)
Definition cancel (h : HandlerRef) : M unit :=
  this <- deref_handler h ;;
  update (with_hstore (alter (set_cancelled true) h)) ;;
  queuePurge (h_list this).

(** [setPriority(value = 0)] *)
Definition setPriority (h : HandlerRef) (value : Z) : M unit :=
  this <- deref_handler h ;;
  update (with_hstore (alter (set_priority value) h)) ;;
  queuePriorityUpdate (h_list this).

(** [setOnce(value = true)] *)
Definition setOnce (h : HandlerRef) (value : bool) : M unit :=
  _ <- deref_handler h ;;
  update (with_hstore (alter (set_once value) h)).

(** The call [this.#callback(...)]: a TypeError unless the field holds a
    function; otherwise the call is logged, the cancellations the
    callback performs take effect, and it returns or throws. *)
Definition call (h : HandlerRef) (callback : Callee) (actuals : list Value)
  : M Value :=
  match callback with
  | NotFn _ => throw (TypeError "this.#callback is not a function")
  | Fn f =>
      update (with_trace (fun t => t ++ [(h, actuals)])) ;;
      for_of (cancels (f actuals)) cancel ;;
      match completion (f actuals) with
      | Return v => ret v
      | Raise v => throw (Thrown v)
      end
  end.

(** [execute(args)] *)
Definition execute (h : HandlerRef) (args : list Value) : M Value :=
  this <- deref_handler h ;;
  when (h_once this) (cancel h) ;;
  call h (h_callback this) (h_args this ++ args).

(** [modify(input, args)] *)
Definition modify (h : HandlerRef) (input : Value) (args : list Value)
  : M Value :=
  this <- deref_handler h ;;
  when (h_once this) (cancel h) ;;
  call h (h_callback this) (input :: h_args this ++ args).

End TriggerHandler.

(** ** class TriggerHandlerList *)
Module TriggerHandlerList.

(** [constructor(trigger)] *)
Definition new (trigger : Value) : HandlerList :=
  mkList [] false false false trigger.

(** [#purge()] *)
Definition purge (l : ListRef) : M unit :=
  this <- deref_list l ;;
  if negb (l_needsPurge this) then ret tt
  else
    s <- get ;;
    update (with_lstore (alter (set_handlers
      (filter (fun x => negb (isCancelled s x) = true) (l_handlers this))) l)) ;;
    update (with_lstore (alter (set_needsPurge false) l)).

(** [#updatePriorities()] *)
Definition updatePriorities (l : ListRef) : M unit :=
  this <- deref_list l ;;
  if negb (l_needsPriorityUpdate this) then ret tt
  else
    purge l ;;
    s <- get ;;
    update (with_lstore (alter (fun this =>
      set_handlers
        (js_sort (fun x y => getPriority s x - getPriority s y)
                 (l_handlers this)) this) l)) ;;
    update (with_lstore (alter (set_needsPriorityUpdate false) l)).

(** [addHandler(callback, args)] *)
Definition addHandler (l : ListRef) (callback : Callee) (args : list Value)
  : M HandlerRef :=
  s <- get ;;
  let handler := length (hstore s) in
  update (with_hstore (fun hs => hs ++ [TriggerHandler.new l callback args])) ;;
  update (with_lstore (alter (fun this =>
    set_handlers (l_handlers this ++ [handler]) this) l)) ;;
  this <- deref_list l ;;
  when (l_usesPriorities this) (queuePriorityUpdate l) ;;
  ret handler.

(** [execute(args)] *)
Definition execute (l : ListRef) (args : list Value) : M unit :=
  this <- deref_list l ;;
  when (l_needsPriorityUpdate this) (updatePriorities l) ;;
  this <- deref_list l ;;
  for_of (l_handlers this) (fun handler =>
    s <- get ;;
    if negb (isCancelled s handler)
    then _ <- TriggerHandler.execute handler args ;; ret tt
    else ret tt).

(** [poll(args)] *)
Definition poll (l : ListRef) (args : list Value) : M (list Value) :=
  updatePriorities l ;;
  this <- deref_list l ;;
  result <- for_of_acc (l_handlers this) [] (fun result handler =>
    s <- get ;;
    if negb (isCancelled s handler)
    then v <- TriggerHandler.execute handler args ;; ret (result ++ [v])
    else ret result) ;;
  purge l ;;
  ret result.

(** [modify(input, args)]: every handler is handed [input]. *)
Definition modify (l : ListRef) (input : Value) (args : list Value)
  : M Value :=
  this <- deref_list l ;;
  when (l_needsPriorityUpdate this) (updatePriorities l) ;;
  this <- deref_list l ;;
  for_of_acc (l_handlers this) input (fun result handler =>
    s <- get ;;
    if negb (isCancelled s handler)
    then TriggerHandler.modify handler input args
    else ret result).

(** [clear()]: cancels every handler, then calls [this.#handlers.clear()];
    arrays have no [clear] method. *)
Definition clear (l : ListRef) : M unit :=
  this <- deref_list l ;;
  for_of (l_handlers this) TriggerHandler.cancel ;;
  throw (TypeError "this.#handlers.clear is not a function").

End TriggerHandlerList.

(** ** Private functions of the module *)

(** [getHandlerList(lists, trigger, create = false)]; [None] is [null]. *)
Definition getHandlerList (lists : Lists) (trigger : Value) (create : bool)
  : M (option ListRef) :=
  s <- get ;;
  match lists_of lists s !! trigger with
  | Some l => ret (Some l)
  | None =>
      if negb create then ret None
      else
        let newList := length (lstore s) in
        update (with_lstore (fun ls => ls ++ [TriggerHandlerList.new trigger])) ;;
        update (with_lists lists (insert trigger newList)) ;;
        ret (Some newList)
  end.

(** [createHandler(lists, trigger, callback, ...args)] *)
Definition createHandler (lists : Lists) (trigger : Value) (callback : Callee)
  (args : list Value) : M HandlerRef :=
  found <- getHandlerList lists trigger true ;;
  match found with
  | Some l => TriggerHandlerList.addHandler l callback args
  | None => throw (TypeError "list is null")
  end.

(** ** The exported object *)
Module Trigger.

(** [execute(trigger, ...args)] *)
Definition execute (trigger : Value) (args : list Value) : M unit :=
  found <- getHandlerList Handlers trigger false ;;
  match found with
  | Some l => TriggerHandlerList.execute l args
  | None => ret tt
  end.

(** [Trigger(trigger, ...args)], the object called as a function. *)
Definition Trigger (trigger : Value) (args : list Value) : M unit :=
  execute trigger args ;;
  ret tt.

(** [poll(trigger, ...args)]: [?.poll(args) ?? []] *)
Definition poll (trigger : Value) (args : list Value) : M (list Value) :=
  found <- getHandlerList Handlers trigger false ;;
  match found with
  | Some l => TriggerHandlerList.poll l args
  | None => ret []
  end.

(** [modify(input, trigger, ...args)]: [?.modify(input, args) ?? input] *)
Definition modify (input : Value) (trigger : Value) (args : list Value)
  : M Value :=
  found <- getHandlerList Modifiers trigger false ;;
  r <- match found with
       | Some l => TriggerHandlerList.modify l input args
       | None => ret VUndefined
       end ;;
  ret (if nullish r then input else r).

(** [createModifier(trigger, callback, ...args)] *)
Definition createModifier (trigger : Value) (callback : Callee)
  (args : list Value) : M HandlerRef :=
  createHandler Modifiers trigger callback args.

(** [createHandler(trigger, callback, ...args)] *)
Definition createHandler (trigger : Value) (callback : Callee)
  (args : list Value) : M HandlerRef :=
  createHandler Handlers trigger callback args.

(** [clearTrigger(trigger)]: the result of [getHandlerList] is used
    without a null test. *)
Definition clearTrigger (trigger : Value) : M unit :=
  found <- getHandlerList Handlers trigger false ;;
  match found with
  | Some l => TriggerHandlerList.clear l
  | None => throw (TypeError "cannot read properties of null")
  end ;;
  update (with_lists Handlers (delete trigger)) ;;
  found <- getHandlerList Modifiers trigger false ;;
  match found with
  | Some l => TriggerHandlerList.clear l
  | None => throw (TypeError "cannot read properties of null")
  end ;;
  update (with_lists Modifiers (delete trigger)).

End Trigger.

(** ** Clients

    What code outside the module can do: the public methods of [Trigger]
    and the three methods of a handler reference it was handed.  A caller
    may catch an exception, so the state after an operation is the state
    reached, however it completed. *)
Inductive Op : Type :=
| OCreateHandler (trigger : Value) (callback : Callee) (args : list Value)
| OCreateModifier (trigger : Value) (callback : Callee) (args : list Value)
| OTrigger (trigger : Value) (args : list Value)
| OExecute (trigger : Value) (args : list Value)
| OPoll (trigger : Value) (args : list Value)
| OModify (input : Value) (trigger : Value) (args : list Value)
| OClearTrigger (trigger : Value)
| OCancel (h : HandlerRef)
| OSetPriority (h : HandlerRef) (value : Z)
| OSetOnce (h : HandlerRef) (value : bool).

Definition step (o : Op) (s : State) : State :=
  match o with
  | OCreateHandler k cb a => state_of (Trigger.createHandler k cb a s)
  | OCreateModifier k cb a => state_of (Trigger.createModifier k cb a s)
  | OTrigger k a => state_of (Trigger.Trigger k a s)
  | OExecute k a => state_of (Trigger.execute k a s)
  | OPoll k a => state_of (Trigger.poll k a s)
  | OModify v k a => state_of (Trigger.modify v k a s)
  | OClearTrigger k => state_of (Trigger.clearTrigger k s)
  | OCancel h => state_of (TriggerHandler.cancel h s)
  | OSetPriority h v => state_of (TriggerHandler.setPriority h v s)
  | OSetOnce h b => state_of (TriggerHandler.setOnce h b s)
  end.

Definition steps (os : list Op) (s : State) : State :=
  foldl (fun s o => step o s) s os.

(** The states the module can be in: those some client drives it to from
    the state at load time. *)
Definition reachable (s : State) : Prop := ∃ os, s = steps os init.

(** The dispatching operations, and those that dispatch to the list
    registered in map [m] under key [k]. *)
Definition dispatch (o : Op) : Prop :=
  match o with
  | OTrigger _ _ | OExecute _ _ | OPoll _ _ | OModify _ _ _ => True
  | _ => False
  end.

Definition dispatches_to (m : Lists) (k : Value) (o : Op) : Prop :=
  match m, o with
  | Handlers, OTrigger k' _ | Handlers, OExecute k' _
  | Handlers, OPoll k' _ | Modifiers, OModify _ k' _ => k' = k
  | _, _ => False
  end.

(** The handlers whose callbacks were called on the way from [s] to [s'],
    in call order. *)
Definition calls (s s' : State) : list HandlerRef :=
  (drop (length (trace s)) (trace s')).*1.

(** [h1] is called, and later [h2] is. *)
Definition called_before (h1 h2 : HandlerRef) (cs : list HandlerRef) : Prop :=
  ∃ a b c, cs = a ++ h1 :: b ++ h2 :: c.

Definition isOnce (s : State) (h : HandlerRef) : bool :=
  match hstore s !! h with
  | Some x => h_once x
  | None => false
  end.

(** Callbacks that are functions, return normally and cancel nothing. *)
Definition plain (c : Callee) : Prop :=
  match c with
  | Fn f => ∀ a, cancels (f a) = [] ∧ ∃ v, completion (f a) = Return v
  | NotFn _ => False
  end.

Definition plain_callbacks (s : State) : Prop :=
  ∀ h x, hstore s !! h = Some x → plain (h_callback x).

(** ** Invariants *)

(** The shape every reachable state has.  The fourth field is the purge
    invariant, the fifth the order invariant. *)
Record wf (s : State) : Prop := mkWf {
  wf_member : ∀ l L h, lstore s !! l = Some L → h ∈ l_handlers L →
    ∃ x, hstore s !! h = Some x ∧ h_list x = l;
  wf_nodup : ∀ l L, lstore s !! l = Some L → NoDup (l_handlers L);
  wf_owner : ∀ h x, hstore s !! h = Some x →
    is_Some (lstore s !! h_list x);
  wf_purged : ∀ l L h, lstore s !! l = Some L → l_needsPurge L = false →
    h ∈ l_handlers L → isCancelled s h = false;
  wf_sorted : ∀ l L, lstore s !! l = Some L →
    l_needsPriorityUpdate L = false →
    StronglySorted (fun a b => getPriority s a ≤ getPriority s b)
                   (l_handlers L);
  wf_default : ∀ h x L, hstore s !! h = Some x →
    lstore s !! h_list x = Some L → l_usesPriorities L = false →
    h_priority x = 0;
  wf_lists : ∀ m k l, lists_of m s !! k = Some l → is_Some (lstore s !! l)
}.

(** How a state can evolve while handlers keep the flag [once] they have:
    handlers stay, cancellation is final, the log grows, only handlers
    not cancelled are called, and a one-shot handler that is called is
    called once and is cancelled afterwards. *)
Record evolves (s s' : State) : Prop := mkEvolves {
  ev_keep : ∀ h x, hstore s !! h = Some x →
    ∃ x', hstore s' !! h = Some x' ∧ h_once x' = h_once x ∧
          (h_cancelled x = true → h_cancelled x' = true);
  ev_trace : ∃ t, trace s' = trace s ++ t ∧
    (∀ h, h ∈ t.*1 → isCancelled s h = false) ∧
    (∀ h, h ∈ t.*1 → isOnce s h = true →
       isCancelled s' h = true ∧ length (filter (eq h) t.*1) = 1%nat)
}.

(** Nothing was called on the way from [s] to [s']. *)
Definition silent (s s' : State) : Prop := trace s' = trace s.

(** At most the handlers [ids] were called, each at most once and in the
    order of [ids]. *)
Definition calls_within (ids : list HandlerRef) (s s' : State) : Prop :=
  ∃ t, trace s' = trace s ++ t ∧ t.*1 `sublist_of` ids.

(** A computation satisfies a relation between the state it starts in and
    the state it ends in. *)
Definition sat (R : State → State → Prop) {A} (m : M A) : Prop :=
  ∀ s, R s (state_of (m s)).

(** How far a state goes beyond [s]: handlers stay, cancellation is
    final, the log grows, and only handlers not cancelled are called. *)
Record advances (s s' : State) : Prop := mkAdvances {
  adv_keep : ∀ h, isCancelled s h = true → isCancelled s' h = true;
  adv_trace : ∃ t, trace s' = trace s ++ t ∧
    ∀ h, h ∈ t.*1 → isCancelled s h = false
}.

(** ** What the maintenance steps compute

    The list object [#purge] and [#updatePriorities] leave behind, as a
    function of the object they find. *)
Abbreviation active s := (fun x : HandlerRef => negb (isCancelled s x) = true).

Definition purged_list (s : State) (L : HandlerList) : HandlerList :=
  if l_needsPurge L
  then set_needsPurge false (set_handlers (filter (active s) (l_handlers L)) L)
  else L.

Definition sorted_list (s : State) (L : HandlerList) : HandlerList :=
  if l_needsPriorityUpdate L
  then set_needsPriorityUpdate false
         (set_handlers
            (js_sort (fun x y => getPriority s x - getPriority s y)
                     (l_handlers (purged_list s L)))
            (purged_list s L))
  else L.

Definition put_list (l : ListRef) (L : HandlerList) (s : State) : State :=
  with_lstore (insert l L) s.

Definition put_handler (h : HandlerRef) (x : Handler) (s : State) : State :=
  with_hstore (insert h x) s.

(** A property of states that a step does not destroy. *)
Definition preserved (P : State → Prop) (s s' : State) : Prop := P s → P s'.

(** ** What a traversal does when callbacks are plain

    The state after the traversal has dealt with handler [h]: nothing if
    [h] is cancelled; otherwise [h] is cancelled first if it is one-shot,
    and the call is logged with the actual arguments [act] builds. *)
Definition fire (act : Handler → list Value) (s : State) (h : HandlerRef)
  : State :=
  match hstore s !! h with
  | Some x =>
      if h_cancelled x then s
      else
        with_trace (fun t => t ++ [(h, act x)])
          (if h_once x
           then with_lstore (alter (set_needsPurge true) (h_list x))
                  (with_hstore (alter (set_cancelled true) h) s)
           else s)
  | None => s
  end.

(** ** Callbacks of the scenarios *)

(** A callback that ignores its arguments and returns [v]. *)
Definition returning (v : Value) : Callee :=
  Fn (fun _ => mkEffect [] (Return v)).

(** A transform callback [input => f(input)]. *)
Definition transform (f : Value → Value) : Callee :=
  Fn (fun a => mkEffect [] (Return (f (hd VUndefined a)))).

(** [x => x * 2] on numbers. *)
Definition double (v : Value) : Value :=
  match v with
  | VNum n => VNum (n * 2)
  | _ => VUndefined
  end.

(** ** Scenarios *)

(** Three handlers on key ["x"]: priority 5 returning ["A"], priority 1
    returning ["B"], priority 5 returning ["C"]. *)
Definition order_scenario : list Op :=
  [ OCreateHandler (VStr "x") (returning (VStr "A")) []; OSetPriority 0 5;
    OCreateHandler (VStr "x") (returning (VStr "B")) []; OSetPriority 1 1;
    OCreateHandler (VStr "x") (returning (VStr "C")) []; OSetPriority 2 5 ].

(** Two handlers; the first is moved behind the second by a dispatch at
    priority 5 and then given priority 0 again. *)
Definition tie_scenario : list Op :=
  [ OCreateHandler (VStr "x") (returning (VStr "A")) [];
    OCreateHandler (VStr "x") (returning (VStr "B")) [];
    OSetPriority 0 5; OExecute (VStr "x") []; OSetPriority 0 0 ].

(** One handler, cancelled; no priority was ever set. *)
Definition cancelled_scenario : list Op :=
  [ OCreateHandler (VStr "x") (returning (VStr "A")) []; OCancel 0 ].

(** A one-shot handler between two ordinary ones. *)
Definition once_scenario : list Op :=
  [ OCreateHandler (VStr "x") (returning (VStr "A")) [];
    OCreateHandler (VStr "x") (returning (VStr "B")) []; OSetOnce 1 true;
    OCreateHandler (VStr "x") (returning (VStr "C")) [] ].

(** ** Vocabulary for the properties of registration and dispatch *)

(** The two registering operations. *)
Definition registration (o : Op) : Prop :=
  match o with
  | OCreateHandler _ _ _ | OCreateModifier _ _ _ => True
  | _ => False
  end.

(** The three methods of a handler. *)
Definition handler_method (o : Op) : Prop :=
  match o with
  | OCancel _ | OSetPriority _ _ | OSetOnce _ _ => True
  | _ => False
  end.

(** The sequence of the list registered in map [m] under key [k]; empty
    when there is none. *)
Definition sequence_of (m : Lists) (k : Value) (s : State) : list HandlerRef :=
  match lists_of m s !! k with
  | Some l =>
      match lstore s !! l with
      | Some L => l_handlers L
      | None => []
      end
  | None => []
  end.

(** Handler [h] is registered in map [m] under key [k]: its list is the
    one the map holds for [k]. *)
Definition registered_under (m : Lists) (k : Value) (s : State)
  (h : HandlerRef) : Prop :=
  ∃ x, hstore s !! h = Some x ∧ lists_of m s !! k = Some (h_list x).

(** The actual arguments a dispatch calls the callback of handler [x]
    with. *)
Definition actuals_of (o : Op) (x : Handler) : list Value :=
  match o with
  | OTrigger _ a | OExecute _ a | OPoll _ a => h_args x ++ a
  | OModify input _ a => input :: h_args x ++ a
  | _ => []
  end.

(** What the callback of [h] returns on the arguments [act] builds. *)
Definition returned (act : Handler → list Value) (s : State) (h : HandlerRef)
  : Value :=
  match hstore s !! h with
  | Some x =>
      match h_callback x with
      | Fn f => call_value (f (act x))
      | NotFn _ => VUndefined
      end
  | None => VUndefined
  end.

(** Handler [h] is skipped or returns normally: it is cancelled, or its
    callback is plain. *)
Definition harmless (s : State) (h : HandlerRef) : Prop :=
  ∃ x, hstore s !! h = Some x ∧ (h_cancelled x = true ∨ plain (h_callback x)).

(** ** Relations between the state before and the state after *)

(** Every handler is still there, with the callback, the bound arguments
    and the list it was created with. *)
Definition stable (s s' : State) : Prop :=
  ∀ h x, hstore s !! h = Some x →
    ∃ x', hstore s' !! h = Some x' ∧ h_callback x' = h_callback x ∧
          h_args x' = h_args x ∧ h_list x' = h_list x.

(** The maps and the number of lists are the same. *)
Definition same_lists (s s' : State) : Prop :=
  handlers s' = handlers s ∧ modifiers s' = modifiers s ∧
  length (lstore s') = length (lstore s).

(** The maps are the same and every list has the sequence it had. *)
Definition same_sequences (s s' : State) : Prop :=
  handlers s' = handlers s ∧ modifiers s' = modifiers s ∧
  ∀ l, l_handlers <$> lstore s' !! l = l_handlers <$> lstore s !! l.

(** The relation of the steps that keep the maps and the handlers' own
    data. *)
Definition settled (s s' : State) : Prop := stable s s' ∧ same_lists s s'.

(** What was registered stays registered: handlers keep what they were
    created with and the maps keep their entries. *)
Definition grows (s s' : State) : Prop :=
  stable s s' ∧
  ∀ m k l, lists_of m s !! k = Some l → lists_of m s' !! k = Some l.

(** No handler was created on the way from [s] to [s'], and every call
    made passed [pre], then the handler's bound arguments, then [a]. *)
Definition passes (pre a : list Value) (s s' : State) : Prop :=
  stable s s' ∧ length (hstore s') = length (hstore s) ∧
  ∃ t, trace s' = trace s ++ t ∧
       ∀ h actuals, (h, actuals) ∈ t →
         ∃ x, hstore s !! h = Some x ∧ actuals = pre ++ h_args x ++ a.

(** A step that calls nothing, keeps the handlers and uncancels none. *)
Definition hushed (s s' : State) : Prop :=
  stable s s' ∧ length (hstore s') = length (hstore s) ∧
  (∀ h, isCancelled s h = true → isCancelled s' h = true) ∧
  trace s' = trace s.

(** The guard of the traversals: only handlers that were not cancelled
    are called, and once a callback has cancelled a handler, that handler
    is cancelled for good and not called any more. *)
Definition guarded (s s' : State) : Prop :=
  stable s s' ∧ length (hstore s') = length (hstore s) ∧
  (∀ h, isCancelled s h = true → isCancelled s' h = true) ∧
  ∃ t, trace s' = trace s ++ t ∧
    (∀ h, h ∈ t.*1 → isCancelled s h = false) ∧
    ∀ t1 h act t2 x f,
      t = t1 ++ (h, act) :: t2 →
      hstore s !! h = Some x → h_callback x = Fn f →
      (∀ c, c ∈ cancels (f act) → is_Some (hstore s !! c)) →
      ∀ c, c ∈ cancels (f act) → isCancelled s' c = true ∧ c ∉ t2.*1.

(** The needs-priority-update flag of list [l] stays down. *)
Definition flag_down (l : ListRef) (s s' : State) : Prop :=
  ∀ L, lstore s !! l = Some L → l_needsPriorityUpdate L = false →
    ∃ L', lstore s' !! l = Some L' ∧ l_needsPriorityUpdate L' = false.

(** ** The invariants of registration *)

(** Every handler that is not cancelled is in the sequence of its list. *)
Definition kept (s : State) : Prop :=
  ∀ h x, hstore s !! h = Some x → h_cancelled x = false →
    ∃ L, lstore s !! h_list x = Some L ∧ h ∈ l_handlers L.

(** No list is registered twice, be it under two keys or in both maps. *)
Definition distinct_lists (s : State) : Prop :=
  ∀ m k m' k' l, lists_of m s !! k = Some l → lists_of m' s !! k' = Some l →
    m = m' ∧ k = k'.

(** A list that is due for a sort has had a priority set. *)
Definition flagged (s : State) : Prop :=
  ∀ l L, lstore s !! l = Some L → l_needsPriorityUpdate L = true →
    l_usesPriorities L = true.

(** A list no priority was set on holds its handlers in the order they
    were created in. *)
Definition in_order (s : State) : Prop :=
  ∀ l L, lstore s !! l = Some L → l_usesPriorities L = false →
    StronglySorted (fun a b : HandlerRef => (a < b)%nat) (l_handlers L).

(** Every list is in one of the maps, under the key it was made for. *)
Definition keyed (s : State) : Prop :=
  ∀ l L, lstore s !! l = Some L → ∃ m, lists_of m s !! l_trigger L = Some l.

(** What registration keeps, beside [wf]. *)
Record sound (s : State) : Prop := mkSound {
  sound_kept : kept s;
  sound_distinct : distinct_lists s;
  sound_flagged : flagged s;
  sound_in_order : in_order s;
  sound_keyed : keyed s
}.

(** What every reachable state satisfies. *)
Definition regular (s : State) : Prop := wf s ∧ sound s.

(** ** Further scenarios *)

(** A callback that throws [v], whatever its arguments. *)
Definition raising (v : Value) : Callee :=
  Fn (fun _ => mkEffect [] (Raise v)).

(** A callback that cancels the handlers [cs] and returns [v]. *)
Definition cancelling (cs : list HandlerRef) (v : Value) : Callee :=
  Fn (fun _ => mkEffect cs (Return v)).

(** Two handlers on key ["x"] with bound arguments, one on key ["y"], and
    a transform handler on key ["x"]. *)
Definition keys_scenario : list Op :=
  [ OCreateHandler (VStr "x") (returning (VStr "A")) [VNum 1];
    OCreateHandler (VStr "y") (returning (VStr "B")) [];
    OCreateModifier (VStr "x") (transform double) [];
    OCreateHandler (VStr "x") (returning (VStr "C")) [VNum 2; VNum 3] ].


(** Three handlers on key ["x"]; the first one cancels the third. *)
Definition reentrant_scenario : list Op :=
  [ OCreateHandler (VStr "x") (cancelling [2%nat] (VStr "A")) [];
    OCreateHandler (VStr "x") (returning (VStr "B")) [];
    OCreateHandler (VStr "x") (returning (VStr "C")) [] ].

(** [keys_scenario] after the transform handler of ["x"] and the handler
    of ["y"] were cancelled: ["x"] keeps two broadcast handlers, every
    handler of ["y"] and every transform handler of ["x"] is cancelled,
    and nothing was ever registered on ["z"]. *)
Definition idle_scenario : list Op :=
  keys_scenario ++ [OCancel 2; OCancel 1].


(** A one-shot handler on key ["x"] behind an ordinary one, and a handler
    that throws on key ["y"]. *)
Definition once_beside_throw_scenario : list Op :=
  [ OCreateHandler (VStr "x") (returning (VStr "A")) [];
    OCreateHandler (VStr "x") (returning (VStr "B")) []; OSetOnce 1 true;
    OCreateHandler (VStr "y") (raising (VStr "boom")) [] ].


(** * Properties *)

(** ** The sort *)

Section sorting.
Context {A : Type} (key : A → Z).

Local Abbreviation cmp := (fun x y : A => key x - key y).
Local Abbreviation le := (fun x y : A => key x ≤ key y).

Lemma sort_insert_perm x l : sort_insert cmp x l ≡ₚ x :: l.
Proof.
  induction l as [|y l IH]; simpl; [done|].
  destruct (key x - key y <=? 0); [done|].
  rewrite IH. apply Permutation_swap.
Qed.

Lemma js_sort_perm l : js_sort cmp l ≡ₚ l.
Proof.
  induction l as [|x l IH]; simpl; [done|].
  by rewrite sort_insert_perm, IH.
Qed.

Lemma sort_insert_sorted x l :
  StronglySorted le l → StronglySorted le (sort_insert cmp x l).
Proof.
  induction 1 as [|y l Hl IH Hy]; simpl.
  - repeat constructor.
  - destruct (Z.leb_spec (key x - key y) 0) as [Hc|Hc].
    + constructor; [by constructor|].
      constructor; [lia|].
      eapply Forall_impl; [exact Hy|]. simpl. intros; lia.
    + constructor; [done|].
      rewrite sort_insert_perm. constructor; [lia|done].
Qed.

Lemma js_sort_sorted l : StronglySorted le (js_sort cmp l).
Proof.
  induction l; simpl; [constructor|by apply sort_insert_sorted].
Qed.

(** Stability: the elements of any one key keep their relative order. *)
Lemma sort_insert_stable p x l :
  StronglySorted le l →
  filter (fun y => key y = p) (sort_insert cmp x l)
  = filter (fun y => key y = p) (x :: l).
Proof.
  induction 1 as [|y l Hl IH Hy]; simpl; [done|].
  destruct (Z.leb_spec (key x - key y) 0) as [Hc|Hc]; [done|].
  rewrite (filter_cons _ y), IH, !filter_cons.
  repeat case_decide; try done; lia.
Qed.

Lemma js_sort_stable p l :
  filter (fun y => key y = p) (js_sort cmp l)
  = filter (fun y => key y = p) l.
Proof.
  induction l as [|x l IH]; simpl; [done|].
  rewrite sort_insert_stable by apply js_sort_sorted.
  by rewrite !filter_cons, IH.
Qed.


End sorting.

(** ** Positions in a call sequence *)

Lemma called_before_sublist {h1 h2 : HandlerRef} l1 l2 :
  sublist l1 l2 → called_before h1 h2 l1 → called_before h1 h2 l2.
Proof.
  intros Hs (a & b & c & ->).
  apply sublist_app_l in Hs as (a' & r & -> & Ha & Hr).
  apply sublist_cons_l in Hr as (a'' & r' & -> & Hr).
  apply sublist_app_l in Hr as (b' & r'' & -> & Hb & Hr).
  apply sublist_cons_l in Hr as (b'' & c' & -> & Hr).
  exists (a' ++ a''), (b' ++ b''), c'. by rewrite <- !app_assoc.
Qed.

Lemma called_before_filter (P : HandlerRef → Prop) `{∀ x, Decision (P x)}
  h1 h2 l :
  P h1 → P h2 → called_before h1 h2 l → called_before h1 h2 (filter P l).
Proof.
  intros H1 H2 (a & b & c & ->).
  exists (filter P a), (filter P b), (filter P c).
  rewrite filter_app, filter_cons_True, filter_app, filter_cons_True; done.
Qed.

Lemma called_before_sorted (key : HandlerRef → Z) h1 h2 l :
  StronglySorted (fun a b => key a ≤ key b) l →
  h1 ∈ l → h2 ∈ l → key h1 < key h2 → called_before h1 h2 l.
Proof.
  intros Hs H1 H2 Hlt.
  apply list_elem_of_split in H1 as (a & r & ->).
  apply elem_of_app in H2 as [H2|H2].
  - pose proof (StronglySorted_app_1_elem_of _ _ _ h2 h1 Hs H2) as Hle.
    simpl in Hle. specialize (Hle ltac:(left)). lia.
  - apply elem_of_cons in H2 as [->|H2]; [lia|].
    apply list_elem_of_split in H2 as (b & c & ->). by exists a, b, c.
Qed.


(** ** Rules for computations *)

Lemma bind_Ok {A B} (m : M A) (k : A → M B) s s' a :
  m s = Ok s' a → bind m k s = k a s'.
Proof. unfold bind. by intros ->. Qed.


Section sat_rules.
Context (R : State → State → Prop) `{!Reflexive R} `{!Transitive R}.

Lemma sat_ret {A} (a : A) : sat R (ret a).
Proof. intros s. simpl. reflexivity. Qed.

Lemma sat_throw {A} e : sat R (@throw A e).
Proof. intros s. simpl. reflexivity. Qed.

Lemma sat_bind {A B} (m : M A) (k : A → M B) :
  sat R m → (∀ a, sat R (k a)) → sat R (bind m k).
Proof.
  intros Hm Hk s. unfold bind. specialize (Hm s).
  destruct (m s) as [s' a|s' e]; simpl in *; [|done].
  etrans; [exact Hm|apply Hk].
Qed.

Lemma sat_get_bind {B} (k : State → M B) :
  (∀ s, R s (state_of (k s s))) → sat R (bind get k).
Proof. intros Hk s. apply Hk. Qed.

Lemma sat_deref_handler {B} h (k : Handler → M B) :
  (∀ s x, hstore s !! h = Some x → R s (state_of (k x s))) →
  sat R (bind (deref_handler h) k).
Proof.
  intros Hk s. unfold bind, deref_handler.
  destruct (hstore s !! h) eqn:E; simpl; [by apply Hk|reflexivity].
Qed.

Lemma sat_deref_list {B} l (k : HandlerList → M B) :
  (∀ s x, lstore s !! l = Some x → R s (state_of (k x s))) →
  sat R (bind (deref_list l) k).
Proof.
  intros Hk s. unfold bind, deref_list.
  destruct (lstore s !! l) eqn:E; simpl; [by apply Hk|reflexivity].
Qed.


Lemma sat_when b m : sat R m → sat R (when b m).
Proof. destruct b; simpl; [done|]. intros _. apply sat_ret. Qed.

Lemma sat_for_of {A} (xs : list A) body :
  (∀ x, sat R (body x)) → sat R (for_of xs body).
Proof.
  intros Hb. induction xs as [|x xs IH]; simpl.
  - apply sat_ret.
  - apply sat_bind; [apply Hb|done].
Qed.

Lemma sat_for_of_acc {A B} (xs : list A) (r : B) body :
  (∀ r x, sat R (body r x)) → sat R (for_of_acc xs r body).
Proof.
  intros Hb. revert r. induction xs as [|x xs IH]; intros r; simpl.
  - apply sat_ret.
  - apply sat_bind; [apply Hb|done].
Qed.

End sat_rules.

(** ** Evaluating scenarios *)

(** Dispatch through the maps, once the lookup is known. *)
Lemma execute_found k a s l :
  handlers s !! k = Some l →
  Trigger.execute k a s = TriggerHandlerList.execute l a s.
Proof.
  intros H. unfold Trigger.execute, getHandlerList, bind, get.
  cbn [lists_of]. by rewrite H.
Qed.

Lemma poll_found k a s l :
  handlers s !! k = Some l →
  Trigger.poll k a s = TriggerHandlerList.poll l a s.
Proof.
  intros H. unfold Trigger.poll, getHandlerList, bind, get.
  cbn [lists_of]. by rewrite H.
Qed.

Lemma modify_found v k a s l :
  modifiers s !! k = Some l →
  Trigger.modify v k a s
  = (r <- TriggerHandlerList.modify l v a ;;
     ret (if nullish r then v else r)) s.
Proof.
  intros H. unfold Trigger.modify, getHandlerList, bind, get.
  cbn [lists_of]. by rewrite H.
Qed.

(** Registration from the initial state, for a key that is a variable. *)
Ltac evaluate :=
  unfold steps, step, Trigger.createModifier, Trigger.createHandler,
    createHandler, getHandlerList, bind, get, lists_of, update, with_lists,
    with_lstore;
  cbn;
  repeat (first [ rewrite lookup_empty | rewrite lookup_insert_eq ]; cbn).

(** Replaces a closed state expression by its value. *)
Ltac vm_norm t :=
  let v := eval vm_compute in t in
  replace t with v by (vm_compute; reflexivity).

(** Forgets how a map was built, keeping one lookup. *)
Ltac forget_map K :=
  let m := fresh "m" in
  let Hm := fresh "Hm" in
  assert (Hm : (<[K:=0%nat]> ∅ : gmap Value nat) !! K = Some 0%nat)
    by apply lookup_insert_eq;
  revert Hm; generalize (<[K:=0%nat]> ∅ : gmap Value nat); intros m Hm.

Lemma created_1 m K c1 a1 :
  steps [match m with
         | Handlers => OCreateHandler K c1 a1
         | Modifiers => OCreateModifier K c1 a1
         end] init
  = with_lists m (fun _ => <[K:=0%nat]> ∅)
      (mkState [TriggerHandler.new 0 c1 a1]
               [mkList [0%nat] false false false K] ∅ ∅ []).
Proof. destruct m; evaluate; reflexivity. Qed.

Lemma created_2 m K c1 c2 :
  steps [match m with
         | Handlers => OCreateHandler K c1 []
         | Modifiers => OCreateModifier K c1 []
         end;
         match m with
         | Handlers => OCreateHandler K c2 []
         | Modifiers => OCreateModifier K c2 []
         end] init
  = with_lists m (fun _ => <[K:=0%nat]> ∅)
      (mkState [TriggerHandler.new 0 c1 []; TriggerHandler.new 0 c2 []]
               [mkList [0; 1]%nat false false false K] ∅ ∅ []).
Proof. destruct m; evaluate; reflexivity. Qed.

Lemma created_3 m K c1 c2 c3 :
  steps [match m with
         | Handlers => OCreateHandler K c1 []
         | Modifiers => OCreateModifier K c1 []
         end;
         match m with
         | Handlers => OCreateHandler K c2 []
         | Modifiers => OCreateModifier K c2 []
         end;
         match m with
         | Handlers => OCreateHandler K c3 []
         | Modifiers => OCreateModifier K c3 []
         end] init
  = with_lists m (fun _ => <[K:=0%nat]> ∅)
      (mkState [TriggerHandler.new 0 c1 []; TriggerHandler.new 0 c2 [];
                TriggerHandler.new 0 c3 []]
               [mkList [0; 1; 2]%nat false false false K] ∅ ∅ []).
Proof. destruct m; evaluate; reflexivity. Qed.

Lemma steps_app os1 os2 s : steps (os1 ++ os2) s = steps os2 (steps os1 s).
Proof. apply foldl_app. Qed.

(** ** The transform chain *)

(** C1, evaluated on the code: [TriggerHandlerList.modify] hands every
    handler the original [input], not the running value.  With two
    handlers that each double their input, [modify(10, K)] returns 20; with
    three handlers [f1], [f2], [f3] in ascending priority it returns
    [f3(v0)] (or [v0] when that is nullish), whatever [f1] and [f2]
    return. *)
Theorem modify_hands_input_to_every_handler :
  (∀ K, ∃ s',
     Trigger.modify (VNum 10) K []
       (steps [OCreateModifier K (transform double) [];
               OCreateModifier K (transform double) []] init)
     = Ok s' (VNum 20)) ∧
  (∀ K f1 f2 f3 v0, ∃ s',
     Trigger.modify v0 K []
       (steps ([OCreateModifier K (transform f1) [];
                OCreateModifier K (transform f2) [];
                OCreateModifier K (transform f3) []] ++
               [OSetPriority 0 1; OSetPriority 1 2; OSetPriority 2 3]) init)
     = Ok s' (if nullish (f3 v0) then v0 else f3 v0)).
Proof.
  split; intros.
  - rewrite (created_2 Modifiers). cbn [with_lists hstore lstore handlers trace].
    forget_map K.
    rewrite modify_found with (l := 0%nat) by exact Hm.
    eexists. vm_compute. reflexivity.
  - rewrite steps_app, (created_3 Modifiers).
    cbn [with_lists hstore lstore handlers trace].
    forget_map K.
    match goal with |- context [steps ?l ?s] => vm_norm (steps l s) end.
    rewrite modify_found with (l := 0%nat) by exact Hm.
    eexists. vm_compute. reflexivity.
Qed.

(** ** clearTrigger *)


(** C2, evaluated on the code: [clearTrigger] never completes.  Without a
    list for the key it calls [clear] on [null]; with a list,
    [TriggerHandlerList.clear] cancels the handlers and then calls the
    array method [clear], which does not exist.  Either way the exception
    leaves before [handlers.delete(trigger)], so no entry is ever removed. *)
Theorem clearTrigger_always_throws k s :
  ∃ s' e, Trigger.clearTrigger k s = Throw s' e ∧
          handlers s' = handlers s ∧ modifiers s' = modifiers s.
Proof.
  unfold Trigger.clearTrigger, getHandlerList, bind, get, lists_of.
  destruct (handlers s !! k) as [l|] eqn:Hk; simpl.
  - unfold TriggerHandlerList.clear, bind, deref_list.
    destruct (lstore s !! l) as [L|]; [|by eauto].
    assert (∀ xs s0, handlers (state_of (for_of xs TriggerHandler.cancel s0))
                     = handlers s0 ∧
                     modifiers (state_of (for_of xs TriggerHandler.cancel s0))
                     = modifiers s0) as Hfor.
    { induction xs as [|x xs IH]; intros s0; simpl; [done|].
      unfold bind, TriggerHandler.cancel at 1 3, bind, deref_handler.
      destruct (hstore s0 !! x); simpl; [|done].
      destruct (IH (with_lstore (alter (set_needsPurge true) (h_list h))
                      (with_hstore (alter (set_cancelled true) x) s0)))
        as [-> ->]. done. }
    specialize (Hfor (l_handlers L) s).
    destruct (for_of _ _ s); simpl in *; destruct Hfor; eauto.
  - eauto.
Qed.

(** The two ways [clearTrigger] fails, on the smallest inputs. *)
Lemma clearTrigger_examples :
  Trigger.clearTrigger (VStr "x") init
  = Throw init (TypeError "cannot read properties of null") ∧
  ∃ s', Trigger.clearTrigger (VStr "x")
          (steps [OCreateHandler (VStr "x") (returning VUndefined) []] init)
        = Throw s' (TypeError "this.#handlers.clear is not a function") ∧
        handlers s' !! VStr "x" = Some 0%nat ∧
        isCancelled s' 0 = true.
Proof.
  split; [vm_compute; reflexivity|].
  eexists. split; [vm_compute; reflexivity|].
  split; vm_compute; reflexivity.
Qed.

(** What is left after the exception is caught: the handlers registered
    before are cancelled, the list is still the one in the map, and a
    dispatch calls only a handler registered afterwards. *)
Lemma after_clearTrigger_only_fresh_handler_is_called :
  calls (steps [OCreateHandler (VStr "x") (returning (VStr "A")) [];
                OCreateHandler (VStr "x") (returning (VStr "B")) [];
                OClearTrigger (VStr "x");
                OCreateHandler (VStr "x") (returning (VStr "C")) []] init)
        (steps [OCreateHandler (VStr "x") (returning (VStr "A")) [];
                OCreateHandler (VStr "x") (returning (VStr "B")) [];
                OClearTrigger (VStr "x");
                OCreateHandler (VStr "x") (returning (VStr "C")) [];
                OExecute (VStr "x") []] init)
  = [2%nat].
Proof. vm_compute. reflexivity. Qed.

(** ** The default callback *)

(** C9, evaluated on the code: a handler registered without a callback
    holds [undefined] in [#callback], because the field is initialised with
    the result of calling [doNothing]; dispatching its key throws, and
    nothing is called. *)
Theorem omitted_callback_throws K bound args :
  ∃ s', Trigger.execute K args
          (steps [OCreateHandler K (NotFn VUndefined) bound] init)
        = Throw s' (TypeError "this.#callback is not a function") ∧
        trace s' = [].
Proof.
  rewrite (created_1 Handlers). cbn [with_lists hstore lstore modifiers trace].
  forget_map K.
  rewrite execute_found with (l := 0%nat) by exact Hm.
  eexists. split; vm_compute; reflexivity.
Qed.

(** ** The shorthand *)

(** C10: calling [Trigger] itself is calling [Trigger.execute]: the same
    final state, hence the same effect on every list and the same calls in
    the same order, and the same completion. *)
Theorem Trigger_is_execute trigger args s :
  Trigger.Trigger trigger args s = Trigger.execute trigger args s.
Proof.
  unfold Trigger.Trigger, bind.
  by destruct (Trigger.execute trigger args s) as [s' []|].
Qed.

(** ** The maintenance steps *)

Lemma alter_insert {A} (f : A → A) i (l : list A) x :
  l !! i = Some x → alter f i l = <[i:=f x]> l.
Proof.
  intros H. apply list_eq. intros j.
  destruct (decide (i = j)) as [->|Hne].
  - rewrite list_lookup_alter_eq, H.
    by rewrite list_lookup_insert_eq by (by eapply lookup_lt_Some).
  - by rewrite list_lookup_alter_ne, list_lookup_insert_ne.
Qed.

Lemma put_list_same l L s : lstore s !! l = Some L → put_list l L s = s.
Proof.
  intros H. destruct s. unfold put_list, with_lstore. simpl in *.
  by rewrite list_insert_id.
Qed.

Lemma put_list_put_list l L1 L2 s :
  put_list l L2 (put_list l L1 s) = put_list l L2 s.
Proof.
  unfold put_list, with_lstore. simpl.
  by rewrite list_insert_insert_eq.
Qed.

Lemma purge_spec l s L :
  lstore s !! l = Some L →
  TriggerHandlerList.purge l s = Ok (put_list l (purged_list s L) s) tt.
Proof.
  intros H. unfold TriggerHandlerList.purge, bind, deref_list, purged_list.
  rewrite H. destruct (l_needsPurge L) eqn:Hp; simpl.
  - unfold update, put_list, with_lstore, get. simpl. do 2 f_equal.
    rewrite (alter_insert _ _ _ _ H).
    erewrite alter_insert
      by (apply list_lookup_insert_eq; by eapply lookup_lt_Some).
    by rewrite list_insert_insert_eq.
  - by rewrite put_list_same.
Qed.

Lemma updatePriorities_spec l s L :
  lstore s !! l = Some L →
  TriggerHandlerList.updatePriorities l s
  = Ok (put_list l (sorted_list s L) s) tt.
Proof.
  intros H. unfold TriggerHandlerList.updatePriorities, sorted_list.
  rewrite (bind_Ok _ _ s s L) by (unfold deref_list; by rewrite H).
  destruct (l_needsPriorityUpdate L) eqn:Hp; simpl.
  - rewrite (bind_Ok _ _ _ _ _ (purge_spec l s L H)).
    unfold bind, get, update, put_list, with_lstore. simpl. do 2 f_equal.
    assert (<[l:=purged_list s L]> (lstore s) !! l = Some (purged_list s L))
      as H' by (apply list_lookup_insert_eq; by eapply lookup_lt_Some).
    rewrite (alter_insert _ _ _ _ H').
    erewrite alter_insert
      by (apply list_lookup_insert_eq; rewrite length_insert;
          by eapply lookup_lt_Some).
    by rewrite !list_insert_insert_eq.
  - by rewrite put_list_same.
Qed.

Lemma purged_list_handlers s L h :
  h ∈ l_handlers (purged_list s L) → h ∈ l_handlers L.
Proof.
  unfold purged_list. destruct (l_needsPurge L); simpl; [|done].
  rewrite list_elem_of_filter. tauto.
Qed.

Lemma sorted_list_handlers s L h :
  h ∈ l_handlers (sorted_list s L) → h ∈ l_handlers L.
Proof.
  unfold sorted_list. destruct (l_needsPriorityUpdate L); simpl; [|done].
  rewrite js_sort_perm. apply purged_list_handlers.
Qed.

Lemma lookup_put_list l L s :
  is_Some (lstore s !! l) → lstore (put_list l L s) !! l = Some L.
Proof.
  intros [L0 H%lookup_lt_Some]. unfold put_list. simpl.
  by apply list_lookup_insert_eq.
Qed.

Lemma when_update_spec l s L :
  lstore s !! l = Some L →
  when (l_needsPriorityUpdate L) (TriggerHandlerList.updatePriorities l) s
  = Ok (put_list l (sorted_list s L) s) tt.
Proof.
  intros H. destruct (l_needsPriorityUpdate L) eqn:Hp; simpl.
  - by apply updatePriorities_spec.
  - unfold sorted_list. rewrite Hp. by rewrite put_list_same.
Qed.

(** The three traversals start on the list [#updatePriorities] leaves. *)
Lemma execute_unfold l a s L :
  lstore s !! l = Some L →
  TriggerHandlerList.execute l a s
  = for_of (l_handlers (sorted_list s L)) (fun handler =>
      s <- get ;;
      if negb (isCancelled s handler)
      then _ <- TriggerHandler.execute handler a ;; ret tt
      else ret tt) (put_list l (sorted_list s L) s).
Proof.
  intros H. unfold TriggerHandlerList.execute.
  rewrite (bind_Ok _ _ s s L) by (unfold deref_list; by rewrite H).
  rewrite (bind_Ok _ _ _ _ _ (when_update_spec l s L H)).
  erewrite bind_Ok; [done|].
  unfold deref_list. by rewrite lookup_put_list.
Qed.

Lemma poll_unfold l a s L :
  lstore s !! l = Some L →
  TriggerHandlerList.poll l a s
  = (result <- for_of_acc (l_handlers (sorted_list s L)) [] (fun result handler =>
       s <- get ;;
       if negb (isCancelled s handler)
       then v <- TriggerHandler.execute handler a ;; ret (result ++ [v])
       else ret result) ;;
     TriggerHandlerList.purge l ;;
     ret result) (put_list l (sorted_list s L) s).
Proof.
  intros H. unfold TriggerHandlerList.poll.
  rewrite (bind_Ok _ _ _ _ _ (updatePriorities_spec l s L H)).
  erewrite bind_Ok; [done|].
  unfold deref_list. by rewrite lookup_put_list.
Qed.

Lemma modify_unfold l v a s L :
  lstore s !! l = Some L →
  TriggerHandlerList.modify l v a s
  = for_of_acc (l_handlers (sorted_list s L)) v (fun result handler =>
      s <- get ;;
      if negb (isCancelled s handler)
      then TriggerHandler.modify handler v a
      else ret result) (put_list l (sorted_list s L) s).
Proof.
  intros H. unfold TriggerHandlerList.modify.
  rewrite (bind_Ok _ _ s s L) by (unfold deref_list; by rewrite H).
  rewrite (bind_Ok _ _ _ _ _ (when_update_spec l s L H)).
  erewrite bind_Ok; [done|].
  unfold deref_list. by rewrite lookup_put_list.
Qed.

(** ** Dispatch without handlers *)

Lemma for_of_acc_skip {R} xs (r : R) (f : HandlerRef → R → M R) s :
  (∀ h, h ∈ xs → isCancelled s h = true) →
  for_of_acc xs r (fun result handler =>
    s <- get ;;
    if negb (isCancelled s handler) then f handler result else ret result) s
  = Ok s r.
Proof.
  induction xs as [|x xs IH]; intros Hc; simpl; [done|].
  unfold bind at 1 2, get. rewrite (Hc x) by left. simpl.
  apply IH. intros h Hh. apply Hc. by right.
Qed.

(** ** How states evolve *)

Lemma count_not_elem_of (h : HandlerRef) l :
  h ∉ l → length (filter (eq h) l) = 0%nat.
Proof.
  induction l as [|x l IH]; intros Hn; [done|].
  rewrite filter_cons. case_decide as Hx; [set_solver|].
  apply IH. set_solver.
Qed.

Lemma isCancelled_true s h :
  isCancelled s h = true ↔ ∃ x, hstore s !! h = Some x ∧ h_cancelled x = true.
Proof.
  unfold isCancelled. destruct (hstore s !! h) as [x|].
  - split; [eauto|]. by intros (? & [= <-] & ?).
  - split; [done|]. by intros (? & ? & ?).
Qed.

Lemma isOnce_true s h :
  isOnce s h = true ↔ ∃ x, hstore s !! h = Some x ∧ h_once x = true.
Proof.
  unfold isOnce. destruct (hstore s !! h) as [x|].
  - split; [eauto|]. by intros (? & [= <-] & ?).
  - split; [done|]. by intros (? & ? & ?).
Qed.

Lemma evolves_isCancelled s s' h :
  evolves s s' → isCancelled s h = true → isCancelled s' h = true.
Proof.
  intros [Hk _]. rewrite !isCancelled_true. intros (x & Hx & Hc).
  destruct (Hk h x Hx) as (x' & Hx' & _ & Hc'). eauto.
Qed.

Lemma evolves_isOnce s s' h :
  evolves s s' → isOnce s h = true → isOnce s' h = true.
Proof.
  intros [Hk _]. rewrite !isOnce_true. intros (x & Hx & Hc).
  destruct (Hk h x Hx) as (x' & Hx' & Ho & _). exists x'. by rewrite Ho.
Qed.

#[local] Instance evolves_refl : Reflexive evolves.
Proof.
  intros s. split.
  - intros h x Hx. eauto.
  - exists []. rewrite app_nil_r. split; [done|]. split; intros h Hh; inversion Hh.
Qed.

#[local] Instance evolves_trans : Transitive evolves.
Proof.
  intros s1 s2 s3 H12 H23.
  pose proof H12 as [Hk1 (t1 & Ht1 & Hb1 & Hc1)].
  pose proof H23 as [Hk2 (t2 & Ht2 & Hb2 & Hc2)].
  split.
  - intros h x Hx. destruct (Hk1 h x Hx) as (x' & Hx' & Ho & Hc).
    destruct (Hk2 h x' Hx') as (x'' & Hx'' & Ho' & Hc').
    exists x''. split; [done|]. split; [congruence|tauto].
  - exists (t1 ++ t2). split; [by rewrite Ht2, Ht1, app_assoc|].
    rewrite fmap_app. split.
    + intros h [Hh|Hh]%elem_of_app; [by apply Hb1|].
      specialize (Hb2 h Hh).
      destruct (isCancelled s1 h) eqn:E; [|done].
      by rewrite (evolves_isCancelled _ _ _ H12 E) in Hb2.
    + intros h Hh Ho. rewrite filter_app, length_app.
      destruct (decide (h ∈ t1.*1)) as [Hin|Hin].
      * destruct (Hc1 h Hin Ho) as [Hc Hn].
        split; [by eapply evolves_isCancelled|].
        rewrite Hn, (count_not_elem_of h (t2.*1)); [done|].
        intros Hin2. specialize (Hb2 h Hin2). congruence.
      * apply elem_of_app in Hh as [Hh|Hh]; [done|].
        destruct (Hc2 h Hh (evolves_isOnce _ _ _ H12 Ho)) as [Hc Hn].
        split; [done|]. by rewrite Hn, count_not_elem_of.
Qed.

Lemma evolves_quiet s s' :
  trace s' = trace s →
  (∀ h x, hstore s !! h = Some x →
     ∃ x', hstore s' !! h = Some x' ∧ h_once x' = h_once x ∧
           (h_cancelled x = true → h_cancelled x' = true)) →
  evolves s s'.
Proof.
  intros Ht Hk. split; [done|].
  exists []. rewrite app_nil_r. split; [done|].
  split; intros h Hh; inversion Hh.
Qed.

Lemma keep_alter (f : Handler → Handler) h0 (hs : list Handler) :
  (∀ x, h_once (f x) = h_once x ∧
        (h_cancelled x = true → h_cancelled (f x) = true)) →
  ∀ h x, hs !! h = Some x →
    ∃ x', alter f h0 hs !! h = Some x' ∧ h_once x' = h_once x ∧
          (h_cancelled x = true → h_cancelled x' = true).
Proof.
  intros Hf h x Hx. destruct (decide (h0 = h)) as [->|Hne].
  - exists (f x). rewrite list_lookup_alter_eq, Hx. split; [done|apply Hf].
  - exists x. by rewrite list_lookup_alter_ne.
Qed.

Lemma evolves_with_lstore f : sat evolves (update (with_lstore f)).
Proof. intros s. apply evolves_quiet; simpl; eauto. Qed.

Lemma evolves_with_lists m f : sat evolves (update (with_lists m f)).
Proof. intros s. apply evolves_quiet; destruct m; simpl; eauto. Qed.

Lemma evolves_queuePurge l : sat evolves (queuePurge l).
Proof. apply evolves_with_lstore. Qed.

Lemma evolves_queuePriorityUpdate l : sat evolves (queuePriorityUpdate l).
Proof.
  apply sat_bind; [typeclasses eauto..| |intros _]; apply evolves_with_lstore.
Qed.

Lemma evolves_cancel h : sat evolves (TriggerHandler.cancel h).
Proof.
  apply sat_deref_handler; [typeclasses eauto|]. intros s x Hx.
  apply (sat_bind evolves); [|intros _; apply evolves_queuePurge].
  intros s0. apply evolves_quiet; [done|]. simpl.
  apply keep_alter. by intros [].
Qed.

Lemma evolves_setPriority h v : sat evolves (TriggerHandler.setPriority h v).
Proof.
  apply sat_deref_handler; [typeclasses eauto|]. intros s x Hx.
  apply (sat_bind evolves); [|intros _; apply evolves_queuePriorityUpdate].
  intros s0. apply evolves_quiet; [done|]. simpl.
  apply keep_alter. by intros [].
Qed.

Lemma evolves_log h actuals s s1 :
  evolves s s1 → trace s1 = trace s → isCancelled s h = false →
  (isOnce s h = true → isCancelled s1 h = true) →
  evolves s (with_trace (fun t => t ++ [(h, actuals)]) s1).
Proof.
  intros [Hk _] Ht Hc Ho. split; [done|].
  exists [(h, actuals)]. simpl. rewrite Ht. split; [done|].
  split; intros h' ->%list_elem_of_singleton; [done|].
  intros Ho'. split; [by apply Ho|].
  rewrite filter_cons_True by done. done.
Qed.

Lemma evolves_call_rest (f : Callback) actuals :
  sat evolves (for_of (cancels (f actuals)) TriggerHandler.cancel ;;
               match completion (f actuals) with
               | Return v => ret v
               | Raise v => throw (Thrown v)
               end).
Proof.
  apply (sat_bind evolves).
  - apply sat_for_of; [typeclasses eauto..|]. apply evolves_cancel.
  - intros _. destruct (completion _); [apply sat_ret|apply sat_throw];
      typeclasses eauto.
Qed.

(** A handler that is not cancelled is invoked: the step both traversal
    methods of a handler share. *)
Lemma evolves_invoke h x actuals s :
  hstore s !! h = Some x → h_cancelled x = false →
  evolves s (state_of ((when (h_once x) (TriggerHandler.cancel h) ;;
                        TriggerHandler.call h (h_callback x) actuals) s)).
Proof.
  intros Hx Hc.
  assert (isCancelled s h = false) as Hnc
    by (unfold isCancelled; by rewrite Hx).
  pose proof (evolves_cancel h s) as Hcan.
  assert (∀ s1, evolves s s1 → trace s1 = trace s →
            (h_once x = true → isCancelled s1 h = true) →
            evolves s (state_of (TriggerHandler.call h (h_callback x)
                                   actuals s1))) as Hcall.
  { intros s1 Hev Ht Ho. unfold TriggerHandler.call.
    destruct (h_callback x) as [f|v]; [|done].
    unfold bind at 1, update.
    etrans; [|apply evolves_call_rest].
    apply evolves_log; try done.
    intros Ho'. apply Ho. apply isOnce_true in Ho' as (x' & Hx' & Ho').
    congruence. }
  unfold bind at 1. destruct (h_once x) eqn:Ho; simpl.
  - unfold TriggerHandler.cancel, bind, deref_handler in *.
    rewrite Hx in *. simpl in *. apply Hcall; [done..|].
    intros _. unfold isCancelled. simpl.
    rewrite list_lookup_alter_eq, Hx. done.
  - apply Hcall; [reflexivity|done..].
Qed.

Lemma evolves_execute h a s :
  isCancelled s h = false →
  evolves s (state_of (TriggerHandler.execute h a s)).
Proof.
  intros Hc. unfold TriggerHandler.execute, bind at 1, deref_handler.
  destruct (hstore s !! h) as [x|] eqn:Hx; [|reflexivity].
  apply evolves_invoke; [done|].
  unfold isCancelled in Hc. by rewrite Hx in Hc.
Qed.

Lemma evolves_modify h v a s :
  isCancelled s h = false →
  evolves s (state_of (TriggerHandler.modify h v a s)).
Proof.
  intros Hc. unfold TriggerHandler.modify, bind at 1, deref_handler.
  destruct (hstore s !! h) as [x|] eqn:Hx; [|reflexivity].
  apply evolves_invoke; [done|].
  unfold isCancelled in Hc. by rewrite Hx in Hc.
Qed.

Lemma evolves_purge l : sat evolves (TriggerHandlerList.purge l).
Proof.
  apply sat_deref_list; [typeclasses eauto|]. intros s L HL.
  destruct (negb (l_needsPurge L)); [reflexivity|].
  apply (sat_get_bind evolves). intros s0.
  apply (sat_bind evolves); [|intros _]; apply evolves_with_lstore.
Qed.

Lemma evolves_updatePriorities l :
  sat evolves (TriggerHandlerList.updatePriorities l).
Proof.
  apply sat_deref_list; [typeclasses eauto|]. intros s L HL.
  destruct (negb (l_needsPriorityUpdate L)); [reflexivity|].
  apply (sat_bind evolves); [apply evolves_purge|intros _].
  apply (sat_get_bind evolves). intros s0.
  apply (sat_bind evolves); [|intros _]; apply evolves_with_lstore.
Qed.

Lemma evolves_list_execute l a : sat evolves (TriggerHandlerList.execute l a).
Proof.
  apply sat_deref_list; [typeclasses eauto|]. intros s L HL.
  apply (sat_bind evolves);
    [apply sat_when; [typeclasses eauto..|apply evolves_updatePriorities]|].
  intros _. apply sat_deref_list; [typeclasses eauto|]. intros s1 L1 HL1.
  apply (sat_for_of evolves). intros h. apply (sat_get_bind evolves).
  intros s2. destruct (isCancelled s2 h) eqn:Hc; simpl; [reflexivity|].
  unfold bind. pose proof (evolves_execute h a s2 Hc) as He.
  by destruct (TriggerHandler.execute h a s2).
Qed.

Lemma evolves_list_poll l a : sat evolves (TriggerHandlerList.poll l a).
Proof.
  apply (sat_bind evolves); [apply evolves_updatePriorities|intros _].
  apply sat_deref_list; [typeclasses eauto|]. intros s1 L1 HL1.
  apply (sat_bind evolves).
  - apply (sat_for_of_acc evolves). intros r h. apply (sat_get_bind evolves).
    intros s2. destruct (isCancelled s2 h) eqn:Hc; simpl; [reflexivity|].
    unfold bind. pose proof (evolves_execute h a s2 Hc) as He.
    by destruct (TriggerHandler.execute h a s2).
  - intros r. apply (sat_bind evolves); [apply evolves_purge|intros _].
    apply sat_ret; typeclasses eauto.
Qed.

Lemma evolves_list_modify l v a : sat evolves (TriggerHandlerList.modify l v a).
Proof.
  apply sat_deref_list; [typeclasses eauto|]. intros s L HL.
  apply (sat_bind evolves);
    [apply sat_when; [typeclasses eauto..|apply evolves_updatePriorities]|].
  intros _. apply sat_deref_list; [typeclasses eauto|]. intros s1 L1 HL1.
  apply (sat_for_of_acc evolves). intros r h. apply (sat_get_bind evolves).
  intros s2. destruct (isCancelled s2 h) eqn:Hc; simpl; [reflexivity|].
  apply evolves_modify; done.
Qed.

Lemma evolves_clear l : sat evolves (TriggerHandlerList.clear l).
Proof.
  apply sat_deref_list; [typeclasses eauto|]. intros s L HL.
  apply (sat_bind evolves).
  - apply sat_for_of; [typeclasses eauto..|]. apply evolves_cancel.
  - intros _. apply sat_throw; typeclasses eauto.
Qed.

Lemma evolves_getHandlerList m k c : sat evolves (getHandlerList m k c).
Proof.
  apply (sat_get_bind evolves). intros s.
  destruct (lists_of m s !! k); [reflexivity|].
  destruct (negb c); [reflexivity|].
  apply (sat_bind evolves); [apply evolves_with_lstore|intros _].
  apply (sat_bind evolves); [apply evolves_with_lists|intros _].
  apply sat_ret; typeclasses eauto.
Qed.

Lemma evolves_addHandler l c a : sat evolves (TriggerHandlerList.addHandler l c a).
Proof.
  apply (sat_get_bind evolves). intros s.
  apply (sat_bind evolves).
  { intros s0. apply evolves_quiet; [done|]. simpl. intros h x Hx.
    exists x. by rewrite lookup_app_l by (by eapply lookup_lt_Some). }
  intros _. apply (sat_bind evolves); [apply evolves_with_lstore|intros _].
  apply sat_deref_list; [typeclasses eauto|]. intros s1 L1 HL1.
  apply (sat_bind evolves);
    [apply sat_when; [typeclasses eauto..|apply evolves_queuePriorityUpdate]|].
  intros _. apply sat_ret; typeclasses eauto.
Qed.

Lemma evolves_createHandler m k c a : sat evolves (createHandler m k c a).
Proof.
  apply (sat_bind evolves); [apply evolves_getHandlerList|].
  intros [l|]; [apply evolves_addHandler|apply sat_throw; typeclasses eauto].
Qed.

Lemma evolves_Trigger_execute k a : sat evolves (Trigger.execute k a).
Proof.
  apply (sat_bind evolves); [apply evolves_getHandlerList|].
  intros [l|]; [apply evolves_list_execute|apply sat_ret; typeclasses eauto].
Qed.

Lemma evolves_Trigger_poll k a : sat evolves (Trigger.poll k a).
Proof.
  apply (sat_bind evolves); [apply evolves_getHandlerList|].
  intros [l|]; [apply evolves_list_poll|apply sat_ret; typeclasses eauto].
Qed.

Lemma evolves_Trigger_modify v k a : sat evolves (Trigger.modify v k a).
Proof.
  apply (sat_bind evolves); [apply evolves_getHandlerList|].
  intros o. apply (sat_bind evolves).
  - destruct o; [apply evolves_list_modify|apply sat_ret; typeclasses eauto].
  - intros r. apply sat_ret; typeclasses eauto.
Qed.

Lemma evolves_clearTrigger k : sat evolves (Trigger.clearTrigger k).
Proof.
  unfold Trigger.clearTrigger.
  apply (sat_bind evolves); [apply evolves_getHandlerList|intros o].
  apply (sat_bind evolves).
  { destruct o; [apply evolves_clear|apply sat_throw; typeclasses eauto]. }
  intros _. apply (sat_bind evolves); [apply evolves_with_lists|intros _].
  apply (sat_bind evolves); [apply evolves_getHandlerList|intros o'].
  apply (sat_bind evolves).
  { destruct o'; [apply evolves_clear|apply sat_throw; typeclasses eauto]. }
  intros _. apply evolves_with_lists.
Qed.

(** Every operation but [setOnce] evolves the state. *)
Lemma evolves_step o s :
  (∀ h b, o ≠ OSetOnce h b) → evolves s (step o s).
Proof.
  intros Ho. destruct o; simpl.
  - apply evolves_createHandler.
  - apply evolves_createHandler.
  - unfold Trigger.Trigger.
    apply (sat_bind evolves); [apply evolves_Trigger_execute|intros _].
    apply sat_ret; typeclasses eauto.
  - apply evolves_Trigger_execute.
  - apply evolves_Trigger_poll.
  - apply evolves_Trigger_modify.
  - apply evolves_clearTrigger.
  - apply evolves_cancel.
  - apply evolves_setPriority.
  - by destruct (Ho h value).
Qed.

(** ** Well-formed states *)

#[local] Instance preserved_refl P : Reflexive (preserved P).
Proof. intros s H. exact H. Qed.

#[local] Instance preserved_trans P : Transitive (preserved P).
Proof. intros s1 s2 s3 H12 H23 H. by apply H23, H12. Qed.

Lemma StronglySorted_ext (key key' : HandlerRef → Z) l :
  (∀ a, a ∈ l → key' a = key a) →
  StronglySorted (fun a b => key a ≤ key b) l →
  StronglySorted (fun a b => key' a ≤ key' b) l.
Proof.
  intros He Hs. induction Hs as [|x l Hl IH Hx]; constructor.
  - apply IH. intros a Ha. apply He. by right.
  - rewrite Forall_forall in *. intros y Hy.
    rewrite !He; [by apply Hx|by right|by left].
Qed.

(** Replacing a list object by one with fewer handlers and flags that
    promise no more than holds. *)
Lemma wf_put_list l L L' s :
  wf s → lstore s !! l = Some L →
  (∀ h, h ∈ l_handlers L' → h ∈ l_handlers L) →
  NoDup (l_handlers L') →
  (l_needsPurge L' = false →
   ∀ h, h ∈ l_handlers L' → isCancelled s h = false) →
  (l_needsPriorityUpdate L' = false →
   StronglySorted (fun a b => getPriority s a ≤ getPriority s b)
                  (l_handlers L')) →
  (l_usesPriorities L' = false → l_usesPriorities L = false) →
  wf (put_list l L' s).
Proof.
  intros [Hmem Hnd Hown Hpur Hsor Hdef Hlis] HL Hsub Hnd' Hpur' Hsor' Huse.
  assert (∀ l1 L1, lstore (put_list l L' s) !! l1 = Some L1 →
            l1 = l ∧ L1 = L' ∨ l1 ≠ l ∧ lstore s !! l1 = Some L1) as Hcase.
  { intros l1 L1. unfold put_list. simpl.
    rewrite list_lookup_insert_Some.
    intros [(-> & -> & _)|[? ?]]; [by left|right; by split]. }
  assert (∀ l1, is_Some (lstore s !! l1) →
            is_Some (lstore (put_list l L' s) !! l1)) as Hsome.
  { intros l1 Hl1. unfold put_list. simpl.
    apply lookup_lt_is_Some. rewrite length_insert.
    by apply lookup_lt_is_Some. }
  split.
  - intros l1 L1 h [[-> ->]|[_ H1]]%Hcase Hin; eauto.
  - intros l1 L1 [[-> ->]|[_ H1]]%Hcase; eauto.
  - intros h x Hx. apply Hsome. by eapply Hown.
  - intros l1 L1 h [[-> ->]|[_ H1]]%Hcase Hp Hin.
    + by apply Hpur'.
    + by eapply Hpur.
  - intros l1 L1 [[-> ->]|[_ H1]]%Hcase Hp.
    + by apply Hsor'.
    + by eapply Hsor.
  - intros h x L1 Hx [[Hl ->]|[_ H1]]%Hcase Hu.
    + eapply Hdef; [done| |by apply Huse]. by rewrite Hl.
    + by eapply Hdef.
  - intros m k l1 Hk. apply Hsome. eapply (Hlis m). by destruct m.
Qed.

(** Replacing a handler object by one of the same list, cancelled or
    re-prioritised only if the list was told. *)
Lemma wf_put_handler h x x' s :
  wf s → hstore s !! h = Some x →
  h_list x' = h_list x →
  (h_cancelled x' = h_cancelled x ∨
   ∃ L, lstore s !! h_list x = Some L ∧ l_needsPurge L = true) →
  (h_priority x' = h_priority x ∨
   ∃ L, lstore s !! h_list x = Some L ∧
        l_needsPriorityUpdate L = true ∧ l_usesPriorities L = true) →
  wf (put_handler h x' s).
Proof.
  intros [Hmem Hnd Hown Hpur Hsor Hdef Hlis] Hx Hl Hc Hp.
  assert (∀ h1 x1, <[h:=x']> (hstore s) !! h1 = Some x1 →
            h1 = h ∧ x1 = x' ∨ h1 ≠ h ∧ hstore s !! h1 = Some x1) as Hcase.
  { intros h1 x1. rewrite list_lookup_insert_Some.
    intros [(-> & -> & _)|[? ?]]; [by left|right; by split]. }
  assert (<[h:=x']> (hstore s) !! h = Some x') as Hh.
  { apply list_lookup_insert_eq. by eapply lookup_lt_Some. }
  assert (∀ h1, h1 ≠ h → <[h:=x']> (hstore s) !! h1 = hstore s !! h1) as Hne.
  { intros h1 H1. by apply list_lookup_insert_ne. }
  unfold put_handler, with_hstore.
  split; unfold isCancelled, getPriority; simpl.
  - intros l L h1 HL Hin. destruct (Hmem l L h1 HL Hin) as (x1 & Hx1 & Hl1).
    destruct (decide (h1 = h)) as [->|H1].
    + exists x'. split; [done|]. congruence.
    + exists x1. by rewrite Hne.
  - exact Hnd.
  - intros h1 x1 [[-> ->]|[_ H1]]%Hcase.
    + rewrite Hl. by eapply Hown.
    + by eapply Hown.
  - intros l L h1 HL HpL Hin. specialize (Hpur l L h1 HL HpL Hin).
    unfold isCancelled in Hpur. destruct (decide (h1 = h)) as [->|H1].
    + rewrite Hh. rewrite Hx in Hpur.
      destruct Hc as [->|(L0 & HL0 & Hp0)]; [done|].
      destruct (Hmem l L h HL Hin) as (x1 & Hx1 & Hl1).
      assert (x1 = x) as -> by congruence. congruence.
    + by rewrite Hne.
  - intros l L HL HpL. specialize (Hsor l L HL HpL).
    eapply StronglySorted_ext; [|exact Hsor].
    intros a Ha. unfold getPriority.
    destruct (decide (a = h)) as [->|H1]; [|by rewrite Hne].
    rewrite Hh, Hx. destruct Hp as [->|(L0 & HL0 & Hp0 & _)]; [done|].
    destruct (Hmem l L h HL Ha) as (x1 & Hx1 & Hl1).
    assert (x1 = x) as -> by congruence. congruence.
  - intros h1 x1 L [[-> ->]|[_ H1]]%Hcase HL Hu.
    + rewrite Hl in HL.
      destruct Hp as [->|(L0 & HL0 & _ & Hu0)]; [by eapply Hdef|congruence].
    + by eapply Hdef.
  - intros m k l Hk. eapply (Hlis m). by destruct m.
Qed.

Lemma StronglySorted_const (key : HandlerRef → Z) l :
  (∀ a, a ∈ l → key a = 0) →
  StronglySorted (fun a b => key a ≤ key b) l.
Proof.
  induction l as [|x l IH]; intros Hk; constructor.
  - apply IH. intros a Ha. apply Hk. by right.
  - rewrite Forall_forall. intros y Hy.
    rewrite (Hk x), (Hk y); [done|by right|by left].
Qed.

(** The state [addHandler] leaves: a fresh handler at the end of the
    store and of the list, the order flag raised if priorities are in
    use. *)
Lemma wf_add l L c a s :
  wf s → lstore s !! l = Some L →
  wf (put_list l
        (mkList (l_handlers L ++ [length (hstore s)]) (l_usesPriorities L)
                (l_needsPriorityUpdate L || l_usesPriorities L)
                (l_needsPurge L) (l_trigger L))
        (with_hstore (fun hs => hs ++ [TriggerHandler.new l c a]) s)).
Proof.
  intros [Hmem Hnd Hown Hpur Hsor Hdef Hlis] HL.
  set (n := length (hstore s)).
  set (new := TriggerHandler.new l c a).
  set (L' := mkList _ _ _ _ _).
  assert (∀ l1 L1, <[l:=L']> (lstore s) !! l1 = Some L1 →
            l1 = l ∧ L1 = L' ∨ l1 ≠ l ∧ lstore s !! l1 = Some L1) as Hcase.
  { intros l1 L1. rewrite list_lookup_insert_Some.
    intros [(-> & -> & _)|[? ?]]; [by left|right; by split]. }
  assert (∀ l1, is_Some (lstore s !! l1) →
            is_Some (<[l:=L']> (lstore s) !! l1)) as Hsome.
  { intros l1 Hl1. apply lookup_lt_is_Some. rewrite length_insert.
    by apply lookup_lt_is_Some. }
  assert (∀ h x, hstore s !! h = Some x →
            (hstore s ++ [new]) !! h = Some x) as Hold.
  { intros h x Hx. rewrite lookup_app_l; [done|by eapply lookup_lt_Some]. }
  assert ((hstore s ++ [new]) !! n = Some new) as Hnew.
  { rewrite lookup_app_r by done. by rewrite Nat.sub_diag. }
  assert (∀ h x, (hstore s ++ [new]) !! h = Some x →
            hstore s !! h = Some x ∨ h = n ∧ x = new) as Hinv.
  { intros h x Hx. apply lookup_app_Some in Hx as [?|[? Hx]]; [by left|].
    right. apply list_lookup_singleton_Some in Hx as [? ?]. split; [|done].
    unfold n. lia. }
  assert (∀ l1 L1 h, lstore s !! l1 = Some L1 → h ∈ l_handlers L1 →
            (h < n)%nat) as Hlt.
  { intros l1 L1 h H1 Hin. destruct (Hmem l1 L1 h H1 Hin) as (x & Hx & _).
    by eapply lookup_lt_Some. }
  unfold put_list, with_lstore, with_hstore.
  split; unfold isCancelled, getPriority; simpl.
  - intros l1 L1 h [[-> ->]|[_ H1]]%Hcase Hin.
    + simpl in Hin. apply elem_of_app in Hin as [Hin| ->%list_elem_of_singleton].
      * destruct (Hmem l L h HL Hin) as (x & Hx & Hl). eauto.
      * exists new. by split.
    + destruct (Hmem l1 L1 h H1 Hin) as (x & Hx & Hl). eauto.
  - intros l1 L1 [[-> ->]|[_ H1]]%Hcase; [|by eauto]. simpl.
    apply NoDup_app. split; [by eauto|]. split; [|apply NoDup_singleton].
    intros h Hin ->%list_elem_of_singleton.
    specialize (Hlt l L n HL Hin). lia.
  - intros h x [Hx|[-> ->]]%Hinv; apply Hsome; [by eapply Hown|by eauto].
  - intros l1 L1 h [[-> ->]|[_ H1]]%Hcase Hp Hin.
    + simpl in *. apply elem_of_app in Hin as [Hin| ->%list_elem_of_singleton].
      * destruct (Hmem l L h HL Hin) as (x & Hx & Hl).
        specialize (Hpur l L h HL Hp Hin). unfold isCancelled in Hpur.
        rewrite Hx in Hpur. by rewrite (Hold h x).
      * by rewrite Hnew.
    + destruct (Hmem l1 L1 h H1 Hin) as (x & Hx & Hl).
      specialize (Hpur l1 L1 h H1 Hp Hin). unfold isCancelled in Hpur.
      rewrite Hx in Hpur. by rewrite (Hold h x).
  - intros l1 L1 [[-> ->]|[_ H1]]%Hcase Hp.
    + simpl in *. apply orb_false_iff in Hp as [Hp Hu].
      apply StronglySorted_const. intros h Hin.
      apply elem_of_app in Hin as [Hin| ->%list_elem_of_singleton].
      * destruct (Hmem l L h HL Hin) as (x & Hx & Hl).
        rewrite (Hold h x) by done. eapply Hdef; [done| |done]. by rewrite Hl.
      * by rewrite Hnew.
    + eapply StronglySorted_ext; [|by eapply Hsor].
      intros h Hin. simpl. destruct (Hmem l1 L1 h H1 Hin) as (x & Hx & Hl).
      unfold getPriority. by rewrite (Hold h x), Hx.
  - intros h x L1 [Hx|[-> ->]]%Hinv [[Hl ->]|[_ H1]]%Hcase Hu.
    + simpl in Hu. eapply Hdef; [done| |done]. by rewrite Hl.
    + by eapply Hdef.
    + done.
    + done.
  - intros m k l1 Hk. apply Hsome. eapply (Hlis m). by destruct m.
Qed.

(** The state [getHandlerList] leaves when it creates a list. *)
Lemma wf_new_list m k s :
  wf s →
  wf (with_lists m (insert k (length (lstore s)))
        (with_lstore (fun ls => ls ++ [TriggerHandlerList.new k]) s)).
Proof.
  intros [Hmem Hnd Hown Hpur Hsor Hdef Hlis].
  set (n := length (lstore s)).
  set (new := TriggerHandlerList.new k).
  assert (∀ l L, (lstore s ++ [new]) !! l = Some L →
            lstore s !! l = Some L ∨ l = n ∧ L = new) as Hinv.
  { intros l L HL. apply lookup_app_Some in HL as [?|[? HL]]; [by left|].
    right. apply list_lookup_singleton_Some in HL as [? ?]. split; [|done].
    unfold n. lia. }
  assert (∀ l, is_Some (lstore s !! l) →
            is_Some ((lstore s ++ [new]) !! l)) as Hsome.
  { intros l Hl%lookup_lt_is_Some. apply lookup_lt_is_Some.
    rewrite length_app. lia. }
  assert (lstore (with_lists m (insert k n)
            (with_lstore (fun ls => ls ++ [new]) s)) = lstore s ++ [new])
    as Hls by (by destruct m).
  assert (hstore (with_lists m (insert k n)
            (with_lstore (fun ls => ls ++ [new]) s)) = hstore s)
    as Hhs by (by destruct m).
  split; unfold isCancelled, getPriority; rewrite ?Hls, ?Hhs.
  - intros l L h [HL|[-> ->]]%Hinv Hin; [by eauto|]. inversion Hin.
  - intros l L [HL|[-> ->]]%Hinv; [by eauto|]. apply NoDup_nil_2.
  - intros h x Hx. apply Hsome. by eapply Hown.
  - intros l L h [HL|[-> ->]]%Hinv Hp Hin; [|inversion Hin].
    by apply (Hpur l L h).
  - intros l L [HL|[-> ->]]%Hinv Hp; [by apply (Hsor l L)|constructor].
  - intros h x L Hx [HL|[Hl ->]]%Hinv Hu; [by eapply Hdef|].
    apply Hown in Hx as [L' HL'%lookup_lt_Some]. unfold n in Hl. lia.
  - intros m' k' l Hk. destruct m, m'; simpl in Hk.
    + apply lookup_insert_Some in Hk as [[_ <-]|[_ Hk]].
      * apply lookup_lt_is_Some. rewrite length_app. simpl. unfold n. lia.
      * apply Hsome. by apply (Hlis Handlers k').
    + apply Hsome. by apply (Hlis Modifiers k').
    + apply Hsome. by apply (Hlis Handlers k').
    + apply lookup_insert_Some in Hk as [[_ <-]|[_ Hk]].
      * apply lookup_lt_is_Some. rewrite length_app. simpl. unfold n. lia.
      * apply Hsome. by apply (Hlis Modifiers k').
Qed.

(** Changes that touch neither store. *)
Lemma wf_frame s s' :
  hstore s' = hstore s → lstore s' = lstore s →
  (∀ m k l, lists_of m s' !! k = Some l → ∃ k', lists_of m s !! k' = Some l) →
  wf s → wf s'.
Proof.
  intros Hhs Hls Hmaps [Hmem Hnd Hown Hpur Hsor Hdef Hlis].
  split; unfold isCancelled, getPriority; rewrite ?Hhs, ?Hls; try done.
  intros m k l Hk. destruct (Hmaps m k l Hk) as [k' Hk']. by eapply Hlis.
Qed.

Lemma alter_None {A} (f : A → A) i (l : list A) :
  l !! i = None → alter f i l = l.
Proof.
  intros H. apply list_eq. intros j.
  destruct (decide (i = j)) as [->|Hne].
  - by rewrite list_lookup_alter_eq, H.
  - by rewrite list_lookup_alter_ne.
Qed.

Lemma StronglySorted_filter {A} (R : relation A) (P : A → Prop)
  `{∀ x, Decision (P x)} l :
  StronglySorted R l → StronglySorted R (filter P l).
Proof.
  induction 1 as [|x l Hl IH Hx]; [constructor|].
  rewrite filter_cons. case_decide; [|done].
  constructor; [done|]. rewrite Forall_forall in *.
  intros y [_ Hy]%list_elem_of_filter. by apply Hx.
Qed.

Lemma with_lstore_alter f l s L :
  lstore s !! l = Some L → with_lstore (alter f l) s = put_list l (f L) s.
Proof.
  intros H. unfold put_list, with_lstore. by rewrite (alter_insert _ _ _ _ H).
Qed.

Lemma with_lstore_alter_None f l s :
  lstore s !! l = None → with_lstore (alter f l) s = s.
Proof.
  intros H. unfold with_lstore. rewrite alter_None by done. by destruct s.
Qed.

Lemma wf_queuePurge l : sat (preserved wf) (queuePurge l).
Proof.
  intros s Hwf. unfold queuePurge, update. simpl.
  destruct (lstore s !! l) as [L|] eqn:HL.
  - rewrite (with_lstore_alter _ _ _ _ HL).
    eapply wf_put_list; try done; simpl.
    + by eapply wf_nodup.
    + intros. by eapply wf_sorted.
  - by rewrite with_lstore_alter_None.
Qed.

Lemma wf_queuePriorityUpdate l : sat (preserved wf) (queuePriorityUpdate l).
Proof.
  intros s Hwf. unfold queuePriorityUpdate, bind, update. simpl.
  destruct (lstore s !! l) as [L|] eqn:HL.
  - rewrite (with_lstore_alter _ _ _ _ HL).
    erewrite with_lstore_alter by (apply lookup_put_list; eauto).
    rewrite put_list_put_list.
    eapply wf_put_list; try done; simpl.
    + by eapply wf_nodup.
    + intros. by eapply wf_purged.
  - rewrite (with_lstore_alter_None _ l s) by done.
    by rewrite with_lstore_alter_None.
Qed.

Lemma wf_cancel h : sat (preserved wf) (TriggerHandler.cancel h).
Proof.
  intros s Hwf. unfold TriggerHandler.cancel, bind, deref_handler.
  destruct (hstore s !! h) as [x|] eqn:Hx; [|done]. simpl.
  destruct (wf_owner s Hwf h x Hx) as [L HL].
  pose proof (wf_queuePurge (h_list x) s Hwf) as Hwf1.
  unfold queuePurge, update in Hwf1. simpl in Hwf1.
  rewrite (with_lstore_alter _ _ _ _ HL) in Hwf1.
  match goal with |- wf ?s' =>
    assert (s' = put_handler h (set_cancelled true x)
                   (put_list (h_list x) (set_needsPurge true L) s)) as ->
  end.
  { unfold put_handler, put_list, with_hstore, with_lstore. simpl.
    by rewrite (alter_insert _ _ _ _ Hx), (alter_insert _ _ _ _ HL). }
  apply (wf_put_handler h x (set_cancelled true x)); try done.
  - right. exists (set_needsPurge true L). split; [|done].
    apply lookup_put_list. eauto.
  - by left.
Qed.

Lemma wf_setPriority h v : sat (preserved wf) (TriggerHandler.setPriority h v).
Proof.
  intros s Hwf. unfold TriggerHandler.setPriority, bind, deref_handler.
  destruct (hstore s !! h) as [x|] eqn:Hx; [|done]. simpl.
  destruct (wf_owner s Hwf h x Hx) as [L HL].
  pose proof (wf_queuePriorityUpdate (h_list x) s Hwf) as Hwf1.
  unfold queuePriorityUpdate, bind, update in Hwf1. simpl in Hwf1.
  rewrite (with_lstore_alter _ _ _ _ HL) in Hwf1.
  erewrite with_lstore_alter in Hwf1 by (apply lookup_put_list; eauto).
  rewrite put_list_put_list in Hwf1.
  match goal with |- wf ?s' =>
    assert (s' = put_handler h (set_priority v x)
                   (put_list (h_list x)
                      (set_usesPriorities true
                         (set_needsPriorityUpdate true L)) s)) as ->
  end.
  { unfold put_handler, put_list, with_hstore, with_lstore. simpl.
    rewrite (alter_insert _ _ _ _ Hx), (alter_insert _ _ _ _ HL).
    erewrite alter_insert
      by (apply list_lookup_insert_eq; by eapply lookup_lt_Some).
    by rewrite list_insert_insert_eq. }
  apply (wf_put_handler h x (set_priority v x)); try done.
  - by left.
  - right. eexists. split; [apply lookup_put_list; eauto|done].
Qed.

Lemma wf_setOnce h b : sat (preserved wf) (TriggerHandler.setOnce h b).
Proof.
  intros s Hwf. unfold TriggerHandler.setOnce, bind, deref_handler.
  destruct (hstore s !! h) as [x|] eqn:Hx; [|done]. simpl.
  match goal with |- wf ?s' =>
    assert (s' = put_handler h (set_once b x) s) as ->
  end.
  { unfold put_handler, with_hstore. by rewrite (alter_insert _ _ _ _ Hx). }
  apply (wf_put_handler h x (set_once b x)); try done; by left.
Qed.

Lemma wf_purge l : sat (preserved wf) (TriggerHandlerList.purge l).
Proof.
  intros s Hwf.
  destruct (lstore s !! l) as [L|] eqn:HL.
  - rewrite (purge_spec l s L HL). simpl.
    unfold purged_list. destruct (l_needsPurge L) eqn:Hp.
    + eapply wf_put_list; try done; simpl.
      * intros h. rewrite list_elem_of_filter. tauto.
      * apply NoDup_filter. by eapply wf_nodup.
      * intros _ h [Hh _]%list_elem_of_filter.
        by apply negb_true_iff in Hh.
      * intros Hs. apply StronglySorted_filter. by eapply wf_sorted.
    + by rewrite put_list_same.
  - unfold TriggerHandlerList.purge, bind, deref_list. by rewrite HL.
Qed.

Lemma wf_updatePriorities l :
  sat (preserved wf) (TriggerHandlerList.updatePriorities l).
Proof.
  intros s Hwf.
  destruct (lstore s !! l) as [L|] eqn:HL.
  - rewrite (updatePriorities_spec l s L HL). simpl.
    unfold sorted_list. destruct (l_needsPriorityUpdate L) eqn:Hp.
    + pose proof (wf_purge l s Hwf) as Hwf1.
      rewrite (purge_spec l s L HL) in Hwf1. simpl in Hwf1.
      rewrite <- (put_list_put_list l (purged_list s L)).
      eapply wf_put_list; [exact Hwf1|apply lookup_put_list; eauto|..];
        simpl.
      * intros h. by rewrite js_sort_perm.
      * rewrite js_sort_perm. eapply wf_nodup; [exact Hwf1|].
        apply lookup_put_list; eauto.
      * intros Hq h Hh. rewrite js_sort_perm in Hh.
        eapply (wf_purged _ Hwf1); [apply lookup_put_list; eauto|done..].
      * intros _. apply (js_sort_sorted (getPriority s)).
      * done.
    + by rewrite put_list_same.
  - unfold TriggerHandlerList.updatePriorities, bind, deref_list.
    by rewrite HL.
Qed.

Lemma addHandler_spec l c a s L :
  lstore s !! l = Some L →
  TriggerHandlerList.addHandler l c a s
  = Ok (put_list l
          (mkList (l_handlers L ++ [length (hstore s)]) (l_usesPriorities L)
                  (l_needsPriorityUpdate L || l_usesPriorities L)
                  (l_needsPurge L) (l_trigger L))
          (with_hstore (fun hs => hs ++ [TriggerHandler.new l c a]) s))
       (length (hstore s)).
Proof.
  intros HL. unfold TriggerHandlerList.addHandler, bind, get, update.
  simpl. unfold deref_list. simpl.
  rewrite list_lookup_alter_eq, HL. simpl.
  destruct (l_usesPriorities L) eqn:Hu; simpl.
  - unfold ret. f_equal. unfold put_list, with_lstore, with_hstore. simpl.
    f_equal. rewrite !list_alter_alter_eq, (alter_insert _ _ _ _ HL).
    simpl. by rewrite ?Hu, ?orb_true_r.
  - unfold ret. f_equal. unfold put_list, with_lstore, with_hstore. simpl.
    f_equal. rewrite (alter_insert _ _ _ _ HL). unfold set_handlers.
    by rewrite ?Hu, ?orb_false_r.
Qed.

Lemma wf_createHandler m k c a : sat (preserved wf) (createHandler m k c a).
Proof.
  intros s Hwf. unfold createHandler, getHandlerList, bind at 1 2, get.
  destruct (lists_of m s !! k) as [l|] eqn:Hk; simpl.
  - destruct (wf_lists s Hwf m k l Hk) as [L HL].
    rewrite (addHandler_spec _ _ _ _ _ HL). by apply wf_add.
  - unfold bind, update. simpl.
    pose proof (wf_new_list m k s Hwf) as Hwf1.
    match goal with |- context [TriggerHandlerList.addHandler _ _ _ ?s1] =>
      assert (lstore s1 !! length (lstore s)
              = Some (TriggerHandlerList.new k)) as HL
    end.
    { destruct m; simpl; rewrite lookup_app_r by done;
        by rewrite Nat.sub_diag. }
    rewrite (addHandler_spec _ _ _ _ _ HL). by apply wf_add.
Qed.

Lemma wf_log h actuals :
  sat (preserved wf) (update (with_trace (fun t => t ++ [(h, actuals)]))).
Proof.
  intros s Hwf. eapply wf_frame; [..|exact Hwf]; try done.
  intros m k l Hk. exists k. by destruct m.
Qed.

Lemma wf_call h c actuals : sat (preserved wf) (TriggerHandler.call h c actuals).
Proof.
  destruct c as [f|v]; simpl; [|apply sat_throw; typeclasses eauto].
  apply (sat_bind (preserved wf)); [apply wf_log|intros _].
  apply (sat_bind (preserved wf)).
  - apply sat_for_of; [typeclasses eauto..|]. apply wf_cancel.
  - intros _. destruct (completion _); [apply sat_ret|apply sat_throw];
      typeclasses eauto.
Qed.

Lemma wf_execute h a : sat (preserved wf) (TriggerHandler.execute h a).
Proof.
  apply sat_deref_handler; [typeclasses eauto|]. intros s x Hx.
  apply (sat_bind (preserved wf)); [|intros _; apply wf_call].
  apply sat_when; [typeclasses eauto..|]. apply wf_cancel.
Qed.

Lemma wf_modify h v a : sat (preserved wf) (TriggerHandler.modify h v a).
Proof.
  apply sat_deref_handler; [typeclasses eauto|]. intros s x Hx.
  apply (sat_bind (preserved wf)); [|intros _; apply wf_call].
  apply sat_when; [typeclasses eauto..|]. apply wf_cancel.
Qed.

Lemma wf_list_execute l a : sat (preserved wf) (TriggerHandlerList.execute l a).
Proof.
  apply sat_deref_list; [typeclasses eauto|]. intros s L HL.
  apply (sat_bind (preserved wf));
    [apply sat_when; [typeclasses eauto..|apply wf_updatePriorities]|].
  intros _. apply sat_deref_list; [typeclasses eauto|]. intros s1 L1 HL1.
  apply (sat_for_of (preserved wf)). intros h.
  apply (sat_get_bind (preserved wf)). intros s2.
  destruct (negb (isCancelled s2 h)); [|reflexivity].
  apply (sat_bind (preserved wf)); [apply wf_execute|intros _].
  apply sat_ret; typeclasses eauto.
Qed.

Lemma wf_list_poll l a : sat (preserved wf) (TriggerHandlerList.poll l a).
Proof.
  apply (sat_bind (preserved wf)); [apply wf_updatePriorities|intros _].
  apply sat_deref_list; [typeclasses eauto|]. intros s1 L1 HL1.
  apply (sat_bind (preserved wf)).
  - apply (sat_for_of_acc (preserved wf)). intros r h.
    apply (sat_get_bind (preserved wf)). intros s2.
    destruct (negb (isCancelled s2 h)); [|reflexivity].
    apply (sat_bind (preserved wf)); [apply wf_execute|intros v].
    apply sat_ret; typeclasses eauto.
  - intros r. apply (sat_bind (preserved wf)); [apply wf_purge|intros _].
    apply sat_ret; typeclasses eauto.
Qed.

Lemma wf_list_modify l v a :
  sat (preserved wf) (TriggerHandlerList.modify l v a).
Proof.
  apply sat_deref_list; [typeclasses eauto|]. intros s L HL.
  apply (sat_bind (preserved wf));
    [apply sat_when; [typeclasses eauto..|apply wf_updatePriorities]|].
  intros _. apply sat_deref_list; [typeclasses eauto|]. intros s1 L1 HL1.
  apply (sat_for_of_acc (preserved wf)). intros r h.
  apply (sat_get_bind (preserved wf)). intros s2.
  destruct (negb (isCancelled s2 h)); [|reflexivity].
  apply wf_modify.
Qed.

Lemma wf_clear l : sat (preserved wf) (TriggerHandlerList.clear l).
Proof.
  apply sat_deref_list; [typeclasses eauto|]. intros s L HL.
  apply (sat_bind (preserved wf)).
  - apply sat_for_of; [typeclasses eauto..|]. apply wf_cancel.
  - intros _. apply sat_throw; typeclasses eauto.
Qed.

Lemma wf_getHandlerList m k : sat (preserved wf) (getHandlerList m k false).
Proof.
  apply (sat_get_bind (preserved wf)). intros s.
  destruct (lists_of m s !! k); reflexivity.
Qed.

Lemma wf_delete m k : sat (preserved wf) (update (with_lists m (delete k))).
Proof.
  intros s Hwf. eapply wf_frame; [..|exact Hwf]; try (by destruct m).
  intros m' k' l Hk. destruct m, m'; simpl in *; eauto;
    apply lookup_delete_Some in Hk as [_ Hk]; eauto.
Qed.

Lemma wf_step o s : wf s → wf (step o s).
Proof.
  revert s.
  assert (∀ A (m : M A), sat (preserved wf) m →
            ∀ s, wf s → wf (state_of (m s))) as Hsat by (intros A m H; exact H).
  destruct o; simpl; apply Hsat.
  - apply wf_createHandler.
  - apply wf_createHandler.
  - unfold Trigger.Trigger.
    apply (sat_bind (preserved wf)); [|intros _; apply sat_ret; typeclasses eauto].
    apply (sat_bind (preserved wf)); [apply wf_getHandlerList|].
    intros [l|]; [apply wf_list_execute|apply sat_ret; typeclasses eauto].
  - apply (sat_bind (preserved wf)); [apply wf_getHandlerList|].
    intros [l|]; [apply wf_list_execute|apply sat_ret; typeclasses eauto].
  - apply (sat_bind (preserved wf)); [apply wf_getHandlerList|].
    intros [l|]; [apply wf_list_poll|apply sat_ret; typeclasses eauto].
  - apply (sat_bind (preserved wf)); [apply wf_getHandlerList|].
    intros o. apply (sat_bind (preserved wf)).
    + destruct o; [apply wf_list_modify|apply sat_ret; typeclasses eauto].
    + intros r. apply sat_ret; typeclasses eauto.
  - unfold Trigger.clearTrigger.
    apply (sat_bind (preserved wf)); [apply wf_getHandlerList|intros o].
    apply (sat_bind (preserved wf)).
    { destruct o; [apply wf_clear|apply sat_throw; typeclasses eauto]. }
    intros _. apply (sat_bind (preserved wf)); [apply wf_delete|intros _].
    apply (sat_bind (preserved wf)); [apply wf_getHandlerList|intros o'].
    apply (sat_bind (preserved wf)).
    { destruct o'; [apply wf_clear|apply sat_throw; typeclasses eauto]. }
    intros _. apply wf_delete.
  - apply wf_cancel.
  - apply wf_setPriority.
  - apply wf_setOnce.
Qed.

Lemma wf_init : wf init.
Proof.
  split; simpl; try done.
  intros [] k l Hk; simpl in Hk; by rewrite lookup_empty in Hk.
Qed.

Lemma wf_steps os s : wf s → wf (steps os s).
Proof.
  revert s. induction os as [|o os IH]; intros s Hwf; [done|].
  simpl. apply IH. by apply wf_step.
Qed.

Lemma reachable_wf s : reachable s → wf s.
Proof. intros [os ->]. apply wf_steps, wf_init. Qed.


(** ** The purge invariant *)

(** C8: in every state the module can reach, a list whose needs-purge
    flag is down holds no cancelled handler.  (Reachability covers every
    operation: registration, the three dispatches with whatever the
    callbacks cancel or throw, [clearTrigger], and [cancel],
    [setPriority], [setOnce] on any handler.) *)
Theorem needsPurge_false_no_cancelled s l L h :
  reachable s →
  lstore s !! l = Some L → l_needsPurge L = false →
  h ∈ l_handlers L →
  ∃ x, hstore s !! h = Some x ∧ h_cancelled x = false.
Proof.
  intros Hwf%reachable_wf HL Hp Hin.
  destruct (wf_member s Hwf l L h HL Hin) as (x & Hx & _).
  exists x. split; [done|].
  pose proof (wf_purged s Hwf l L h HL Hp Hin) as Hc.
  unfold isCancelled in Hc. by rewrite Hx in Hc.
Qed.

(** ** Traversals with plain callbacks *)


Lemma invoke_plain h x actuals s :
  hstore s !! h = Some x → h_cancelled x = false → plain (h_callback x) →
  ∃ v, (when (h_once x) (TriggerHandler.cancel h) ;;
        TriggerHandler.call h (h_callback x) actuals) s
       = Ok (fire (fun _ => actuals) s h) v.
Proof.
  intros Hx Hc Hp. unfold fire. rewrite Hx, Hc.
  destruct (h_callback x) as [f|v]; [|done]. simpl in Hp.
  destruct (Hp actuals) as [Hcs [v Hv]]. exists v.
  unfold bind at 1. destruct (h_once x); simpl.
  - unfold TriggerHandler.cancel, bind at 1, deref_handler. rewrite Hx.
    unfold bind, update, queuePurge, update. simpl.
    by rewrite Hcs, Hv.
  - unfold bind, update. simpl. by rewrite Hcs, Hv.
Qed.

Lemma fire_ext act act' s h :
  (∀ x, hstore s !! h = Some x → act x = act' x) →
  fire act s h = fire act' s h.
Proof.
  intros H. unfold fire. destruct (hstore s !! h) as [x|]; [|done].
  by rewrite (H x).
Qed.

Lemma execute_plain h x a s :
  hstore s !! h = Some x → h_cancelled x = false → plain (h_callback x) →
  ∃ v, TriggerHandler.execute h a s
       = Ok (fire (fun x => h_args x ++ a) s h) v.
Proof.
  intros Hx Hc Hp. unfold TriggerHandler.execute.
  rewrite (bind_Ok _ _ s s x) by (unfold deref_handler; by rewrite Hx).
  destruct (invoke_plain h x (h_args x ++ a) s Hx Hc Hp) as [v Hv].
  exists v. rewrite Hv. f_equal. apply fire_ext. intros x' Hx'. congruence.
Qed.

Lemma modify_plain h x v a s :
  hstore s !! h = Some x → h_cancelled x = false → plain (h_callback x) →
  ∃ r, TriggerHandler.modify h v a s
       = Ok (fire (fun x => v :: h_args x ++ a) s h) r.
Proof.
  intros Hx Hc Hp. unfold TriggerHandler.modify.
  rewrite (bind_Ok _ _ s s x) by (unfold deref_handler; by rewrite Hx).
  destruct (invoke_plain h x (v :: h_args x ++ a) s Hx Hc Hp) as [r Hr].
  exists r. rewrite Hr. f_equal. apply fire_ext. intros x' Hx'. congruence.
Qed.

(** [fire] keeps every handler, its callback and, for the others, the
    whole object. *)
Lemma fire_lookup act s h h' x :
  hstore s !! h' = Some x →
  ∃ x', hstore (fire act s h) !! h' = Some x' ∧
        h_callback x' = h_callback x ∧ (h' ≠ h → x' = x).
Proof.
  intros Hx. unfold fire. destruct (hstore s !! h) as [y|] eqn:Hy; [|eauto].
  destruct (h_cancelled y); [eauto|].
  destruct (h_once y); simpl; [|eauto].
  destruct (decide (h = h')) as [->|Hne].
  - rewrite list_lookup_alter_eq, Hx. simpl. eexists. split; [done|].
    split; [done|]. by intros [].
  - rewrite list_lookup_alter_ne by done. eauto.
Qed.

Lemma fire_isCancelled act s h h' :
  h' ≠ h → isCancelled (fire act s h) h' = isCancelled s h'.
Proof.
  intros Hne. unfold isCancelled.
  destruct (hstore s !! h') as [x|] eqn:Hx.
  - destruct (fire_lookup act s h h' x Hx) as (x' & -> & _ & He).
    by rewrite He.
  - unfold fire. destruct (hstore s !! h) as [y|] eqn:Hy; [|by rewrite Hx].
    destruct (h_cancelled y); [by rewrite Hx|].
    destruct (h_once y); simpl; [|by rewrite Hx].
    by rewrite list_lookup_alter_ne, Hx.
Qed.

Lemma fire_plain act s h : plain_callbacks s → plain_callbacks (fire act s h).
Proof.
  intros Hp h' x' Hx'.
  destruct (hstore s !! h') as [x|] eqn:Hx.
  - destruct (fire_lookup act s h h' x Hx) as (x'' & Hx'' & Hc & _).
    assert (x'' = x') as -> by congruence. rewrite Hc. by eapply Hp.
  - exfalso. apply lookup_ge_None in Hx.
    assert (length (hstore (fire act s h)) = length (hstore s)) as Hlen.
    { unfold fire. destruct (hstore s !! h) as [y|]; [|done].
      destruct (h_cancelled y); [done|]. destruct (h_once y); simpl; [|done].
      by rewrite length_alter. }
    apply lookup_lt_Some in Hx'. lia.
Qed.

Lemma fire_valid act s h h' :
  is_Some (hstore s !! h') → is_Some (hstore (fire act s h) !! h').
Proof.
  intros [x Hx]. destruct (fire_lookup act s h h' x Hx) as (x' & Hx' & _).
  eauto.
Qed.

Lemma filter_ext_in {A} (P1 P2 : A → Prop)
  `{!∀ x, Decision (P1 x), !∀ x, Decision (P2 x)} (l : list A) :
  (∀ x, x ∈ l → P1 x ↔ P2 x) → filter P1 l = filter P2 l.
Proof.
  induction l as [|a l IH]; intros Hext; [done|].
  rewrite !filter_cons, IH by (intros x Hx; apply Hext; by right).
  destruct (Hext a) as [H1 H2]; [by left|].
  repeat case_decide; tauto.
Qed.

(** What one traversal logs: the handlers of the sequence that were not
    cancelled when it began, in sequence order. *)
Lemma foldl_fire_trace act ids s :
  NoDup ids → (∀ h, h ∈ ids → is_Some (hstore s !! h)) →
  ∃ t, trace (foldl (fire act) s ids) = trace s ++ t ∧
       t.*1 = filter (active s) ids.
Proof.
  revert s. induction ids as [|h ids IH]; intros s Hnd Hv; simpl.
  - exists []. by rewrite app_nil_r.
  - apply NoDup_cons in Hnd as [Hh Hnd].
    destruct (IH (fire act s h) Hnd) as (t & Ht & Hf).
    { intros h' Hh'. apply fire_valid, Hv. by right. }
    assert (filter (active (fire act s h)) ids = filter (active s) ids)
      as Hsame.
    { apply filter_ext_in. intros h' Hh'.
      rewrite fire_isCancelled; [done|]. by intros ->. }
    rewrite Hsame in Hf. rewrite Ht. rewrite filter_cons.
    destruct (Hv h) as [x Hx]; [by left|].
    unfold fire, isCancelled. rewrite Hx.
    destruct (h_cancelled x); simpl.
    + exists t. split; [done|]. try case_decide; done.
    + exists ((h, act x) :: t). rewrite <- app_assoc.
      split; [by destruct (h_once x)|].
      try case_decide; try done. simpl. f_equal. exact Hf.
Qed.

Lemma execute_body_plain a h s :
  plain_callbacks s → is_Some (hstore s !! h) →
  (s <- get ;;
   if negb (isCancelled s h)
   then _ <- TriggerHandler.execute h a ;; ret tt
   else ret tt) s
  = Ok (fire (fun x => h_args x ++ a) s h) tt.
Proof.
  intros Hp [x Hx]. unfold bind at 1, get.
  destruct (isCancelled s h) eqn:Hc; unfold isCancelled in Hc;
    rewrite Hx in Hc; simpl.
  - unfold fire. by rewrite Hx, Hc.
  - destruct (execute_plain h x a s Hx Hc (Hp h x Hx)) as [v Hv].
    by rewrite (bind_Ok _ _ _ _ _ Hv).
Qed.

Lemma poll_body_plain a h r s :
  plain_callbacks s → is_Some (hstore s !! h) →
  ∃ r', (s <- get ;;
         if negb (isCancelled s h)
         then v <- TriggerHandler.execute h a ;; ret (r ++ [v])
         else ret r) s
        = Ok (fire (fun x => h_args x ++ a) s h) r'.
Proof.
  intros Hp [x Hx]. unfold bind at 1, get.
  destruct (isCancelled s h) eqn:Hc; unfold isCancelled in Hc;
    rewrite Hx in Hc; simpl.
  - exists r. unfold fire. by rewrite Hx, Hc.
  - destruct (execute_plain h x a s Hx Hc (Hp h x Hx)) as [v Hv].
    exists (r ++ [v]). by rewrite (bind_Ok _ _ _ _ _ Hv).
Qed.

Lemma modify_body_plain v a h r s :
  plain_callbacks s → is_Some (hstore s !! h) →
  ∃ r', (s <- get ;;
         if negb (isCancelled s h)
         then TriggerHandler.modify h v a
         else ret r) s
        = Ok (fire (fun x => v :: h_args x ++ a) s h) r'.
Proof.
  intros Hp [x Hx]. unfold bind at 1, get.
  destruct (isCancelled s h) eqn:Hc; unfold isCancelled in Hc;
    rewrite Hx in Hc; simpl.
  - exists r. unfold fire. by rewrite Hx, Hc.
  - apply (modify_plain h x v a s Hx Hc (Hp h x Hx)).
Qed.

Lemma for_of_plain a ids s :
  plain_callbacks s → (∀ h, h ∈ ids → is_Some (hstore s !! h)) →
  for_of ids (fun handler =>
    s <- get ;;
    if negb (isCancelled s handler)
    then _ <- TriggerHandler.execute handler a ;; ret tt
    else ret tt) s
  = Ok (foldl (fire (fun x => h_args x ++ a)) s ids) tt.
Proof.
  revert s. induction ids as [|h ids IH]; intros s Hp Hv; simpl; [done|].
  rewrite (bind_Ok _ _ _ _ _ (execute_body_plain a h s Hp (Hv h ltac:(left)))).
  apply IH; [by apply fire_plain|].
  intros h' Hh'. apply fire_valid, Hv. by right.
Qed.

Lemma for_of_acc_poll_plain a ids r s :
  plain_callbacks s → (∀ h, h ∈ ids → is_Some (hstore s !! h)) →
  ∃ r', for_of_acc ids r (fun result handler =>
          s <- get ;;
          if negb (isCancelled s handler)
          then v <- TriggerHandler.execute handler a ;; ret (result ++ [v])
          else ret result) s
        = Ok (foldl (fire (fun x => h_args x ++ a)) s ids) r'.
Proof.
  revert s r. induction ids as [|h ids IH]; intros s r Hp Hv; simpl;
    [by exists r|].
  destruct (poll_body_plain a h r s Hp (Hv h ltac:(left))) as [r1 Hr1].
  rewrite (bind_Ok _ _ _ _ _ Hr1).
  apply IH; [by apply fire_plain|].
  intros h' Hh'. apply fire_valid, Hv. by right.
Qed.

Lemma for_of_acc_modify_plain v a ids r s :
  plain_callbacks s → (∀ h, h ∈ ids → is_Some (hstore s !! h)) →
  ∃ r', for_of_acc ids r (fun result handler =>
          s <- get ;;
          if negb (isCancelled s handler)
          then TriggerHandler.modify handler v a
          else ret result) s
        = Ok (foldl (fire (fun x => v :: h_args x ++ a)) s ids) r'.
Proof.
  revert s r. induction ids as [|h ids IH]; intros s r Hp Hv; simpl;
    [by exists r|].
  destruct (modify_body_plain v a h r s Hp (Hv h ltac:(left))) as [r1 Hr1].
  rewrite (bind_Ok _ _ _ _ _ Hr1).
  apply IH; [by apply fire_plain|].
  intros h' Hh'. apply fire_valid, Hv. by right.
Qed.

(** ** What a dispatch calls *)

Lemma calls_app s s' t : trace s' = trace s ++ t → calls s s' = t.*1.
Proof. intros H. unfold calls. by rewrite H, drop_app_length. Qed.

Lemma foldl_fire_lstore act ids s l :
  is_Some (lstore s !! l) → is_Some (lstore (foldl (fire act) s ids) !! l).
Proof.
  revert s. induction ids as [|h ids IH]; intros s Hl; simpl; [done|].
  apply IH. unfold fire. destruct (hstore s !! h) as [x|]; [|done].
  destruct (h_cancelled x); [done|]. destruct (h_once x); simpl; [|done].
  apply lookup_lt_is_Some. rewrite length_alter. by apply lookup_lt_is_Some.
Qed.

(** The list a traversal starts on is well formed. *)
Lemma wf_sorted_list l L s :
  wf s → lstore s !! l = Some L → wf (put_list l (sorted_list s L) s).
Proof.
  intros Hwf HL. pose proof (wf_updatePriorities l s Hwf) as H.
  by rewrite (updatePriorities_spec l s L HL) in H.
Qed.

Lemma traversal_trace act l L s :
  wf s → lstore s !! l = Some L →
  ∃ t, trace (foldl (fire act) (put_list l (sorted_list s L) s)
                 (l_handlers (sorted_list s L)))
       = trace s ++ t ∧
       t.*1 = filter (active s) (l_handlers (sorted_list s L)).
Proof.
  intros Hwf HL. pose proof (wf_sorted_list l L s Hwf HL) as Hwf1.
  assert (lstore (put_list l (sorted_list s L) s) !! l
          = Some (sorted_list s L)) as HL1 by (apply lookup_put_list; eauto).
  apply (foldl_fire_trace act _ (put_list l (sorted_list s L) s)).
  - by eapply wf_nodup.
  - intros h Hh. destruct (wf_member _ Hwf1 l _ h HL1 Hh) as (x & Hx & _).
    eauto.
Qed.

Lemma traversal_valid l L s h :
  wf s → lstore s !! l = Some L → h ∈ l_handlers (sorted_list s L) →
  is_Some (hstore s !! h).
Proof.
  intros Hwf HL Hh%sorted_list_handlers.
  destruct (wf_member _ Hwf l _ h HL Hh) as (x & Hx & _). eauto.
Qed.

Lemma list_execute_calls l a s L :
  wf s → plain_callbacks s → lstore s !! l = Some L →
  ∃ s', TriggerHandlerList.execute l a s = Ok s' tt ∧
        calls s s' = filter (active s) (l_handlers (sorted_list s L)).
Proof.
  intros Hwf Hp HL. rewrite (execute_unfold l a s L HL).
  rewrite for_of_plain;
    [|done|intros h Hh; by apply (traversal_valid l L s h)].
  eexists. split; [done|].
  destruct (traversal_trace (fun x => h_args x ++ a) l L s Hwf HL)
    as (t & Ht & Hf).
  by rewrite (calls_app _ _ _ Ht).
Qed.

Lemma list_poll_calls l a s L :
  wf s → plain_callbacks s → lstore s !! l = Some L →
  ∃ s' r, TriggerHandlerList.poll l a s = Ok s' r ∧
          calls s s' = filter (active s) (l_handlers (sorted_list s L)).
Proof.
  intros Hwf Hp HL. rewrite (poll_unfold l a s L HL).
  destruct (for_of_acc_poll_plain a (l_handlers (sorted_list s L)) []
              (put_list l (sorted_list s L) s)) as [r Hr];
    [done|intros h Hh; by apply (traversal_valid l L s h)|].
  rewrite (bind_Ok _ _ _ _ _ Hr).
  destruct (foldl_fire_lstore (fun x => h_args x ++ a)
              (l_handlers (sorted_list s L))
              (put_list l (sorted_list s L) s) l) as [L2 HL2].
  { rewrite lookup_put_list; eauto. }
  rewrite (bind_Ok _ _ _ _ _ (purge_spec l _ L2 HL2)).
  eexists _, r. split; [done|].
  destruct (traversal_trace (fun x => h_args x ++ a) l L s Hwf HL)
    as (t & Ht & Hf).
  by rewrite (calls_app _ _ t).
Qed.

Lemma list_modify_calls l v a s L :
  wf s → plain_callbacks s → lstore s !! l = Some L →
  ∃ s' r, TriggerHandlerList.modify l v a s = Ok s' r ∧
          calls s s' = filter (active s) (l_handlers (sorted_list s L)).
Proof.
  intros Hwf Hp HL. rewrite (modify_unfold l v a s L HL).
  destruct (for_of_acc_modify_plain v a (l_handlers (sorted_list s L)) v
              (put_list l (sorted_list s L) s)) as [r Hr];
    [done|intros h Hh; by apply (traversal_valid l L s h)|].
  rewrite Hr. eexists _, r. split; [done|].
  destruct (traversal_trace (fun x => v :: h_args x ++ a) l L s Hwf HL)
    as (t & Ht & Hf).
  by rewrite (calls_app _ _ t).
Qed.

(** With plain callbacks, a dispatch to a list calls the handlers of the
    sequence [#updatePriorities] leaves that are not cancelled, in that
    order. *)
Lemma dispatch_calls m K o l L s :
  wf s → plain_callbacks s → dispatches_to m K o →
  lists_of m s !! K = Some l → lstore s !! l = Some L →
  calls s (step o s) = filter (active s) (l_handlers (sorted_list s L)).
Proof.
  intros Hwf Hp Ho Hk HL.
  destruct m, o; simpl in Ho; try done; subst; simpl in Hk.
  - simpl. unfold Trigger.Trigger. unfold bind at 1.
    rewrite (execute_found _ _ _ _ Hk).
    destruct (list_execute_calls l args s L Hwf Hp HL) as (s' & -> & Hc).
    done.
  - simpl. rewrite (execute_found _ _ _ _ Hk).
    destruct (list_execute_calls l args s L Hwf Hp HL) as (s' & -> & Hc).
    done.
  - simpl. rewrite (poll_found _ _ _ _ Hk).
    destruct (list_poll_calls l args s L Hwf Hp HL) as (s' & r & -> & Hc).
    done.
  - simpl. rewrite (modify_found _ _ _ _ _ Hk). unfold bind at 1.
    destruct (list_modify_calls l input args s L Hwf Hp HL)
      as (s' & r & -> & Hc).
    done.
Qed.

(** The sequence a traversal runs over keeps the handlers that are not
    cancelled, and is ordered by priority. *)
Lemma sorted_list_keeps s L h :
  h ∈ l_handlers L → isCancelled s h = false →
  h ∈ l_handlers (sorted_list s L).
Proof.
  intros Hh Hc.
  assert (h ∈ l_handlers (purged_list s L)) as Hp.
  { unfold purged_list. destruct (l_needsPurge L); simpl; [|done].
    apply list_elem_of_filter. by rewrite Hc. }
  unfold sorted_list. destruct (l_needsPriorityUpdate L); simpl; [|done].
  by rewrite js_sort_perm.
Qed.

Lemma sorted_list_sorted l L s :
  wf s → lstore s !! l = Some L →
  StronglySorted (fun a b => getPriority s a ≤ getPriority s b)
                 (l_handlers (sorted_list s L)).
Proof.
  intros Hwf HL. unfold sorted_list.
  destruct (l_needsPriorityUpdate L) eqn:Hp; simpl.
  - apply (js_sort_sorted (getPriority s)).
  - by eapply wf_sorted.
Qed.

Lemma sorted_list_stable s L h1 h2 :
  getPriority s h1 = getPriority s h2 →
  isCancelled s h1 = false → isCancelled s h2 = false →
  called_before h1 h2 (l_handlers L) →
  called_before h1 h2 (l_handlers (sorted_list s L)).
Proof.
  intros Hp H1 H2 Hb.
  assert (called_before h1 h2 (l_handlers (purged_list s L))) as Hb'.
  { unfold purged_list. destruct (l_needsPurge L); simpl; [|done].
    apply called_before_filter; [by rewrite H1|by rewrite H2|done]. }
  unfold sorted_list. destruct (l_needsPriorityUpdate L); simpl; [|done].
  eapply called_before_sublist;
    [apply (sublist_filter
              (fun y => getPriority s y = getPriority s h1))|].
  rewrite (js_sort_stable (getPriority s)).
  by apply called_before_filter.
Qed.

(** ** Sequences of operations *)




Lemma evolves_advances s s' : evolves s s' → advances s s'.
Proof.
  intros Hev. split.
  - intros h. by apply evolves_isCancelled.
  - destruct Hev as [_ (t & Ht & Hb & _)]. eauto.
Qed.

#[local] Instance advances_refl : Reflexive advances.
Proof. intros s. apply evolves_advances. reflexivity. Qed.

#[local] Instance advances_trans : Transitive advances.
Proof.
  intros s1 s2 s3 [Hk1 (t1 & Ht1 & Hb1)] [Hk2 (t2 & Ht2 & Hb2)]. split.
  - intros h Hh. by apply Hk2, Hk1.
  - exists (t1 ++ t2). split; [by rewrite Ht2, Ht1, app_assoc|].
    rewrite fmap_app. intros h [Hh|Hh]%elem_of_app; [by apply Hb1|].
    specialize (Hb2 h Hh). destruct (isCancelled s1 h) eqn:E; [|done].
    by rewrite (Hk1 h E) in Hb2.
Qed.

Lemma advances_step o s : advances s (step o s).
Proof.
  destruct o; try (apply evolves_advances, evolves_step; by intros).
  simpl. unfold TriggerHandler.setOnce, bind, deref_handler.
  destruct (hstore s !! h) as [x|] eqn:Hx; [|reflexivity]. simpl. split.
  - intros h'. rewrite !isCancelled_true. simpl. intros (x' & Hx' & Hc).
    destruct (decide (h = h')) as [->|Hne].
    + rewrite list_lookup_alter_eq, Hx'. simpl. eauto.
    + rewrite list_lookup_alter_ne by done. eauto.
  - exists []. simpl. rewrite app_nil_r. split; [done|].
    intros h' Hh'. inversion Hh'.
Qed.

Lemma advances_steps os s : advances s (steps os s).
Proof.
  revert s. induction os as [|o os IH]; intros s; [reflexivity|].
  simpl. etrans; [apply advances_step|apply IH].
Qed.

(** A handler that is cancelled is never called again. *)
Lemma cancelled_never_called h os s :
  isCancelled s h = true → h ∉ calls s (steps os s).
Proof.
  intros Hc. destruct (advances_steps os s) as [_ (t & Ht & Hb)].
  rewrite (calls_app _ _ _ Ht). intros Hin.
  specialize (Hb h Hin). congruence.
Qed.

(** ** Cancellation *)

(** C5: once [h.cancel()] has run, no operation calls [h]'s callback
    again: not the three dispatches on any key, with whatever the other
    callbacks do, nor anything else a client can do.  The handler may
    still be in its list's sequence (removal waits for the next purge);
    the traversals step over it. *)
Theorem cancelled_handler_is_never_called h os s :
  is_Some (hstore s !! h) →
  isCancelled (step (OCancel h) s) h = true ∧
  h ∉ calls (step (OCancel h) s) (steps os (step (OCancel h) s)).
Proof.
  intros [x Hx].
  assert (isCancelled (step (OCancel h) s) h = true) as Hc.
  { simpl. unfold TriggerHandler.cancel, bind, deref_handler. rewrite Hx.
    simpl. unfold isCancelled. simpl.
    by rewrite list_lookup_alter_eq, Hx. }
  split; [done|]. by apply cancelled_never_called.
Qed.

(** The theorem on a handler that is cancelled and then polled while it
    is still in the sequence. *)
Lemma cancelled_handler_is_never_called_witness :
  (∃ L, lstore (steps cancelled_scenario init) !! 0%nat = Some L ∧
        0%nat ∈ l_handlers L) ∧
  0%nat ∉ calls (steps cancelled_scenario init)
            (steps [OPoll (VStr "x") []; OExecute (VStr "x") []]
               (steps cancelled_scenario init)).
Proof.
  split.
  - eexists. split; [vm_compute; reflexivity|]. simpl. by left.
  - apply (cancelled_handler_is_never_called 0
             [OPoll (VStr "x") []; OExecute (VStr "x") []]
             (steps [OCreateHandler (VStr "x") (returning (VStr "A")) []]
                init)).
    eexists. vm_compute. reflexivity.
Defined.

(** ** One-shot handlers *)



Lemma returning_plain v : plain (returning v).
Proof. intros a. split; [done|]. by exists v. Qed.

(** ** What a dispatch can call, whatever the callbacks do *)

#[local] Instance silent_refl : Reflexive silent.
Proof. by intros s. Qed.

#[local] Instance silent_trans : Transitive silent.
Proof. unfold silent. intros s1 s2 s3 H12 H23. by rewrite H23. Qed.

Lemma silent_cancel h : sat silent (TriggerHandler.cancel h).
Proof.
  intros s. unfold silent, TriggerHandler.cancel, bind, deref_handler.
  by destruct (hstore s !! h).
Qed.

Lemma silent_purge l : sat silent (TriggerHandlerList.purge l).
Proof.
  intros s. unfold silent. destruct (lstore s !! l) as [L|] eqn:HL.
  - by rewrite (purge_spec l s L HL).
  - unfold TriggerHandlerList.purge, bind, deref_list. by rewrite HL.
Qed.

Lemma calls_within_silent ids s s' : silent s s' → calls_within ids s s'.
Proof.
  intros H. exists []. rewrite app_nil_r. split; [done|apply sublist_nil_l].
Qed.

Lemma calls_within_app ids1 ids2 s1 s2 s3 :
  calls_within ids1 s1 s2 → calls_within ids2 s2 s3 →
  calls_within (ids1 ++ ids2) s1 s3.
Proof.
  intros (t1 & Ht1 & Hs1) (t2 & Ht2 & Hs2). exists (t1 ++ t2).
  split; [by rewrite Ht2, Ht1, app_assoc|].
  rewrite fmap_app. by apply sublist_app.
Qed.

Lemma call_calls_within h c actuals s :
  calls_within [h] s (state_of (TriggerHandler.call h c actuals s)).
Proof.
  destruct c as [f|v]; simpl; [|by apply calls_within_silent].
  unfold bind at 1, update.
  assert (sat silent (for_of (cancels (f actuals)) TriggerHandler.cancel ;;
                      match completion (f actuals) with
                      | Return v => ret v
                      | Raise v => throw (Thrown v)
                      end)) as Hrest.
  { apply (sat_bind silent).
    - apply sat_for_of; [typeclasses eauto..|]. apply silent_cancel.
    - intros _. destruct (completion _); [apply sat_ret|apply sat_throw];
        typeclasses eauto. }
  exists [(h, actuals)]. split; [|done]. apply Hrest.
Qed.

Lemma invoke_calls_within h x actuals s :
  calls_within [h] s
    (state_of ((when (h_once x) (TriggerHandler.cancel h) ;;
                TriggerHandler.call h (h_callback x) actuals) s)).
Proof.
  unfold bind at 1.
  assert (silent s (state_of (when (h_once x) (TriggerHandler.cancel h) s)))
    as Hs.
  { destruct (h_once x); simpl; [apply silent_cancel|done]. }
  destruct (when _ _ s) as [s1 []|s1 e]; simpl in Hs.
  - destruct (call_calls_within h (h_callback x) actuals s1) as (t & Ht & Hsub).
    exists t. split; [by rewrite Ht, Hs|done].
  - by apply calls_within_silent.
Qed.

Lemma execute_calls_within h a s :
  calls_within [h] s (state_of (TriggerHandler.execute h a s)).
Proof.
  unfold TriggerHandler.execute, bind at 1, deref_handler.
  destruct (hstore s !! h) as [x|]; [|by apply calls_within_silent].
  apply invoke_calls_within.
Qed.

Lemma modify_calls_within h v a s :
  calls_within [h] s (state_of (TriggerHandler.modify h v a s)).
Proof.
  unfold TriggerHandler.modify, bind at 1, deref_handler.
  destruct (hstore s !! h) as [x|]; [|by apply calls_within_silent].
  apply invoke_calls_within.
Qed.

Lemma for_of_calls_within ids (body : HandlerRef → M unit) s :
  (∀ h s, calls_within [h] s (state_of (body h s))) →
  calls_within ids s (state_of (for_of ids body s)).
Proof.
  intros Hb. revert s. induction ids as [|h ids IH]; intros s; simpl.
  - by apply calls_within_silent.
  - unfold bind. pose proof (Hb h s) as Hh.
    destruct (body h s) as [s1 []|s1 e]; simpl in Hh.
    + apply (calls_within_app [h] ids s s1); [done|apply IH].
    + destruct Hh as (t & Ht & Hsub). exists t. split; [done|].
      etrans; [exact Hsub|]. apply sublist_skip, sublist_nil_l.
Qed.

Lemma for_of_acc_calls_within {R} ids (r : R) (body : R → HandlerRef → M R) s :
  (∀ r h s, calls_within [h] s (state_of (body r h s))) →
  calls_within ids s (state_of (for_of_acc ids r body s)).
Proof.
  intros Hb. revert s r. induction ids as [|h ids IH]; intros s r; simpl.
  - by apply calls_within_silent.
  - unfold bind. pose proof (Hb r h s) as Hh.
    destruct (body r h s) as [s1 r1|s1 e]; simpl in Hh.
    + apply (calls_within_app [h] ids s s1); [done|apply IH].
    + destruct Hh as (t & Ht & Hsub). exists t. split; [done|].
      etrans; [exact Hsub|]. apply sublist_skip, sublist_nil_l.
Qed.

Lemma state_of_bind_ret {A B} (m : M A) (f : A → B) s :
  state_of ((x <- m ;; ret (f x)) s) = state_of (m s).
Proof. unfold bind. by destruct (m s). Qed.

Lemma list_execute_within l a s L :
  lstore s !! l = Some L →
  calls_within (l_handlers (sorted_list s L)) s
    (state_of (TriggerHandlerList.execute l a s)).
Proof.
  intros HL. rewrite (execute_unfold l a s L HL).
  apply (for_of_calls_within _ _ (put_list l (sorted_list s L) s)).
  intros h s0. unfold bind at 1, get.
  destruct (negb (isCancelled s0 h)); [|by apply calls_within_silent].
  rewrite (state_of_bind_ret _ (fun _ => tt)). apply execute_calls_within.
Qed.

Lemma list_poll_within l a s L :
  lstore s !! l = Some L →
  calls_within (l_handlers (sorted_list s L)) s
    (state_of (TriggerHandlerList.poll l a s)).
Proof.
  intros HL. rewrite (poll_unfold l a s L HL). unfold bind at 1.
  match goal with |- context [for_of_acc ?ids ?r ?body ?s1] =>
    assert (calls_within ids s (state_of (for_of_acc ids r body s1))) as Hloop
  end.
  { apply (for_of_acc_calls_within _ _ _ (put_list l (sorted_list s L) s)).
    intros r h s0. unfold bind at 1, get.
    destruct (negb (isCancelled s0 h)); [|by apply calls_within_silent].
    rewrite (state_of_bind_ret _ (fun v => r ++ [v])).
    apply execute_calls_within. }
  destruct (for_of_acc _ _ _ _) as [s2 r2|s2 e]; simpl in Hloop; [|done].
  rewrite (state_of_bind_ret _ (fun _ => r2)).
  destruct Hloop as (t & Ht & Hsub). exists t. split; [|done].
  by rewrite (silent_purge l s2).
Qed.

Lemma list_modify_within l v a s L :
  lstore s !! l = Some L →
  calls_within (l_handlers (sorted_list s L)) s
    (state_of (TriggerHandlerList.modify l v a s)).
Proof.
  intros HL. rewrite (modify_unfold l v a s L HL).
  apply (for_of_acc_calls_within _ _ _ (put_list l (sorted_list s L) s)).
  intros r h s0. unfold bind at 1, get.
  destruct (negb (isCancelled s0 h)); [|by apply calls_within_silent].
  apply modify_calls_within.
Qed.

(** Whatever the callbacks do, a dispatch to a list calls handlers of the
    sequence [#updatePriorities] leaves, each at most once, in that
    order. *)
Lemma dispatch_calls_within m K o l L s :
  dispatches_to m K o →
  lists_of m s !! K = Some l → lstore s !! l = Some L →
  calls s (step o s) `sublist_of` l_handlers (sorted_list s L).
Proof.
  intros Ho Hk HL.
  assert (calls_within (l_handlers (sorted_list s L)) s (step o s)) as Hw.
  { destruct m, o; simpl in Ho; try done; subst; simpl in Hk; simpl.
    - unfold Trigger.Trigger.
      rewrite (state_of_bind_ret _ (fun _ => tt)).
      rewrite (execute_found _ _ _ _ Hk). by apply list_execute_within.
    - rewrite (execute_found _ _ _ _ Hk). by apply list_execute_within.
    - rewrite (poll_found _ _ _ _ Hk). by apply list_poll_within.
    - rewrite (modify_found _ _ _ _ _ Hk).
      rewrite (state_of_bind_ret _ (fun r => if nullish r then input else r)).
      by apply list_modify_within. }
  destruct Hw as (t & Ht & Hsub). by rewrite (calls_app _ _ _ Ht).
Qed.

Lemma called_before_lookup (h1 h2 : HandlerRef) l :
  called_before h1 h2 l →
  ∃ i j, (i < j)%nat ∧ l !! i = Some h1 ∧ l !! j = Some h2.
Proof.
  intros (a & b & c & ->).
  exists (length a), (length (a ++ h1 :: b)). split; [|split].
  - rewrite length_app. simpl. lia.
  - by apply list_lookup_middle.
  - replace (a ++ h1 :: b ++ h2 :: c) with ((a ++ h1 :: b) ++ h2 :: c)
      by (by rewrite <- app_assoc).
    by apply list_lookup_middle.
Qed.

Lemma called_before_asym (h1 h2 : HandlerRef) l :
  NoDup l → called_before h1 h2 l → ¬ called_before h2 h1 l ∧ h1 ≠ h2.
Proof.
  intros Hnd (i & j & Hij & Hi & Hj)%called_before_lookup. split.
  - intros (i' & j' & Hij' & Hi' & Hj')%called_before_lookup.
    pose proof (NoDup_lookup l i j' h1 Hnd Hi Hj').
    pose proof (NoDup_lookup l j i' h2 Hnd Hj Hi'). lia.
  - intros ->. pose proof (NoDup_lookup l i j h2 Hnd Hi Hj). lia.
Qed.

(** The order of a sequence without repetition is the order of each of
    its subsequences. *)
Lemma called_before_restrict (h1 h2 : HandlerRef) c l :
  NoDup l → c `sublist_of` l → called_before h1 h2 l →
  h1 ∈ c → h2 ∈ c → called_before h1 h2 c.
Proof.
  intros Hnd Hsub Hb H1 H2.
  destruct (called_before_asym h1 h2 l Hnd Hb) as [Hasym Hne].
  apply list_elem_of_split in H1 as (a & r & ->).
  apply elem_of_app in H2 as [H2|H2].
  - exfalso. apply Hasym. apply (called_before_sublist (a ++ h1 :: r));
      [done|].
    apply list_elem_of_split in H2 as (a1 & a2 & ->).
    exists a1, a2, r. by rewrite <- app_assoc.
  - apply elem_of_cons in H2 as [->|H2]; [done|].
    apply list_elem_of_split in H2 as (b & c' & ->). by exists a, b, c'.
Qed.

(** ** Dispatch order *)

(** C3, as the code has it.  In a dispatch on key [K] (by [Trigger],
    [execute] or [poll]), two handlers that are both called are called in
    ascending priority, whatever the registration order; for equal
    priority, in the order they hold in the list's sequence when the
    dispatch starts (the sort is stable).  Every handler of the list that
    is not cancelled is called, when the callbacks return normally and
    cancel nothing.  In the scenario of priorities 5, 1, 5 returning "A",
    "B", "C", [poll("x")] returns ["B", "A", "C"]. *)
Theorem dispatch_order :
  (∀ K o l L h1 h2 s,
     reachable s → dispatches_to Handlers K o →
     handlers s !! K = Some l → lstore s !! l = Some L →
     getPriority s h1 < getPriority s h2 ∨
     getPriority s h1 = getPriority s h2 ∧
     called_before h1 h2 (l_handlers L) →
     h1 ∈ calls s (step o s) → h2 ∈ calls s (step o s) →
     called_before h1 h2 (calls s (step o s))) ∧
  (∀ K o l L h s,
     reachable s → plain_callbacks s → dispatches_to Handlers K o →
     handlers s !! K = Some l → lstore s !! l = Some L →
     h ∈ l_handlers L → isCancelled s h = false →
     h ∈ calls s (step o s)) ∧
  (∃ s', Trigger.poll (VStr "x") [] (steps order_scenario init)
         = Ok s' [VStr "B"; VStr "A"; VStr "C"]).
Proof.
  split; [|split].
  - intros K o l L h1 h2 s Hwf%reachable_wf Ho Hk HL Hord H1 H2.
    pose proof (dispatch_calls_within Handlers K o l L s Ho Hk HL) as Hsub.
    assert (∀ h, h ∈ calls s (step o s) → isCancelled s h = false) as Hact.
    { destruct (advances_step o s) as [_ (t & Ht & Hb)].
      by rewrite (calls_app _ _ _ Ht). }
    apply (called_before_restrict _ _ _ (l_handlers (sorted_list s L)));
      try done.
    + eapply wf_nodup; [by apply (wf_sorted_list l L s)|].
      apply lookup_put_list. eauto.
    + destruct Hord as [Hlt|[Heq Hb]].
      * apply (called_before_sorted (getPriority s)); [|..|done].
        -- by eapply sorted_list_sorted.
        -- by eapply elem_of_sublist.
        -- by eapply elem_of_sublist.
      * apply sorted_list_stable; auto.
  - intros K o l L h s Hwf%reachable_wf Hp Ho Hk HL Hh Hc.
    rewrite (dispatch_calls Handlers K o l L s Hwf Hp Ho Hk HL).
    apply list_elem_of_filter. split; [by rewrite Hc|].
    by apply sorted_list_keeps.
  - eexists. vm_compute. reflexivity.
Qed.

Lemma plain_callbacks_returning s :
  Forall (fun x => ∃ v, h_callback x = returning v) (hstore s) →
  plain_callbacks s.
Proof.
  rewrite Forall_forall. intros H h x Hx.
  destruct (H x) as [v ->]; [by eapply list_elem_of_lookup_2|].
  apply returning_plain.
Qed.

(** The theorem on [order_scenario]: both handlers are called, and the
    one of priority 1, registered second, before the one of priority 5
    registered first. *)
Lemma dispatch_order_witness :
  called_before 1 0
    (calls (steps order_scenario init)
       (step (OExecute (VStr "x") []) (steps order_scenario init))).
Proof.
  assert (reachable (steps order_scenario init)) as Hr
    by (by exists order_scenario).
  assert (plain_callbacks (steps order_scenario init)) as Hp.
  { apply plain_callbacks_returning. vm_compute. repeat constructor; eauto. }
  assert (handlers (steps order_scenario init) !! VStr "x" = Some 0%nat)
    as Hk by (vm_compute; reflexivity).
  assert (lstore (steps order_scenario init) !! 0%nat
          = Some (mkList [0; 1; 2]%nat true true false (VStr "x"))) as HL
    by (vm_compute; reflexivity).
  destruct dispatch_order as (Horder & Hall & _).
  apply (Horder (VStr "x") (OExecute (VStr "x") []) 0%nat _ 1%nat 0%nat
           (steps order_scenario init) Hr eq_refl Hk HL).
  - left. vm_compute. reflexivity.
  - apply (Hall (VStr "x") (OExecute (VStr "x") []) 0%nat _ 1%nat _
             Hr Hp eq_refl Hk HL).
    + simpl. right. by left.
    + vm_compute; reflexivity.
  - apply (Hall (VStr "x") (OExecute (VStr "x") []) 0%nat _ 0%nat _
             Hr Hp eq_refl Hk HL).
    + simpl. by left.
    + vm_compute; reflexivity.
Defined.

(** C3 as stated fails for ties.  In [tie_scenario] handler 0 is
    registered before handler 1 and both have priority 0, yet the dispatch
    calls 1 before 0: an earlier sort, made while 0 had priority 5, moved
    it behind 1, and the stable sort keeps that order. *)
Lemma ties_not_in_registration_order :
  reachable (steps tie_scenario init) ∧
  getPriority (steps tie_scenario init) 0 = 0 ∧
  getPriority (steps tie_scenario init) 1 = 0 ∧
  isCancelled (steps tie_scenario init) 0 = false ∧
  isCancelled (steps tie_scenario init) 1 = false ∧
  calls (steps tie_scenario init)
    (step (OExecute (VStr "x") []) (steps tie_scenario init))
  = [1; 0]%nat ∧
  ¬ called_before 0 1
      (calls (steps tie_scenario init)
         (step (OExecute (VStr "x") []) (steps tie_scenario init))).
Proof.
  split; [by exists tie_scenario|].
  repeat (split; [vm_compute; reflexivity|]).
  assert (calls (steps tie_scenario init)
            (step (OExecute (VStr "x") []) (steps tie_scenario init))
          = [1; 0]%nat) as -> by (vm_compute; reflexivity).
  intros (a & b & c & H).
  destruct a as [|? [|? [|? a]]]; simplify_eq/=.
  destruct b as [|? b]; simplify_eq/=.
Qed.

(** ** Maintenance around poll *)



(** C8 on the state after a one-shot handler fired in a poll: the purge
    flag of the list is down, and the handlers left are not cancelled. *)
Lemma needsPurge_false_no_cancelled_witness :
  ∃ x, hstore (steps (once_scenario ++ [OPoll (VStr "x") []]) init) !! 2%nat
       = Some x ∧ h_cancelled x = false.
Proof.
  eapply (needsPurge_false_no_cancelled
            (steps (once_scenario ++ [OPoll (VStr "x") []]) init) 0).
  - by eexists.
  - vm_compute; reflexivity.
  - reflexivity.
  - simpl. right. by left.
Defined.

(** * Further properties of the engine *)

(** ** Rules for the dispatching methods *)

Section dispatch_rules.
Context (R : State → State → Prop) `{!Reflexive R} `{!Transitive R}.
Context (a : list Value) (v : Value).
Hypothesis R_purge : ∀ l, sat R (TriggerHandlerList.purge l).
Hypothesis R_updatePriorities :
  ∀ l, sat R (TriggerHandlerList.updatePriorities l).
Hypothesis R_execute : ∀ h s,
  isCancelled s h = false → R s (state_of (TriggerHandler.execute h a s)).
Hypothesis R_modify : ∀ h s,
  isCancelled s h = false → R s (state_of (TriggerHandler.modify h v a s)).

Lemma rule_list_execute l : sat R (TriggerHandlerList.execute l a).
Proof.
  apply sat_deref_list; [typeclasses eauto|]. intros s L HL.
  apply (sat_bind R);
    [apply sat_when; [typeclasses eauto..|apply R_updatePriorities]|].
  intros _. apply sat_deref_list; [typeclasses eauto|]. intros s1 L1 HL1.
  apply (sat_for_of R). intros h. apply (sat_get_bind R).
  intros s2. destruct (isCancelled s2 h) eqn:Hc; simpl; [reflexivity|].
  rewrite (state_of_bind_ret _ (fun _ => tt)). by apply R_execute.
Qed.

Lemma rule_list_poll l : sat R (TriggerHandlerList.poll l a).
Proof.
  apply (sat_bind R); [apply R_updatePriorities|intros _].
  apply sat_deref_list; [typeclasses eauto|]. intros s1 L1 HL1.
  apply (sat_bind R).
  - apply (sat_for_of_acc R). intros r h. apply (sat_get_bind R).
    intros s2. destruct (isCancelled s2 h) eqn:Hc; simpl; [reflexivity|].
    rewrite (state_of_bind_ret _ (fun x => r ++ [x])). by apply R_execute.
  - intros r. apply (sat_bind R); [apply R_purge|intros _].
    apply sat_ret; typeclasses eauto.
Qed.

Lemma rule_list_modify l : sat R (TriggerHandlerList.modify l v a).
Proof.
  apply sat_deref_list; [typeclasses eauto|]. intros s L HL.
  apply (sat_bind R);
    [apply sat_when; [typeclasses eauto..|apply R_updatePriorities]|].
  intros _. apply sat_deref_list; [typeclasses eauto|]. intros s1 L1 HL1.
  apply (sat_for_of_acc R). intros r h. apply (sat_get_bind R).
  intros s2. destruct (isCancelled s2 h) eqn:Hc; simpl; [reflexivity|].
  by apply R_modify.
Qed.

Lemma rule_lookup m k : sat R (getHandlerList m k false).
Proof.
  apply (sat_get_bind R). intros s.
  destruct (lists_of m s !! k); reflexivity.
Qed.

Lemma rule_execute k : sat R (Trigger.execute k a).
Proof.
  apply (sat_bind R); [apply rule_lookup|].
  intros [l|]; [apply rule_list_execute|apply sat_ret; typeclasses eauto].
Qed.

Lemma rule_Trigger k : sat R (Trigger.Trigger k a).
Proof.
  apply (sat_bind R); [apply rule_execute|intros _].
  apply sat_ret; typeclasses eauto.
Qed.

Lemma rule_poll k : sat R (Trigger.poll k a).
Proof.
  apply (sat_bind R); [apply rule_lookup|].
  intros [l|]; [apply rule_list_poll|apply sat_ret; typeclasses eauto].
Qed.

Lemma rule_modify k : sat R (Trigger.modify v k a).
Proof.
  apply (sat_bind R); [apply rule_lookup|].
  intros o. apply (sat_bind R).
  - destruct o; [apply rule_list_modify|apply sat_ret; typeclasses eauto].
  - intros r. apply sat_ret; typeclasses eauto.
Qed.

End dispatch_rules.

(** ** Rules for every operation *)

Lemma clear_never_returns l s :
  ∃ s' e, TriggerHandlerList.clear l s = Throw s' e.
Proof.
  unfold TriggerHandlerList.clear, bind, deref_list.
  destruct (lstore s !! l) as [L|]; [|by eauto].
  destruct (for_of _ _ s); simpl; eauto.
Qed.

(** [clearTrigger] ends where its first [clear] ends. *)
Lemma clearTrigger_state k s :
  step (OClearTrigger k) s
  = match handlers s !! k with
    | Some l => state_of (TriggerHandlerList.clear l s)
    | None => s
    end.
Proof.
  simpl. unfold Trigger.clearTrigger, getHandlerList, bind at 1 2 3, get.
  cbn [lists_of]. destruct (handlers s !! k) as [l|]; simpl; [|done].
  unfold bind at 1. by destruct (clear_never_returns l s) as (s' & e & ->).
Qed.

Section step_rules.
Context (R : State → State → Prop) `{!Reflexive R} `{!Transitive R}.
Hypothesis R_cancel : ∀ h, sat R (TriggerHandler.cancel h).
Hypothesis R_setPriority : ∀ h p, sat R (TriggerHandler.setPriority h p).
Hypothesis R_setOnce : ∀ h b, sat R (TriggerHandler.setOnce h b).
Hypothesis R_purge : ∀ l, sat R (TriggerHandlerList.purge l).
Hypothesis R_updatePriorities :
  ∀ l, sat R (TriggerHandlerList.updatePriorities l).
Hypothesis R_createHandler : ∀ m k c a, sat R (createHandler m k c a).
Hypothesis R_log : ∀ h actuals,
  sat R (update (with_trace (fun t => t ++ [(h, actuals)]))).

Lemma rule_call h c actuals : sat R (TriggerHandler.call h c actuals).
Proof.
  destruct c as [f|x]; simpl; [|apply sat_throw; typeclasses eauto].
  apply (sat_bind R); [apply R_log|intros _].
  apply (sat_bind R).
  - apply sat_for_of; [typeclasses eauto..|]. apply R_cancel.
  - intros _. destruct (completion _); [apply sat_ret|apply sat_throw];
      typeclasses eauto.
Qed.

Lemma rule_handler_execute h a : sat R (TriggerHandler.execute h a).
Proof.
  apply sat_deref_handler; [typeclasses eauto|]. intros s x Hx.
  apply (sat_bind R); [|intros _; apply rule_call].
  apply sat_when; [typeclasses eauto..|]. apply R_cancel.
Qed.

Lemma rule_handler_modify h v a : sat R (TriggerHandler.modify h v a).
Proof.
  apply sat_deref_handler; [typeclasses eauto|]. intros s x Hx.
  apply (sat_bind R); [|intros _; apply rule_call].
  apply sat_when; [typeclasses eauto..|]. apply R_cancel.
Qed.

Lemma rule_clear l : sat R (TriggerHandlerList.clear l).
Proof.
  apply sat_deref_list; [typeclasses eauto|]. intros s L HL.
  apply (sat_bind R).
  - apply sat_for_of; [typeclasses eauto..|]. apply R_cancel.
  - intros _. apply sat_throw; typeclasses eauto.
Qed.

(** Every operation that does not register. *)
Lemma rule_step_other o s : ¬ registration o → R s (step o s).
Proof.
  intros Ho. destruct o; try (by destruct Ho); try rewrite clearTrigger_state;
    simpl.
  - apply (rule_Trigger R args); [exact R_updatePriorities|].
    intros h s0 _. apply rule_handler_execute.
  - apply (rule_execute R args); [exact R_updatePriorities|].
    intros h s0 _. apply rule_handler_execute.
  - apply (rule_poll R args); [exact R_purge|exact R_updatePriorities|].
    intros h s0 _. apply rule_handler_execute.
  - apply (rule_modify R args input); [exact R_updatePriorities|].
    intros h s0 _. apply rule_handler_modify.
  - destruct (handlers s !! trigger); [apply rule_clear|reflexivity].
  - apply R_cancel.
  - apply R_setPriority.
  - apply R_setOnce.
Qed.

Lemma rule_step o s : R s (step o s).
Proof.
  destruct o; try (apply rule_step_other; by intros []); simpl;
    apply R_createHandler.
Qed.

Lemma rule_steps os s : R s (steps os s).
Proof.
  revert s. induction os as [|o os IH]; intros s; [reflexivity|].
  simpl. etrans; [apply rule_step|apply IH].
Qed.

End step_rules.

(** ** The states the handler methods and registration leave *)

Lemma cancel_state h x L s :
  hstore s !! h = Some x → lstore s !! h_list x = Some L →
  TriggerHandler.cancel h s
  = Ok (put_handler h (set_cancelled true x)
          (put_list (h_list x) (set_needsPurge true L) s)) tt.
Proof.
  intros Hx HL. unfold TriggerHandler.cancel, bind, deref_handler.
  rewrite Hx. unfold update, queuePurge, update, ret. simpl. f_equal.
  unfold put_handler, put_list, with_hstore, with_lstore. simpl.
  by rewrite (alter_insert _ _ _ _ Hx), (alter_insert _ _ _ _ HL).
Qed.

Lemma setPriority_state h p x L s :
  hstore s !! h = Some x → lstore s !! h_list x = Some L →
  TriggerHandler.setPriority h p s
  = Ok (put_handler h (set_priority p x)
          (put_list (h_list x)
             (set_usesPriorities true (set_needsPriorityUpdate true L)) s))
       tt.
Proof.
  intros Hx HL. unfold TriggerHandler.setPriority, bind, deref_handler.
  rewrite Hx. unfold update, queuePriorityUpdate, bind, update. simpl.
  f_equal. unfold put_handler, put_list, with_hstore, with_lstore. simpl.
  by rewrite (alter_insert _ _ _ _ Hx), list_alter_alter_eq,
    (alter_insert _ _ _ _ HL).
Qed.

Lemma setOnce_state h b x s :
  hstore s !! h = Some x →
  TriggerHandler.setOnce h b s = Ok (put_handler h (set_once b x) s) tt.
Proof.
  intros Hx. unfold TriggerHandler.setOnce, bind, deref_handler.
  rewrite Hx. unfold update. simpl. f_equal.
  unfold put_handler, with_hstore. by rewrite (alter_insert _ _ _ _ Hx).
Qed.

Lemma createHandler_found m k c a s l L :
  lists_of m s !! k = Some l → lstore s !! l = Some L →
  createHandler m k c a s
  = Ok (put_list l
          (mkList (l_handlers L ++ [length (hstore s)]) (l_usesPriorities L)
                  (l_needsPriorityUpdate L || l_usesPriorities L)
                  (l_needsPurge L) (l_trigger L))
          (with_hstore (fun hs => hs ++ [TriggerHandler.new l c a]) s))
       (length (hstore s)).
Proof.
  intros Hk HL. unfold createHandler, getHandlerList, bind at 1 2, get.
  rewrite Hk. simpl. by apply addHandler_spec.
Qed.

Lemma createHandler_fresh m k c a s :
  lists_of m s !! k = None →
  createHandler m k c a s
  = Ok (put_list (length (lstore s))
          (mkList [length (hstore s)] false false false k)
          (with_hstore
             (fun hs => hs ++ [TriggerHandler.new (length (lstore s)) c a])
             (with_lists m (insert k (length (lstore s)))
                (with_lstore (fun ls => ls ++ [TriggerHandlerList.new k]) s))))
       (length (hstore s)).
Proof.
  intros Hk. unfold createHandler, getHandlerList, bind at 1 2, get.
  rewrite Hk. simpl. unfold bind, update. simpl.
  match goal with |- context [TriggerHandlerList.addHandler _ _ _ ?s1] =>
    assert (lstore s1 !! length (lstore s)
            = Some (TriggerHandlerList.new k)) as HL
  end.
  { destruct m; simpl; rewrite lookup_app_r by done;
      by rewrite Nat.sub_diag. }
  rewrite (addHandler_spec _ _ _ _ _ HL). by destruct m.
Qed.

(** ** What no operation takes away *)

#[local] Instance stable_refl : Reflexive stable.
Proof. intros s h x Hx. eauto. Qed.

#[local] Instance stable_trans : Transitive stable.
Proof.
  intros s1 s2 s3 H12 H23 h x Hx.
  destruct (H12 h x Hx) as (x2 & Hx2 & Hc & Ha & Hl).
  destruct (H23 h x2 Hx2) as (x3 & Hx3 & Hc3 & Ha3 & Hl3).
  exists x3. repeat split; congruence.
Qed.

#[local] Instance grows_refl : Reflexive grows.
Proof. intros s. split; [reflexivity|auto]. Qed.

#[local] Instance grows_trans : Transitive grows.
Proof.
  intros s1 s2 s3 [H12 M12] [H23 M23]. split; [by etrans|auto].
Qed.

#[local] Instance same_lists_refl : Reflexive same_lists.
Proof. by intros s. Qed.

#[local] Instance same_lists_trans : Transitive same_lists.
Proof.
  intros s1 s2 s3 (?&?&?) (?&?&?). repeat split; congruence.
Qed.

Lemma stable_alter f h s s' :
  hstore s' = alter f h (hstore s) →
  (∀ x, h_callback (f x) = h_callback x ∧ h_args (f x) = h_args x ∧
        h_list (f x) = h_list x) →
  stable s s'.
Proof.
  intros Hs Hf h0 x Hx. rewrite Hs. destruct (decide (h0 = h)) as [->|Hne].
  - exists (f x). by rewrite list_lookup_alter_eq, Hx.
  - exists x. by rewrite list_lookup_alter_ne.
Qed.

Lemma stable_app xs s s' : hstore s' = hstore s ++ xs → stable s s'.
Proof.
  intros Hs h x Hx. exists x. by rewrite Hs, (lookup_app_l_Some _ _ _ _ Hx).
Qed.

Lemma grows_same s s' : stable s s' → same_lists s s' → grows s s'.
Proof.
  intros Hst (Hh & Hm & _). split; [done|].
  intros [] k l; simpl; congruence.
Qed.

#[local] Instance settled_refl : Reflexive settled.
Proof. intros s. split; reflexivity. Qed.

#[local] Instance settled_trans : Transitive settled.
Proof. intros s1 s2 s3 [??] [??]. split; by etrans. Qed.

Lemma settled_cancel h : sat settled (TriggerHandler.cancel h).
Proof.
  intros s. unfold TriggerHandler.cancel, bind, deref_handler.
  destruct (hstore s !! h) as [x|]; simpl; [|reflexivity]. split.
  - by apply (stable_alter (set_cancelled true) h).
  - repeat split; simpl; by rewrite ?length_alter.
Qed.

Lemma settled_setPriority h p : sat settled (TriggerHandler.setPriority h p).
Proof.
  intros s. unfold TriggerHandler.setPriority, bind, deref_handler.
  destruct (hstore s !! h) as [x|]; simpl; [|reflexivity]. split.
  - by apply (stable_alter (set_priority p) h).
  - repeat split; simpl; by rewrite ?length_alter.
Qed.

Lemma settled_setOnce h b : sat settled (TriggerHandler.setOnce h b).
Proof.
  intros s. unfold TriggerHandler.setOnce, bind, deref_handler.
  destruct (hstore s !! h) as [x|]; simpl; [|reflexivity]. split.
  - by apply (stable_alter (set_once b) h).
  - done.
Qed.

Lemma settled_lstore s s' :
  hstore s' = hstore s → handlers s' = handlers s →
  modifiers s' = modifiers s → length (lstore s') = length (lstore s) →
  settled s s'.
Proof.
  intros Hh ???. split; [|done].
  apply (stable_app []). by rewrite app_nil_r.
Qed.

Lemma settled_purge l : sat settled (TriggerHandlerList.purge l).
Proof.
  intros s. unfold TriggerHandlerList.purge, bind, deref_list.
  destruct (lstore s !! l) as [L|]; simpl; [|reflexivity].
  destruct (l_needsPurge L); simpl; [|reflexivity].
  apply settled_lstore; simpl; by rewrite ?length_alter.
Qed.

Lemma settled_updatePriorities l :
  sat settled (TriggerHandlerList.updatePriorities l).
Proof.
  intros s. destruct (lstore s !! l) as [L|] eqn:HL.
  - rewrite (updatePriorities_spec l s L HL). simpl.
    apply settled_lstore; simpl; by rewrite ?length_insert.
  - unfold TriggerHandlerList.updatePriorities, bind, deref_list.
    rewrite HL. reflexivity.
Qed.

Lemma settled_log h actuals :
  sat settled (update (with_trace (fun t => t ++ [(h, actuals)]))).
Proof. intros s. by apply settled_lstore. Qed.

Lemma settled_grows s s' : settled s s' → grows s s'.
Proof. intros [??]. by apply grows_same. Qed.

Lemma settled_queuePriorityUpdate l : sat settled (queuePriorityUpdate l).
Proof.
  intros s. unfold queuePriorityUpdate, bind, update. simpl.
  apply settled_lstore; simpl; by rewrite ?length_alter.
Qed.

Lemma grows_addHandler l c a :
  sat grows (TriggerHandlerList.addHandler l c a).
Proof.
  apply (sat_get_bind grows). intros s.
  apply (sat_bind grows); [|intros _; apply (sat_bind grows)].
  - intros s1. apply grows_same; [|done].
    by apply (stable_app [TriggerHandler.new l c a]).
  - intros s1. apply settled_grows, settled_lstore; simpl;
      by rewrite ?length_alter.
  - intros _. apply sat_deref_list; [typeclasses eauto|]. intros s1 L HL.
    apply (sat_bind grows); [|intros _; apply sat_ret; typeclasses eauto].
    apply sat_when; [typeclasses eauto..|].
    intros s2. apply settled_grows, settled_queuePriorityUpdate.
Qed.

Lemma grows_getHandlerList m k b : sat grows (getHandlerList m k b).
Proof.
  apply (sat_get_bind grows). intros s.
  destruct (lists_of m s !! k) as [l|] eqn:Hk; [reflexivity|].
  destruct b; simpl; [|reflexivity].
  unfold bind, update. simpl. split.
  - apply (stable_app []). destruct m; simpl; by rewrite app_nil_r.
  - intros m' k' l' Hl'. destruct m, m'; simpl in *; try done;
      (destruct (decide (k' = k)) as [->|Hne];
        [congruence|by rewrite lookup_insert_ne]).
Qed.

Lemma grows_createHandler m k c a : sat grows (createHandler m k c a).
Proof.
  apply (sat_bind grows); [apply grows_getHandlerList|].
  intros [l|]; [apply grows_addHandler|apply sat_throw; typeclasses eauto].
Qed.

Lemma grows_steps os s : grows s (steps os s).
Proof.
  apply (rule_steps grows); intros;
    try apply grows_createHandler; intros s0; apply settled_grows;
    [apply settled_cancel|apply settled_setPriority|apply settled_setOnce
    |apply settled_purge|apply settled_updatePriorities|apply settled_log].
Qed.

Lemma settled_step o s : ¬ registration o → settled s (step o s).
Proof.
  apply (rule_step_other settled); intros;
    [apply settled_cancel|apply settled_setPriority|apply settled_setOnce
    |apply settled_purge|apply settled_updatePriorities|apply settled_log].
Qed.

(** X1.  Whatever a client does, a handler keeps the callback, the bound
    arguments and the list it was created with: no operation writes
    [#callback], [#args] or [#list] after the constructor. *)
Theorem handler_data_is_fixed os s h x :
  hstore s !! h = Some x →
  ∃ x', hstore (steps os s) !! h = Some x' ∧
        h_callback x' = h_callback x ∧ h_args x' = h_args x ∧
        h_list x' = h_list x.
Proof. intros Hx. by apply (grows_steps os s). Qed.

(** The theorem on the second handler of [once_scenario], after it has
    been made one-shot, fired and given a priority. *)
Lemma handler_data_is_fixed_witness :
  ∃ x', hstore (steps [OExecute (VStr "x") []; OSetPriority 1 3; OCancel 1]
                  (steps once_scenario init)) !! 1%nat = Some x' ∧
        h_callback x' = returning (VStr "B") ∧ h_args x' = [] ∧
        h_list x' = 0%nat.
Proof.
  apply (handler_data_is_fixed
           [OExecute (VStr "x") []; OSetPriority 1 3; OCancel 1]
           (steps once_scenario init) 1
           (mkHandler true 0 [] (returning (VStr "B")) 0 false)).
  vm_compute; reflexivity.
Defined.

(** X2.  An entry of either map is never removed or replaced, whatever a
    client does: [getHandlerList] writes a key only when it finds none,
    and [clearTrigger] does not get as far as its [delete]. *)
Theorem map_entries_are_permanent os s m k l :
  lists_of m s !! k = Some l → lists_of m (steps os s) !! k = Some l.
Proof. intros Hk. by apply (grows_steps os s). Qed.

(** The theorem on the key of [once_scenario], cleared and registered
    again. *)
Lemma map_entries_are_permanent_witness :
  lists_of Handlers
    (steps [OClearTrigger (VStr "x");
            OCreateHandler (VStr "x") (returning VNull) []]
       (steps once_scenario init)) !! VStr "x" = Some 0%nat.
Proof.
  apply (map_entries_are_permanent
           [OClearTrigger (VStr "x");
            OCreateHandler (VStr "x") (returning VNull) []]
           (steps once_scenario init) Handlers (VStr "x") 0).
  vm_compute; reflexivity.
Defined.

(** X3.  Only registration adds a key or a list: every other operation,
    a dispatch on a key that has no handlers included, leaves both maps
    and the number of lists as they are. *)
Theorem only_registration_adds_lists o s :
  ¬ registration o → same_lists s (step o s).
Proof. intros Ho. by apply settled_step. Qed.

(** The theorem on a poll of a key nobody registered on. *)
Lemma only_registration_adds_lists_witness :
  same_lists (steps once_scenario init)
    (step (OPoll (VStr "y") []) (steps once_scenario init)).
Proof.
  apply (only_registration_adds_lists (OPoll (VStr "y") [])
           (steps once_scenario init)).
  intros H. exact H.
Defined.

(** ** The invariants of registration *)

Lemma put_list_cases l L' s l1 L1 :
  lstore (put_list l L' s) !! l1 = Some L1 →
  l1 = l ∧ L1 = L' ∨ l1 ≠ l ∧ lstore s !! l1 = Some L1.
Proof.
  unfold put_list. simpl. rewrite list_lookup_insert_Some.
  intros [(-> & -> & _)|[? ?]]; [by left|right; by split].
Qed.

Lemma sound_put_list l L L' s :
  sound s → lstore s !! l = Some L →
  (∀ h, h ∈ l_handlers L → isCancelled s h = false → h ∈ l_handlers L') →
  (l_needsPriorityUpdate L' = true → l_usesPriorities L' = true) →
  (l_usesPriorities L' = false →
   l_usesPriorities L = false ∧
   (StronglySorted (fun a b : HandlerRef => (a < b)%nat) (l_handlers L) →
    StronglySorted (fun a b : HandlerRef => (a < b)%nat) (l_handlers L'))) →
  l_trigger L' = l_trigger L →
  sound (put_list l L' s).
Proof.
  intros [Hk Hd Hf Ho Hy] HL Hkeep Hflag Hord Htrig.
  assert (lstore (put_list l L' s) !! l = Some L') as HL'
    by (apply lookup_put_list; eauto).
  split.
  - intros h x Hx Hc. destruct (Hk h x Hx Hc) as (L0 & HL0 & Hin).
    destruct (decide (h_list x = l)) as [El|Hne].
    + exists L'. rewrite El. split; [done|]. apply Hkeep; [congruence|].
      unfold isCancelled. simpl in Hx. by rewrite Hx.
    + exists L0. split; [|done]. unfold put_list. simpl.
      by rewrite list_lookup_insert_ne.
  - exact Hd.
  - intros l1 L1 [[-> ->]|[_ H1]]%put_list_cases; eauto.
  - intros l1 L1 [[-> ->]|[_ H1]]%put_list_cases Hu; [|eauto].
    destruct (Hord Hu) as [Hu0 Hs]. eauto.
  - intros l1 L1 [[-> ->]|[_ H1]]%put_list_cases.
    + rewrite Htrig. by apply (Hy l L).
    + by apply (Hy l1 L1).
Qed.

Lemma sound_put_handler h x x' s :
  sound s → hstore s !! h = Some x → h_list x' = h_list x →
  (h_cancelled x' = false → h_cancelled x = false) →
  sound (put_handler h x' s).
Proof.
  intros [Hk Hd Hf Ho Hy] Hx Hl Hc. split; try done.
  intros h1 x1. unfold put_handler. simpl. rewrite list_lookup_insert_Some.
  intros [(-> & -> & _)|[Hne H1]] Hc1.
  - rewrite Hl. apply (Hk h1 x Hx). by apply Hc.
  - by apply (Hk h1 x1).
Qed.

Lemma sound_frame s s' :
  hstore s' = hstore s → lstore s' = lstore s →
  handlers s' = handlers s → modifiers s' = modifiers s →
  sound s → sound s'.
Proof.
  intros Hh Hl Hm Hm' [Hk Hd Hf Ho Hy].
  assert (∀ m, lists_of m s' = lists_of m s) as Hmaps by (by intros []).
  split.
  - intros h x. rewrite Hh, Hl. apply Hk.
  - intros m k m' k' l. rewrite !Hmaps. apply Hd.
  - intros l L. rewrite Hl. apply Hf.
  - intros l L. rewrite Hl. apply Ho.
  - intros l L. rewrite Hl. intros HL. destruct (Hy l L HL) as [m Hm0].
    exists m. by rewrite Hmaps.
Qed.

Lemma sound_add l L c a s :
  wf s → sound s → lstore s !! l = Some L →
  sound (put_list l
           (mkList (l_handlers L ++ [length (hstore s)]) (l_usesPriorities L)
                   (l_needsPriorityUpdate L || l_usesPriorities L)
                   (l_needsPurge L) (l_trigger L))
           (with_hstore (fun hs => hs ++ [TriggerHandler.new l c a]) s)).
Proof.
  intros Hwf [Hk Hd Hf Ho Hy] HL.
  set (L' := mkList _ _ _ _ _).
  set (s1 := with_hstore _ s).
  assert (lstore (put_list l L' s1) !! l = Some L') as HL'
    by (apply lookup_put_list; simpl; eauto).
  split.
  - intros h x. simpl. intros Hx Hc.
    apply lookup_app_Some in Hx as [Hx|[Hge Hx]].
    + destruct (Hk h x Hx Hc) as (L0 & HL0 & Hin).
      destruct (decide (h_list x = l)) as [El|Hne].
      * exists L'. rewrite El. split; [done|]. simpl.
        apply elem_of_app. left. congruence.
      * exists L0. split; [|done]. by rewrite list_lookup_insert_ne.
    + apply list_lookup_singleton_Some in Hx as [Hz <-]. simpl.
      exists L'. split; [done|]. simpl. apply elem_of_app. right.
      apply list_elem_of_singleton. lia.
  - exact Hd.
  - intros l1 L1 [[-> ->]|[_ H1]]%put_list_cases; [|by eauto]. simpl.
    intros [Hn|Hu]%orb_true_iff; eauto.
  - intros l1 L1 [[-> ->]|[_ H1]]%put_list_cases; [|by eauto]. simpl.
    intros Hu. apply StronglySorted_app_2; [|by eauto|repeat constructor].
    intros h1 h2 H1 ->%list_elem_of_singleton.
    destruct (wf_member _ Hwf l L h1 HL H1) as (x & Hx & _).
    by eapply lookup_lt_Some.
  - intros l1 L1 [[-> ->]|[_ H1]]%put_list_cases; [by apply (Hy l L)|].
    by apply (Hy l1 L1).
Qed.

Lemma sound_new_list m k s :
  wf s → sound s → lists_of m s !! k = None →
  sound (with_lists m (insert k (length (lstore s)))
           (with_lstore (fun ls => ls ++ [TriggerHandlerList.new k]) s)).
Proof.
  intros Hwf [Hk Hd Hf Ho Hy] Hnone.
  set (n := length (lstore s)).
  set (s1 := with_lists _ _ _).
  assert (hstore s1 = hstore s) as Hh by (by destruct m).
  assert (lstore s1 = lstore s ++ [TriggerHandlerList.new k]) as Hl
    by (by destruct m).
  assert (∀ l L, lstore s1 !! l = Some L →
            lstore s !! l = Some L ∨
            l = n ∧ L = TriggerHandlerList.new k) as Hinv.
  { intros l L. rewrite Hl. intros HL.
    apply lookup_app_Some in HL as [?|[? HL]]; [by left|].
    right. apply list_lookup_singleton_Some in HL as [? ?]. split; [|done].
    unfold n. lia. }
  assert (∀ m' k' l, lists_of m' s1 !! k' = Some l →
            m' = m ∧ k' = k ∧ l = n ∨
            (m' ≠ m ∨ k' ≠ k) ∧ lists_of m' s !! k' = Some l) as Hmaps.
  { intros m' k' l. destruct m, m'; unfold s1; simpl;
      try (intros H; right; split; [by left|done]);
      (destruct (decide (k' = k)) as [->|Hne];
        [rewrite lookup_insert_eq; intros [= <-]; by left
        |rewrite lookup_insert_ne by done; intros H; right;
         split; [by right|done]]). }
  assert (∀ m' k' l, lists_of m' s !! k' = Some l →
            lists_of m' s1 !! k' = Some l) as Hold.
  { intros m' k' l H. destruct m, m'; unfold s1; simpl in *; try done;
      (destruct (decide (k' = k)) as [->|Hne];
        [congruence|by rewrite lookup_insert_ne]). }
  assert (∀ m' k' l, lists_of m' s !! k' = Some l → l ≠ n) as Hlt.
  { intros m' k' l H%(wf_lists _ Hwf). apply lookup_lt_is_Some in H.
    unfold n. lia. }
  split.
  - intros h x. rewrite Hh. intros Hx Hc.
    destruct (Hk h x Hx Hc) as (L0 & HL0 & Hin).
    exists L0. split; [|done]. rewrite Hl.
    by apply lookup_app_l_Some.
  - intros m1 k1 m2 k2 l H1 H2.
    destruct (Hmaps _ _ _ H1) as [(-> & -> & ->)|[_ H1']],
             (Hmaps _ _ _ H2) as [(-> & -> & E)|[_ H2']]; try done.
    + by destruct (Hlt _ _ _ H2').
    + subst l. by destruct (Hlt _ _ _ H1').
    + by eapply Hd.
  - intros l L [HL|[-> ->]]%Hinv; [by eauto|done].
  - intros l L [HL|[-> ->]]%Hinv; [by eauto|]. intros _. constructor.
  - intros l L [HL|[-> ->]]%Hinv.
    + destruct (Hy l L HL) as [m' Hm']. exists m'. by apply Hold.
    + exists m. simpl. destruct m; unfold s1; simpl;
        by rewrite lookup_insert_eq.
Qed.

Lemma regular_cancel h : sat (preserved regular) (TriggerHandler.cancel h).
Proof.
  intros s [Hwf Hs]. split; [by apply wf_cancel|].
  destruct (hstore s !! h) as [x|] eqn:Hx.
  - destruct (wf_owner s Hwf h x Hx) as [L HL].
    rewrite (cancel_state h x L s Hx HL). simpl.
    apply (sound_put_handler h x); try done.
    apply (sound_put_list _ L); try done.
    apply (sound_flagged s Hs _ L HL).
  - unfold TriggerHandler.cancel, bind, deref_handler. by rewrite Hx.
Qed.

Lemma regular_setPriority h p :
  sat (preserved regular) (TriggerHandler.setPriority h p).
Proof.
  intros s [Hwf Hs]. split; [by apply wf_setPriority|].
  destruct (hstore s !! h) as [x|] eqn:Hx.
  - destruct (wf_owner s Hwf h x Hx) as [L HL].
    rewrite (setPriority_state h p x L s Hx HL). simpl.
    apply (sound_put_handler h x); try done.
    by apply (sound_put_list _ L).
  - unfold TriggerHandler.setPriority, bind, deref_handler. by rewrite Hx.
Qed.

Lemma regular_setOnce h b :
  sat (preserved regular) (TriggerHandler.setOnce h b).
Proof.
  intros s [Hwf Hs]. split; [by apply wf_setOnce|].
  destruct (hstore s !! h) as [x|] eqn:Hx.
  - rewrite (setOnce_state h b x s Hx). simpl.
    by apply (sound_put_handler h x).
  - unfold TriggerHandler.setOnce, bind, deref_handler. by rewrite Hx.
Qed.

Lemma sound_purged l L s :
  sound s → lstore s !! l = Some L → sound (put_list l (purged_list s L) s).
Proof.
  intros Hs HL. apply (sound_put_list _ L); try done.
  - intros h Hh Hc. unfold purged_list.
    destruct (l_needsPurge L); simpl; [|done].
    apply list_elem_of_filter. by rewrite Hc.
  - unfold purged_list. destruct (l_needsPurge L); simpl;
      apply (sound_flagged s Hs _ L HL).
  - unfold purged_list. destruct (l_needsPurge L); simpl; [|done].
    intros Hu. split; [done|]. apply StronglySorted_filter.
  - unfold purged_list. by destruct (l_needsPurge L).
Qed.

Lemma regular_purge l : sat (preserved regular) (TriggerHandlerList.purge l).
Proof.
  intros s [Hwf Hs]. split; [by apply wf_purge|].
  destruct (lstore s !! l) as [L|] eqn:HL.
  - rewrite (purge_spec l s L HL). simpl. by apply sound_purged.
  - unfold TriggerHandlerList.purge, bind, deref_list. by rewrite HL.
Qed.

Lemma sound_sorted l L s :
  sound s → lstore s !! l = Some L → sound (put_list l (sorted_list s L) s).
Proof.
  intros Hs HL. apply (sound_put_list _ L); try done.
  - intros h Hh Hc. by apply sorted_list_keeps.
  - unfold sorted_list. destruct (l_needsPriorityUpdate L) eqn:Hn; simpl;
      [done|]. rewrite Hn. done.
  - unfold sorted_list. destruct (l_needsPriorityUpdate L) eqn:Hn; simpl;
      [|done].
    pose proof (sound_flagged s Hs _ L HL Hn) as Hu.
    unfold purged_list. destruct (l_needsPurge L); simpl; congruence.
  - unfold sorted_list, purged_list.
    by destruct (l_needsPriorityUpdate L), (l_needsPurge L).
Qed.

Lemma regular_updatePriorities l :
  sat (preserved regular) (TriggerHandlerList.updatePriorities l).
Proof.
  intros s [Hwf Hs]. split; [by apply wf_updatePriorities|].
  destruct (lstore s !! l) as [L|] eqn:HL.
  - rewrite (updatePriorities_spec l s L HL). simpl. by apply sound_sorted.
  - unfold TriggerHandlerList.updatePriorities, bind, deref_list.
    by rewrite HL.
Qed.

Lemma regular_createHandler m k c a :
  sat (preserved regular) (createHandler m k c a).
Proof.
  intros s [Hwf Hs]. split; [by apply wf_createHandler|].
  destruct (lists_of m s !! k) as [l|] eqn:Hk.
  - destruct (wf_lists s Hwf m k l Hk) as [L HL].
    rewrite (createHandler_found m k c a s l L Hk HL). simpl.
    by apply sound_add.
  - rewrite (createHandler_fresh m k c a s Hk). simpl.
    pose proof (wf_new_list m k s Hwf) as Hwf1.
    pose proof (sound_new_list m k s Hwf Hs Hk) as Hs1.
    match goal with |- sound (put_list _ _ (with_hstore _ ?s1)) =>
      assert (lstore s1 !! length (lstore s)
              = Some (TriggerHandlerList.new k)) as HL
    end.
    { destruct m; simpl; rewrite lookup_app_r by done;
        by rewrite Nat.sub_diag. }
    pose proof (sound_add _ _ c a _ Hwf1 Hs1 HL) as H.
    simpl in H. replace (hstore _) with (hstore s) in H by (by destruct m).
    exact H.
Qed.

Lemma regular_log h actuals :
  sat (preserved regular) (update (with_trace (fun t => t ++ [(h, actuals)]))).
Proof.
  intros s [Hwf Hs]. split; [by apply wf_log|]. by apply (sound_frame s).
Qed.

Lemma regular_init : regular init.
Proof.
  split; [apply wf_init|]. split.
  - intros h x Hx. done.
  - intros [] k [] k' l Hk; simpl in Hk; by rewrite lookup_empty in Hk.
  - intros l L HL. done.
  - intros l L HL. done.
  - intros l L HL. done.
Qed.

Lemma regular_steps os s : regular s → regular (steps os s).
Proof.
  apply (rule_steps (preserved regular)); intros;
    [apply regular_cancel|apply regular_setPriority|apply regular_setOnce
    |apply regular_purge|apply regular_updatePriorities
    |apply regular_createHandler|apply regular_log].
Qed.

Lemma reachable_regular s : reachable s → regular s.
Proof. intros [os ->]. apply regular_steps, regular_init. Qed.

(** ** Registration and the sequences *)

Lemma sequence_of_lookup m k s l L :
  lists_of m s !! k = Some l → lstore s !! l = Some L →
  sequence_of m k s = l_handlers L.
Proof. intros Hk HL. unfold sequence_of. by rewrite Hk, HL. Qed.

Lemma listed_registered m k s l L h :
  wf s → lists_of m s !! k = Some l → lstore s !! l = Some L →
  h ∈ l_handlers L → registered_under m k s h.
Proof.
  intros Hwf Hk HL Hh. destruct (wf_member s Hwf l L h HL Hh) as (x & Hx & El).
  exists x. split; [done|]. by rewrite El.
Qed.

Lemma registered_listed m k s h :
  regular s → registered_under m k s h → isCancelled s h = false →
  h ∈ sequence_of m k s.
Proof.
  intros [Hwf Hs] (x & Hx & Hk) Hc.
  destruct (sound_kept s Hs h x Hx) as (L & HL & Hin).
  { unfold isCancelled in Hc. by rewrite Hx in Hc. }
  by rewrite (sequence_of_lookup m k s _ L Hk HL).
Qed.

Lemma keyed_trigger m k s l L :
  regular s → lists_of m s !! k = Some l → lstore s !! l = Some L →
  l_trigger L = k.
Proof.
  intros [Hwf Hs] Hk HL. destruct (sound_keyed s Hs l L HL) as [m' Hm'].
  by destruct (sound_distinct s Hs m' (l_trigger L) m k l Hm' Hk).
Qed.

Lemma dispatch_missing m k o s :
  dispatches_to m k o → lists_of m s !! k = None → step o s = s.
Proof.
  intros Ho Hk. destruct m, o; simpl in Ho; try done; subst; simpl in *;
    unfold Trigger.Trigger, Trigger.execute, Trigger.poll, Trigger.modify,
      getHandlerList, bind, get; cbn [lists_of]; by rewrite Hk.
Qed.

Lemma calls_refl s : calls s s = [].
Proof. unfold calls. by rewrite drop_all. Qed.

Lemma StronglySorted_sublist {A} (R : relation A) l1 l2 :
  sublist l1 l2 → StronglySorted R l2 → StronglySorted R l1.
Proof.
  induction 1 as [|x l1 l2 Hs IH|x l1 l2 Hs IH]; intros H2; [done|..].
  - apply StronglySorted_cons in H2 as [Hx H2]. constructor; [by apply IH|].
    rewrite Forall_forall in *. intros y Hy. apply Hx.
    by eapply elem_of_sublist.
  - apply StronglySorted_cons in H2 as [_ H2]. by apply IH.
Qed.

(** X4.  Between operations, a list whose needs-priority-update flag is
    down holds its handlers in ascending priority: [setPriority] and
    [addHandler] raise the flag whenever they may break the order, and
    only a sort lowers it. *)
Theorem sequence_sorted_while_flag_down s m k l L :
  reachable s → lists_of m s !! k = Some l → lstore s !! l = Some L →
  l_needsPriorityUpdate L = false →
  StronglySorted (fun a b => getPriority s a ≤ getPriority s b)
                 (sequence_of m k s).
Proof.
  intros Hr Hk HL Hn. rewrite (sequence_of_lookup m k s l L Hk HL).
  by apply (wf_sorted s (reachable_wf s Hr) l L).
Qed.

(** The theorem on [order_scenario] after a dispatch has sorted the
    list. *)
Lemma sequence_sorted_while_flag_down_witness :
  StronglySorted
    (fun a b =>
       getPriority (step (OExecute (VStr "x") []) (steps order_scenario init)) a
       ≤ getPriority (step (OExecute (VStr "x") []) (steps order_scenario init))
           b)
    (sequence_of Handlers (VStr "x")
       (step (OExecute (VStr "x") []) (steps order_scenario init))).
Proof.
  apply (sequence_sorted_while_flag_down _ Handlers (VStr "x") 0
           (mkList [1; 0; 2]%nat true false false (VStr "x"))).
  - by exists (order_scenario ++ [OExecute (VStr "x") []]).
  - vm_compute; reflexivity.
  - vm_compute; reflexivity.
  - reflexivity.
Defined.

(** X5.  In every reachable state, the sequence of the list registered
    under a key has no handler twice, holds only handlers registered under
    that key of that map, and the list's [trigger] field is the key. *)
Theorem list_holds_its_own_handlers s m k l L :
  reachable s → lists_of m s !! k = Some l → lstore s !! l = Some L →
  NoDup (l_handlers L) ∧ l_trigger L = k ∧
  ∀ h, h ∈ l_handlers L → registered_under m k s h.
Proof.
  intros Hr Hk HL. pose proof (reachable_regular s Hr) as Hreg.
  destruct Hreg as [Hwf Hs]. split; [by apply (wf_nodup s Hwf l)|].
  split; [by apply (keyed_trigger m k s l L)|].
  intros h Hh. by apply (listed_registered m k s l L).
Qed.

(** The theorem on the list of key ["x"] in [keys_scenario]. *)
Lemma list_holds_its_own_handlers_witness :
  NoDup [0; 3]%nat ∧ VStr "x" = VStr "x" ∧
  ∀ h, h ∈ [0; 3]%nat →
    registered_under Handlers (VStr "x") (steps keys_scenario init) h.
Proof.
  apply (list_holds_its_own_handlers (steps keys_scenario init) Handlers
           (VStr "x") 0 (mkList [0; 3]%nat false false false (VStr "x"))).
  - by exists keys_scenario.
  - vm_compute; reflexivity.
  - vm_compute; reflexivity.
Defined.

(** X6.  Every handler is registered under exactly one key of exactly one
    map. *)
Theorem handler_has_one_key s h x :
  reachable s → hstore s !! h = Some x →
  ∃ m k, registered_under m k s h ∧
         ∀ m' k', registered_under m' k' s h → m' = m ∧ k' = k.
Proof.
  intros Hr Hx. destruct (reachable_regular s Hr) as [Hwf Hs].
  destruct (wf_owner s Hwf h x Hx) as [L HL].
  destruct (sound_keyed s Hs _ L HL) as [m Hm].
  exists m, (l_trigger L). split; [by exists x|].
  intros m' k' (x' & Hx' & Hk'). assert (x' = x) as -> by congruence.
  by apply (sound_distinct s Hs m' k' m (l_trigger L) (h_list x)).
Qed.

(** The theorem on the transform handler of [keys_scenario]. *)
Lemma handler_has_one_key_witness :
  ∃ m k, registered_under m k (steps keys_scenario init) 2 ∧
         ∀ m' k', registered_under m' k' (steps keys_scenario init) 2 →
                  m' = m ∧ k' = k.
Proof.
  apply (handler_has_one_key (steps keys_scenario init) 2
           (mkHandler false 2 [] (transform double) 0 false)).
  - by exists keys_scenario.
  - vm_compute; reflexivity.
Defined.

(** X7.  A handler leaves the sequence of its key only after it has been
    cancelled: in every reachable state a handler that is registered under
    a key and not cancelled is in that key's sequence. *)
Theorem active_handler_is_listed s m k h :
  reachable s → registered_under m k s h → isCancelled s h = false →
  h ∈ sequence_of m k s.
Proof.
  intros Hr Hreg Hc. apply registered_listed; [|done..].
  by apply reachable_regular.
Qed.

(** The theorem on the third handler of [once_scenario] after the
    one-shot handler has fired and a poll has purged the list. *)
Lemma active_handler_is_listed_witness :
  2%nat ∈ sequence_of Handlers (VStr "x")
            (steps (once_scenario ++ [OPoll (VStr "x") []]) init).
Proof.
  apply (active_handler_is_listed _ Handlers (VStr "x") 2).
  - by exists (once_scenario ++ [OPoll (VStr "x") []]).
  - exists (mkHandler false 0 [] (returning (VStr "C")) 0 false).
    split; vm_compute; reflexivity.
  - vm_compute; reflexivity.
Defined.

(** X8.  A dispatch on a key calls only handlers registered under that
    key of its map, whether the callbacks return, throw or cancel
    handlers: [execute], [Trigger] and [poll] never reach a transform
    handler or a handler of another key, and [modify] never reaches a
    broadcast handler. *)
Theorem dispatch_stays_on_its_key s m k o h :
  reachable s → dispatches_to m k o → h ∈ calls s (step o s) →
  registered_under m k s h.
Proof.
  intros Hr Ho Hh. pose proof (reachable_wf s Hr) as Hwf.
  destruct (lists_of m s !! k) as [l|] eqn:Hk.
  - destruct (wf_lists s Hwf m k l Hk) as [L HL].
    apply (listed_registered m k s l L); try done.
    apply (sorted_list_handlers s).
    eapply elem_of_sublist; [exact Hh|].
    exact (dispatch_calls_within m k o l L s Ho Hk HL).
  - rewrite (dispatch_missing m k o s Ho Hk), calls_refl in Hh.
    by apply elem_of_nil in Hh.
Qed.

(** The theorem on a broadcast on key ["x"] of [keys_scenario]: the
    handler called last is registered under ["x"]. *)
Lemma dispatch_stays_on_its_key_witness :
  registered_under Handlers (VStr "x") (steps keys_scenario init) 3.
Proof.
  apply (dispatch_stays_on_its_key (steps keys_scenario init) Handlers
           (VStr "x") (OExecute (VStr "x") [VNum 9]) 3).
  - by exists keys_scenario.
  - reflexivity.
  - vm_compute. repeat constructor.
Defined.

(** X9.  As long as no priority was set on any handler of a list, a
    dispatch calls the handlers in the order they were registered in,
    whether the callbacks return, throw or cancel handlers. *)
Theorem registration_order_without_priorities s m k o l L :
  reachable s → dispatches_to m k o →
  lists_of m s !! k = Some l → lstore s !! l = Some L →
  l_usesPriorities L = false →
  StronglySorted (fun a b : HandlerRef => (a < b)%nat) (calls s (step o s)).
Proof.
  intros Hr Ho Hk HL Hu. destruct (reachable_regular s Hr) as [Hwf Hs].
  assert (l_needsPriorityUpdate L = false) as Hn.
  { destruct (l_needsPriorityUpdate L) eqn:Hn; [|done].
    pose proof (sound_flagged s Hs l L HL Hn). congruence. }
  pose proof (dispatch_calls_within m k o l L s Ho Hk HL) as Hsub.
  unfold sorted_list in Hsub. rewrite Hn in Hsub.
  eapply StronglySorted_sublist; [exact Hsub|].
  by apply (sound_in_order s Hs l L).
Qed.

(** The theorem on a broadcast on key ["x"] of [keys_scenario]. *)
Lemma registration_order_without_priorities_witness :
  StronglySorted (fun a b : HandlerRef => (a < b)%nat)
    (calls (steps keys_scenario init)
       (step (OPoll (VStr "x") []) (steps keys_scenario init))).
Proof.
  apply (registration_order_without_priorities (steps keys_scenario init)
           Handlers (VStr "x") (OPoll (VStr "x") []) 0
           (mkList [0; 3]%nat false false false (VStr "x"))).
  - by exists keys_scenario.
  - reflexivity.
  - vm_compute; reflexivity.
  - vm_compute; reflexivity.
  - reflexivity.
Defined.

(** Plainness of the callbacks of a closed scenario, by evaluation. *)
Ltac plain_by_evaluation :=
  let h := fresh "h" in
  let x := fresh "x" in
  let Hx := fresh "Hx" in
  let Hin := fresh "Hin" in
  let a := fresh "a" in
  intros h x Hx;
  apply list_elem_of_lookup_2 in Hx as Hin;
  vm_compute in Hin;
  repeat (apply elem_of_cons in Hin as [->|Hin];
          [intros a; split; [done|by eexists]|]);
  inversion Hin.

Lemma keys_scenario_plain : plain_callbacks (steps keys_scenario init).
Proof. plain_by_evaluation. Qed.

(** ** The arguments of the calls *)

#[local] Instance passes_refl pre a : Reflexive (passes pre a).
Proof.
  intros s. split; [reflexivity|]. split; [done|].
  exists []. split; [by rewrite app_nil_r|]. by intros h c ?%elem_of_nil.
Qed.

#[local] Instance passes_trans pre a : Transitive (passes pre a).
Proof.
  intros s1 s2 s3 (H12 & E12 & t12 & T12 & A12) (H23 & E23 & t23 & T23 & A23).
  split; [by etrans|]. split; [congruence|].
  exists (t12 ++ t23). split; [by rewrite T23, T12, app_assoc|].
  intros h c [Hin|Hin]%elem_of_app; [by apply A12|].
  destruct (A23 h c Hin) as (x2 & Hx2 & ->).
  assert (is_Some (hstore s1 !! h)) as [x1 Hx1].
  { apply lookup_lt_is_Some. rewrite <- E12. by eapply lookup_lt_Some. }
  destruct (H12 h x1 Hx1) as (x2' & Hx2' & _ & Ha & _).
  exists x1. split; [done|]. congruence.
Qed.

Lemma passes_quiet pre a s s' :
  stable s s' → length (hstore s') = length (hstore s) →
  trace s' = trace s → passes pre a s s'.
Proof.
  intros Hst Hlen Ht. split; [done|]. split; [done|].
  exists []. split; [by rewrite app_nil_r|]. by intros h c ?%elem_of_nil.
Qed.

Lemma passes_cancel pre a h : sat (passes pre a) (TriggerHandler.cancel h).
Proof.
  intros s. apply passes_quiet; [apply settled_cancel|..];
    unfold TriggerHandler.cancel, bind, deref_handler;
    destruct (hstore s !! h); simpl; by rewrite ?length_alter.
Qed.

Lemma passes_purge pre a l : sat (passes pre a) (TriggerHandlerList.purge l).
Proof.
  intros s. apply passes_quiet; [apply settled_purge|..];
    (destruct (lstore s !! l) as [L|] eqn:HL;
      [by rewrite (purge_spec l s L HL)
      |unfold TriggerHandlerList.purge, bind, deref_list; by rewrite HL]).
Qed.

Lemma passes_updatePriorities pre a l :
  sat (passes pre a) (TriggerHandlerList.updatePriorities l).
Proof.
  intros s. apply passes_quiet; [apply settled_updatePriorities|..];
    (destruct (lstore s !! l) as [L|] eqn:HL;
      [by rewrite (updatePriorities_spec l s L HL)
      |unfold TriggerHandlerList.updatePriorities, bind, deref_list;
       by rewrite HL]).
Qed.

Lemma passes_call pre a h c x s :
  hstore s !! h = Some x →
  passes pre a s
    (state_of (TriggerHandler.call h c (pre ++ h_args x ++ a) s)).
Proof.
  intros Hx. destruct c as [f|v]; simpl; [|reflexivity].
  set (act := pre ++ h_args x ++ a).
  assert (passes pre a s (with_trace (fun t => t ++ [(h, act)]) s)) as H1.
  { split; [by apply (stable_app []); simpl; rewrite app_nil_r|].
    split; [done|]. exists [(h, act)]. split; [done|].
    intros h' c' [= -> ->]%list_elem_of_singleton. by exists x. }
  unfold bind at 1, update. etrans; [exact H1|].
  match goal with |- passes _ _ ?s1 _ => generalize s1 end. intros s1.
  apply (sat_bind (passes pre a)).
  - apply sat_for_of; [typeclasses eauto..|]. apply passes_cancel.
  - intros _. destruct (completion _); [apply sat_ret|apply sat_throw];
      typeclasses eauto.
Qed.

Lemma passes_invoke pre a h x actuals s :
  hstore s !! h = Some x → actuals = pre ++ h_args x ++ a →
  passes pre a s
    (state_of ((when (h_once x) (TriggerHandler.cancel h) ;;
                TriggerHandler.call h (h_callback x) actuals) s)).
Proof.
  intros Hx ->. unfold bind.
  pose proof (sat_when (passes pre a) (h_once x) _ (passes_cancel pre a h) s)
    as H1.
  destruct (when (h_once x) (TriggerHandler.cancel h) s) as [s1 []|s1 e];
    simpl in *; [|done].
  etrans; [exact H1|]. destruct H1 as (Hst & _).
  destruct (Hst h x Hx) as (x1 & Hx1 & _ & Ha & _).
  rewrite <- Ha. by apply passes_call.
Qed.

Lemma passes_execute a h : sat (passes [] a) (TriggerHandler.execute h a).
Proof.
  intros s. unfold TriggerHandler.execute, bind at 1, deref_handler.
  destruct (hstore s !! h) as [x|] eqn:Hx; simpl; [|reflexivity].
  by apply (passes_invoke [] a h x).
Qed.

Lemma passes_modify v a h : sat (passes [v] a) (TriggerHandler.modify h v a).
Proof.
  intros s. unfold TriggerHandler.modify, bind at 1, deref_handler.
  destruct (hstore s !! h) as [x|] eqn:Hx; simpl; [|reflexivity].
  by apply (passes_invoke [v] a h x).
Qed.

Lemma passes_dispatch o s :
  dispatch o →
  ∃ pre a, passes pre a s (step o s) ∧
           ∀ x, actuals_of o x = pre ++ h_args x ++ a.
Proof.
  intros Ho. destruct o; try done; simpl.
  - exists [], args. split; [|done].
    apply (rule_Trigger (passes [] args) args);
      [apply passes_updatePriorities|intros h s0 _; apply passes_execute].
  - exists [], args. split; [|done].
    apply (rule_execute (passes [] args) args);
      [apply passes_updatePriorities|intros h s0 _; apply passes_execute].
  - exists [], args. split; [|done].
    apply (rule_poll (passes [] args) args);
      [apply passes_purge|apply passes_updatePriorities
      |intros h s0 _; apply passes_execute].
  - exists [input], args. split; [|done].
    apply (rule_modify (passes [input] args) args input);
      [apply passes_updatePriorities|intros h s0 _; apply passes_modify].
Qed.

(** X11.  Every call a dispatch makes passes the handler's bound
    arguments first and the arguments of the dispatch after them, and
    [modify] puts its input in front of both; this holds whether the
    callbacks return, throw or cancel handlers. *)
Theorem dispatch_argument_order o s h actuals :
  dispatch o →
  (h, actuals) ∈ drop (length (trace s)) (trace (step o s)) →
  ∃ x, hstore s !! h = Some x ∧ actuals = actuals_of o x.
Proof.
  intros Ho Hin.
  destruct (passes_dispatch o s Ho) as (pre & a & (_ & _ & t & Ht & Ha) & Hact).
  rewrite Ht, drop_app_length in Hin.
  destruct (Ha h actuals Hin) as (x & Hx & ->).
  exists x. by rewrite Hact.
Qed.

(** The theorem on a broadcast on key ["x"] of [keys_scenario] with the
    argument 9: the handler registered with the arguments 2 and 3 is
    called with 2, 3, 9. *)
Lemma dispatch_argument_order_witness :
  ∃ x, hstore (steps keys_scenario init) !! 3%nat = Some x ∧
       [VNum 2; VNum 3; VNum 9]
       = actuals_of (OExecute (VStr "x") [VNum 9]) x.
Proof.
  apply (dispatch_argument_order (OExecute (VStr "x") [VNum 9])
           (steps keys_scenario init) 3 [VNum 2; VNum 3; VNum 9]).
  - exact I.
  - vm_compute. repeat constructor.
Defined.

(** ** What the traversals return when callbacks are plain *)

Lemma invoke_plain_value h x actuals s :
  hstore s !! h = Some x → h_cancelled x = false → plain (h_callback x) →
  (when (h_once x) (TriggerHandler.cancel h) ;;
   TriggerHandler.call h (h_callback x) actuals) s
  = Ok (fire (fun _ => actuals) s h)
       (match h_callback x with
        | Fn f => call_value (f actuals)
        | NotFn _ => VUndefined
        end).
Proof.
  intros Hx Hc Hp. unfold fire. rewrite Hx, Hc.
  destruct (h_callback x) as [f|v]; [|done]. simpl in Hp.
  destruct (Hp actuals) as [Hcs [v Hv]].
  unfold call_value. rewrite Hv.
  unfold bind at 1. destruct (h_once x); simpl.
  - unfold TriggerHandler.cancel, bind at 1, deref_handler. rewrite Hx.
    unfold bind, update, queuePurge, update. simpl.
    by rewrite Hcs, Hv.
  - unfold bind, update. simpl. by rewrite Hcs, Hv.
Qed.

Lemma execute_plain_value h x a s :
  hstore s !! h = Some x → h_cancelled x = false → plain (h_callback x) →
  TriggerHandler.execute h a s
  = Ok (fire (fun x => h_args x ++ a) s h)
       (returned (fun x => h_args x ++ a) s h).
Proof.
  intros Hx Hc Hp. unfold TriggerHandler.execute.
  rewrite (bind_Ok _ _ s s x) by (unfold deref_handler; by rewrite Hx).
  rewrite (invoke_plain_value h x (h_args x ++ a) s Hx Hc Hp).
  unfold returned. rewrite Hx. f_equal.
  apply fire_ext. intros x' Hx'. congruence.
Qed.

Lemma modify_plain_value h x v a s :
  hstore s !! h = Some x → h_cancelled x = false → plain (h_callback x) →
  TriggerHandler.modify h v a s
  = Ok (fire (fun x => v :: h_args x ++ a) s h)
       (returned (fun x => v :: h_args x ++ a) s h).
Proof.
  intros Hx Hc Hp. unfold TriggerHandler.modify.
  rewrite (bind_Ok _ _ s s x) by (unfold deref_handler; by rewrite Hx).
  rewrite (invoke_plain_value h x (v :: h_args x ++ a) s Hx Hc Hp).
  unfold returned. rewrite Hx. f_equal.
  apply fire_ext. intros x' Hx'. congruence.
Qed.

Lemma returned_fire act act' s h h' :
  (∀ x, act (set_cancelled true x) = act x) →
  returned act (fire act' s h) h' = returned act s h'.
Proof.
  intros Hact.
  unfold returned, fire. destruct (hstore s !! h) as [y|] eqn:Hy; [|done].
  destruct (h_cancelled y); [done|].
  destruct (h_once y); simpl; [|done].
  destruct (decide (h' = h)) as [->|Hne].
  - rewrite list_lookup_alter_eq, Hy. simpl. by rewrite Hact.
  - by rewrite list_lookup_alter_ne.
Qed.

Lemma fire_cancelled act s h : isCancelled s h = true → fire act s h = s.
Proof.
  unfold isCancelled, fire. destruct (hstore s !! h) as [x|]; [|done].
  by intros ->.
Qed.

Lemma for_of_acc_poll_value a ids r s :
  plain_callbacks s → NoDup ids →
  (∀ h, h ∈ ids → is_Some (hstore s !! h)) →
  for_of_acc ids r (fun result handler =>
    s <- get ;;
    if negb (isCancelled s handler)
    then v <- TriggerHandler.execute handler a ;; ret (result ++ [v])
    else ret result) s
  = Ok (foldl (fire (fun x => h_args x ++ a)) s ids)
       (r ++ map (returned (fun x => h_args x ++ a) s)
                 (filter (active s) ids)).
Proof.
  revert s r. induction ids as [|h ids IH]; intros s r Hp Hnd Hv; simpl.
  { by rewrite app_nil_r. }
  apply NoDup_cons in Hnd as [Hh Hnd].
  destruct (Hv h) as [x Hx]; [by left|].
  assert (∀ s1, s1 = fire (fun x => h_args x ++ a) s h →
            filter (active s1) ids = filter (active s) ids) as Hsame.
  { intros s1 ->. apply filter_ext_in. intros h' Hh'.
    rewrite fire_isCancelled; [done|]. by intros ->. }
  unfold bind at 1 2, get. rewrite filter_cons.
  destruct (isCancelled s h) eqn:Hc; simpl.
  - rewrite <- (fire_cancelled (fun x => h_args x ++ a) s h Hc) at 1.
    rewrite IH; [|by apply fire_plain|done
                 |intros h' Hh'; apply fire_valid, Hv; by right].
    rewrite (Hsame _ eq_refl). f_equal. f_equal.
    apply map_ext. intros h'. by apply returned_fire.
  - assert (h_cancelled x = false) as Hcx
      by (unfold isCancelled in Hc; by rewrite Hx in Hc).
    rewrite (bind_Ok _ _ _ _ _
               (execute_plain_value h x a s Hx Hcx (Hp h x Hx))).
    unfold ret at 1.
    rewrite IH; [|by apply fire_plain|done
                 |intros h' Hh'; apply fire_valid, Hv; by right].
    rewrite (Hsame _ eq_refl), <- app_assoc. simpl. do 3 f_equal.
    apply map_ext. intros h'. by apply returned_fire.
Qed.

Lemma for_of_acc_modify_value v a ids r s :
  plain_callbacks s → NoDup ids →
  (∀ h, h ∈ ids → is_Some (hstore s !! h)) →
  for_of_acc ids r (fun result handler =>
    s <- get ;;
    if negb (isCancelled s handler)
    then TriggerHandler.modify handler v a
    else ret result) s
  = Ok (foldl (fire (fun x => v :: h_args x ++ a)) s ids)
       (match last (filter (active s) ids) with
        | Some h => returned (fun x => v :: h_args x ++ a) s h
        | None => r
        end).
Proof.
  revert s r. induction ids as [|h ids IH]; intros s r Hp Hnd Hv; simpl.
  { done. }
  apply NoDup_cons in Hnd as [Hh Hnd].
  destruct (Hv h) as [x Hx]; [by left|].
  assert (∀ s1, s1 = fire (fun x => v :: h_args x ++ a) s h →
            filter (active s1) ids = filter (active s) ids) as Hsame.
  { intros s1 ->. apply filter_ext_in. intros h' Hh'.
    rewrite fire_isCancelled; [done|]. by intros ->. }
  unfold bind at 1 2, get. rewrite filter_cons.
  destruct (isCancelled s h) eqn:Hc; simpl.
  - rewrite <- (fire_cancelled (fun x => v :: h_args x ++ a) s h Hc) at 1.
    rewrite IH; [|by apply fire_plain|done
                 |intros h' Hh'; apply fire_valid, Hv; by right].
    rewrite (Hsame _ eq_refl). f_equal.
    destruct (last _); [by apply returned_fire|done].
  - assert (h_cancelled x = false) as Hcx
      by (unfold isCancelled in Hc; by rewrite Hx in Hc).
    rewrite (modify_plain_value h x v a s Hx Hcx (Hp h x Hx)).
    rewrite IH; [|by apply fire_plain|done
                 |intros h' Hh'; apply fire_valid, Hv; by right].
    rewrite (Hsame _ eq_refl), last_cons. f_equal.
    destruct (last _); [by apply returned_fire|done].
Qed.

Lemma sorted_list_NoDup l L s :
  wf s → lstore s !! l = Some L → NoDup (l_handlers (sorted_list s L)).
Proof.
  intros Hwf HL. pose proof (wf_sorted_list l L s Hwf HL) as Hwf1.
  apply (wf_nodup _ Hwf1 l). apply lookup_put_list. eauto.
Qed.

Lemma list_poll_result l a s L :
  wf s → plain_callbacks s → lstore s !! l = Some L →
  ∃ s', TriggerHandlerList.poll l a s
        = Ok s' (map (returned (fun x => h_args x ++ a) s)
                     (filter (active s) (l_handlers (sorted_list s L)))).
Proof.
  intros Hwf Hp HL. rewrite (poll_unfold l a s L HL).
  rewrite (bind_Ok _ _ _ _ _
             (for_of_acc_poll_value a (l_handlers (sorted_list s L)) []
                (put_list l (sorted_list s L) s) Hp
                (sorted_list_NoDup l L s Hwf HL)
                (fun h Hh => traversal_valid l L s h Hwf HL Hh))).
  destruct (foldl_fire_lstore (fun x => h_args x ++ a)
              (l_handlers (sorted_list s L))
              (put_list l (sorted_list s L) s) l) as [L2 HL2].
  { rewrite lookup_put_list; eauto. }
  rewrite (bind_Ok _ _ _ _ _ (purge_spec l _ L2 HL2)).
  eexists. reflexivity.
Qed.

Lemma list_modify_result l v a s L :
  wf s → plain_callbacks s → lstore s !! l = Some L →
  ∃ s', TriggerHandlerList.modify l v a s
        = Ok s' (match last (filter (active s)
                               (l_handlers (sorted_list s L))) with
                 | Some h => returned (fun x => v :: h_args x ++ a) s h
                 | None => v
                 end).
Proof.
  intros Hwf Hp HL. rewrite (modify_unfold l v a s L HL).
  rewrite (for_of_acc_modify_value v a (l_handlers (sorted_list s L)) v
             (put_list l (sorted_list s L) s) Hp
             (sorted_list_NoDup l L s Hwf HL)
             (fun h Hh => traversal_valid l L s h Hwf HL Hh)).
  eexists. reflexivity.
Qed.

(** X12.  When the callbacks return normally and cancel nothing, [poll]
    returns one value for each handler it calls, in the order of the
    calls: what the handler's callback returns on its bound arguments
    followed by the arguments of the poll. *)
Theorem poll_collects_results k a s :
  reachable s → plain_callbacks s →
  ∃ s', Trigger.poll k a s
        = Ok s' (map (returned (fun x => h_args x ++ a) s) (calls s s')).
Proof.
  intros Hr Hp. pose proof (reachable_wf s Hr) as Hwf.
  destruct (handlers s !! k) as [l|] eqn:Hk.
  - rewrite (poll_found k a s l Hk).
    destruct (wf_lists s Hwf Handlers k l Hk) as [L HL].
    destruct (list_poll_result l a s L Hwf Hp HL) as [s' Hs'].
    destruct (list_poll_calls l a s L Hwf Hp HL) as (s'' & r & Hs'' & Hc).
    rewrite Hs' in Hs''. injection Hs'' as <- _.
    exists s'. by rewrite Hs', Hc.
  - exists s. rewrite calls_refl.
    unfold Trigger.poll, getHandlerList, bind, get. cbn [lists_of].
    by rewrite Hk.
Qed.

(** The theorem on a poll of key ["x"] of [keys_scenario]. *)
Lemma poll_collects_results_witness :
  ∃ s', Trigger.poll (VStr "x") [VNum 9] (steps keys_scenario init)
        = Ok s' (map (returned (fun x => h_args x ++ [VNum 9])
                        (steps keys_scenario init))
                     (calls (steps keys_scenario init) s')).
Proof.
  apply (poll_collects_results (VStr "x") [VNum 9]
           (steps keys_scenario init)).
  - by exists keys_scenario.
  - exact keys_scenario_plain.
Defined.

(** X13.  When the callbacks return normally and cancel nothing,
    [modify] returns what the last handler it calls returns on the input,
    its bound arguments and the arguments of the dispatch; it returns the
    input itself when that result is [null] or [undefined], and when it
    calls no handler. *)
Theorem modify_returns_last_result v k a s :
  reachable s → plain_callbacks s →
  ∃ s', Trigger.modify v k a s
        = Ok s' (match last (calls s s') with
                 | Some h =>
                     if nullish (returned (fun x => v :: h_args x ++ a) s h)
                     then v
                     else returned (fun x => v :: h_args x ++ a) s h
                 | None => v
                 end).
Proof.
  intros Hr Hp. pose proof (reachable_wf s Hr) as Hwf.
  destruct (modifiers s !! k) as [l|] eqn:Hk.
  - rewrite (modify_found v k a s l Hk).
    destruct (wf_lists s Hwf Modifiers k l Hk) as [L HL].
    destruct (list_modify_result l v a s L Hwf Hp HL) as [s' Hs'].
    destruct (list_modify_calls l v a s L Hwf Hp HL) as (s'' & r & Hs'' & Hc).
    rewrite Hs' in Hs''. injection Hs'' as <- _.
    exists s'. rewrite (bind_Ok _ _ _ _ _ Hs'), Hc. unfold ret. f_equal.
    destruct (last _) as [h|]; [done|]. by destruct (nullish v).
  - exists s. rewrite calls_refl.
    unfold Trigger.modify, getHandlerList, bind, get. cbn [lists_of].
    rewrite Hk. simpl. unfold ret. by destruct (nullish v).
Qed.

(** The theorem on [modify(5, "x")] in [keys_scenario], where one
    handler doubles the input. *)
Lemma modify_returns_last_result_witness :
  ∃ s', Trigger.modify (VNum 5) (VStr "x") [] (steps keys_scenario init)
        = Ok s' (match last (calls (steps keys_scenario init) s') with
                 | Some h =>
                     if nullish (returned (fun x => VNum 5 :: h_args x ++ [])
                                   (steps keys_scenario init) h)
                     then VNum 5
                     else returned (fun x => VNum 5 :: h_args x ++ [])
                            (steps keys_scenario init) h
                 | None => VNum 5
                 end).
Proof.
  apply (modify_returns_last_result (VNum 5) (VStr "x") []
           (steps keys_scenario init)).
  - by exists keys_scenario.
  - exact keys_scenario_plain.
Defined.

(** ** A callback that throws *)



Lemma harmless_fire act s h h' : harmless s h' → harmless (fire act s h) h'.
Proof.
  intros (x & Hx & Hc).
  destruct (fire_lookup act s h h' x Hx) as (x' & Hx' & Hcb & He).
  destruct Hc as [Hc|Hp].
  - destruct (decide (h' = h)) as [->|Hne].
    + rewrite fire_cancelled; [by exists x; eauto|].
      unfold isCancelled. by rewrite Hx.
    + exists x'. split; [done|]. left. by rewrite (He Hne).
  - exists x'. split; [done|]. right. by rewrite Hcb.
Qed.

Lemma execute_body_harmless a h s :
  harmless s h →
  (s <- get ;;
   if negb (isCancelled s h)
   then _ <- TriggerHandler.execute h a ;; ret tt
   else ret tt) s
  = Ok (fire (fun x => h_args x ++ a) s h) tt.
Proof.
  intros (x & Hx & Hc). unfold bind at 1, get.
  destruct (isCancelled s h) eqn:Hi; simpl.
  - by rewrite fire_cancelled.
  - unfold isCancelled in Hi. rewrite Hx in Hi.
    destruct Hc as [Hc|Hp]; [congruence|].
    destruct (execute_plain h x a s Hx Hi Hp) as [v Hv].
    by rewrite (bind_Ok _ _ _ _ _ Hv).
Qed.

Lemma poll_body_harmless a h r s :
  harmless s h →
  ∃ r', (s <- get ;;
         if negb (isCancelled s h)
         then v <- TriggerHandler.execute h a ;; ret (r ++ [v])
         else ret r) s
        = Ok (fire (fun x => h_args x ++ a) s h) r'.
Proof.
  intros (x & Hx & Hc). unfold bind at 1, get.
  destruct (isCancelled s h) eqn:Hi; simpl.
  - exists r. by rewrite fire_cancelled.
  - unfold isCancelled in Hi. rewrite Hx in Hi.
    destruct Hc as [Hc|Hp]; [congruence|].
    destruct (execute_plain h x a s Hx Hi Hp) as [v Hv].
    exists (r ++ [v]). by rewrite (bind_Ok _ _ _ _ _ Hv).
Qed.

Lemma for_of_harmless a ids s :
  (∀ h, h ∈ ids → harmless s h) →
  for_of ids (fun handler =>
    s <- get ;;
    if negb (isCancelled s handler)
    then _ <- TriggerHandler.execute handler a ;; ret tt
    else ret tt) s
  = Ok (foldl (fire (fun x => h_args x ++ a)) s ids) tt.
Proof.
  revert s. induction ids as [|h ids IH]; intros s Hv; simpl; [done|].
  rewrite (bind_Ok _ _ _ _ _ (execute_body_harmless a h s (Hv h ltac:(left)))).
  apply IH. intros h' Hh'. apply harmless_fire, Hv. by right.
Qed.

Lemma for_of_acc_harmless a ids r s :
  (∀ h, h ∈ ids → harmless s h) →
  ∃ r', for_of_acc ids r (fun result handler =>
          s <- get ;;
          if negb (isCancelled s handler)
          then v <- TriggerHandler.execute handler a ;; ret (result ++ [v])
          else ret result) s
        = Ok (foldl (fire (fun x => h_args x ++ a)) s ids) r'.
Proof.
  revert s r. induction ids as [|h ids IH]; intros s r Hv; simpl;
    [by exists r|].
  destruct (poll_body_harmless a h r s (Hv h ltac:(left))) as [r1 Hr1].
  rewrite (bind_Ok _ _ _ _ _ Hr1).
  apply IH. intros h' Hh'. apply harmless_fire, Hv. by right.
Qed.



Lemma cancel_returns h s :
  is_Some (hstore s !! h) →
  ∃ s', TriggerHandler.cancel h s = Ok s' tt ∧ trace s' = trace s ∧
        length (hstore s') = length (hstore s).
Proof.
  intros [x Hx]. unfold TriggerHandler.cancel, bind, deref_handler.
  rewrite Hx. simpl. eexists. split; [done|]. simpl.
  by rewrite length_alter.
Qed.

Lemma for_of_cancel_returns cs s :
  (∀ c, c ∈ cs → is_Some (hstore s !! c)) →
  ∃ s', for_of cs TriggerHandler.cancel s = Ok s' tt ∧ trace s' = trace s ∧
        length (hstore s') = length (hstore s).
Proof.
  revert s. induction cs as [|c cs IH]; intros s Hv; simpl; [by exists s|].
  destruct (cancel_returns c s (Hv c ltac:(left))) as (s1 & H1 & T1 & E1).
  rewrite (bind_Ok _ _ _ _ _ H1).
  destruct (IH s1) as (s2 & H2 & T2 & E2).
  { intros c' Hc'. apply lookup_lt_is_Some. rewrite E1.
    apply lookup_lt_is_Some, Hv. by right. }
  exists s2. split; [done|]. split; congruence.
Qed.







(** ** Registration *)

(** X15.  Registration returns a fresh handler built by the constructor
    for the list of the key, appends it at the end of the key's sequence,
    and leaves alone the log, the handlers there were and the sequence of
    every other key. *)
Theorem createHandler_appends m k c a s :
  reachable s →
  ∃ s' l, createHandler m k c a s = Ok s' (length (hstore s)) ∧
    lists_of m s' !! k = Some l ∧
    hstore s' !! length (hstore s) = Some (TriggerHandler.new l c a) ∧
    sequence_of m k s' = sequence_of m k s ++ [length (hstore s)] ∧
    trace s' = trace s ∧
    (∀ h x, hstore s !! h = Some x → hstore s' !! h = Some x) ∧
    (∀ m' k', (m', k') ≠ (m, k) →
       sequence_of m' k' s' = sequence_of m' k' s).
Proof.
  intros Hr. destruct (reachable_regular s Hr) as [Hwf Hs].
  destruct (lists_of m s !! k) as [l|] eqn:Hk.
  - destruct (wf_lists s Hwf m k l Hk) as [L HL].
    rewrite (createHandler_found m k c a s l L Hk HL).
    eexists _, l. split; [done|].
    assert (∀ L', <[l:=L']> (lstore s) !! l = Some L') as Hl'.
    { intros L'. apply list_lookup_insert_eq. by eapply lookup_lt_Some. }
    repeat split.
    + by destruct m.
    + simpl. rewrite lookup_app_r by done. by rewrite Nat.sub_diag.
    + unfold sequence_of. replace (lists_of m (put_list _ _ _))
        with (lists_of m s) by (by destruct m).
      rewrite Hk, HL. simpl. by rewrite Hl'.
    + intros h x Hx. simpl. by apply lookup_app_l_Some.
    + intros m' k' Hne. unfold sequence_of.
      replace (lists_of m' (put_list _ _ _))
        with (lists_of m' s) by (by destruct m').
      destruct (lists_of m' s !! k') as [l'|] eqn:Hk'; [|done].
      simpl. rewrite list_lookup_insert_ne; [done|].
      intros <-. destruct (sound_distinct s Hs m' k' m k l Hk' Hk).
      apply Hne. congruence.
  - rewrite (createHandler_fresh m k c a s Hk).
    eexists _, (length (lstore s)). split; [done|].
    set (n := length (lstore s)).
    assert (∀ L', <[n:=L']> (lstore s ++ [TriggerHandlerList.new k]) !! n
                  = Some L') as Hl'.
    { intros L'. apply list_lookup_insert_eq. rewrite length_app. simpl.
      unfold n. lia. }
    repeat split.
    + destruct m; simpl; by rewrite lookup_insert_eq.
    + destruct m; simpl; rewrite lookup_app_r by done;
        by rewrite Nat.sub_diag.
    + unfold sequence_of. rewrite Hk.
      replace (lists_of m (put_list _ _ _) !! k) with (Some n)
        by (destruct m; simpl; by rewrite lookup_insert_eq).
      replace (lstore (put_list _ _ _))
        with (<[n:=mkList [length (hstore s)] false false false k]>
                (lstore s ++ [TriggerHandlerList.new k]))
        by (by destruct m).
      by rewrite Hl'.
    + by destruct m.
    + intros h x Hx. destruct m; simpl; by apply lookup_app_l_Some.
    + intros m' k' Hne. unfold sequence_of.
      assert (lists_of m' (put_list n
                (mkList [length (hstore s)] false false false k)
                (with_hstore
                   (fun hs => hs ++ [TriggerHandler.new n c a])
                   (with_lists m (insert k n)
                      (with_lstore
                         (fun ls => ls ++ [TriggerHandlerList.new k]) s))))
              !! k' = lists_of m' s !! k') as ->.
      { destruct m, m'; simpl; try done;
          (rewrite lookup_insert_ne; [done|]; intros ->; by apply Hne). }
      destruct (lists_of m' s !! k') as [l'|] eqn:Hk'; [|done].
      destruct (wf_lists s Hwf m' k' l' Hk') as [L' HL'].
      replace (lstore (put_list _ _ _))
        with (<[n:=mkList [length (hstore s)] false false false k]>
                (lstore s ++ [TriggerHandlerList.new k]))
        by (by destruct m).
      rewrite list_lookup_insert_ne
        by (apply lookup_lt_Some in HL'; unfold n; lia).
      by rewrite (lookup_app_l_Some _ _ _ _ HL'), HL'.
Qed.

(** The theorem on a fourth registration on the key of [once_scenario]. *)
Lemma createHandler_appends_witness :
  ∃ s' l,
    createHandler Handlers (VStr "x") (returning VNull) [VNum 1]
      (steps once_scenario init)
    = Ok s' (length (hstore (steps once_scenario init))) ∧
    lists_of Handlers s' !! VStr "x" = Some l ∧
    hstore s' !! length (hstore (steps once_scenario init))
    = Some (TriggerHandler.new l (returning VNull) [VNum 1]) ∧
    sequence_of Handlers (VStr "x") s'
    = sequence_of Handlers (VStr "x") (steps once_scenario init)
      ++ [length (hstore (steps once_scenario init))] ∧
    trace s' = trace (steps once_scenario init) ∧
    (∀ h x, hstore (steps once_scenario init) !! h = Some x →
            hstore s' !! h = Some x) ∧
    (∀ m' k', (m', k') ≠ (Handlers, VStr "x") →
       sequence_of m' k' s' = sequence_of m' k' (steps once_scenario init)).
Proof.
  apply (createHandler_appends Handlers (VStr "x") (returning VNull) [VNum 1]
           (steps once_scenario init)).
  by exists once_scenario.
Defined.

(** ** Cancelling *)

#[local] Instance same_sequences_refl : Reflexive same_sequences.
Proof. by intros s. Qed.

#[local] Instance same_sequences_trans : Transitive same_sequences.
Proof.
  intros s1 s2 s3 (?&?&H12) (?&?&H23).
  split; [congruence|]. split; [congruence|]. intros l. by rewrite H23.
Qed.

Lemma same_sequences_of s s' m k :
  same_sequences s s' → sequence_of m k s' = sequence_of m k s.
Proof.
  intros (Hh & Hm & Hl). unfold sequence_of.
  replace (lists_of m s') with (lists_of m s) by (destruct m; simpl; congruence).
  destruct (lists_of m s !! k) as [l|]; [|done].
  specialize (Hl l).
  by destruct (lstore s' !! l), (lstore s !! l); simplify_eq/=.
Qed.

Lemma same_sequences_alter f l s s' :
  handlers s' = handlers s → modifiers s' = modifiers s →
  lstore s' = alter f l (lstore s) →
  (∀ L, l_handlers (f L) = l_handlers L) →
  same_sequences s s'.
Proof.
  intros Hh Hm Hl Hf. split; [done|]. split; [done|]. intros l'. rewrite Hl.
  destruct (decide (l' = l)) as [->|Hne].
  - rewrite list_lookup_alter_eq. destruct (lstore s !! l); simpl; [|done].
    by rewrite Hf.
  - by rewrite list_lookup_alter_ne.
Qed.

Lemma same_sequences_cancel h : sat same_sequences (TriggerHandler.cancel h).
Proof.
  intros s. unfold TriggerHandler.cancel, bind, deref_handler.
  destruct (hstore s !! h) as [x|]; simpl; [|reflexivity].
  by apply (same_sequences_alter (set_needsPurge true) (h_list x)).
Qed.

Lemma same_sequences_log h actuals :
  sat same_sequences (update (with_trace (fun t => t ++ [(h, actuals)]))).
Proof. by intros s. Qed.

Lemma isCancelled_cancel h c s :
  is_Some (hstore s !! c) →
  isCancelled (state_of (TriggerHandler.cancel c s)) h
  = if decide (h = c) then true else isCancelled s h.
Proof.
  intros [x Hx]. unfold TriggerHandler.cancel, bind, deref_handler.
  rewrite Hx. simpl. unfold isCancelled. simpl.
  case_decide as Hd.
  - subst. by rewrite list_lookup_alter_eq, Hx.
  - by rewrite list_lookup_alter_ne.
Qed.

Lemma for_of_cancel_state cs s :
  (∀ c, c ∈ cs → is_Some (hstore s !! c)) →
  ∀ h, isCancelled (state_of (for_of cs TriggerHandler.cancel s)) h
       = if decide (h ∈ cs) then true else isCancelled s h.
Proof.
  revert s. induction cs as [|c cs IH]; intros s Hv h; simpl.
  { done. }
  destruct (cancel_returns c s (Hv c ltac:(left))) as (s1 & H1 & T1 & E1).
  pose proof (isCancelled_cancel h c s (Hv c ltac:(left))) as Hc.
  rewrite H1 in Hc. simpl in Hc.
  rewrite (bind_Ok _ _ _ _ _ H1), IH.
  - rewrite Hc.
    destruct (decide (h ∈ cs)) as [H2|H2], (decide (h = c)) as [H3|H3],
             (decide (h ∈ c :: cs)) as [H4|H4]; try done; exfalso;
      try (apply H4; subst; by constructor);
      apply elem_of_cons in H4 as [|]; done.
  - intros c' Hc'. apply lookup_lt_is_Some. rewrite E1.
    apply lookup_lt_is_Some, Hv. by right.
Qed.

Lemma clear_state l L s :
  lstore s !! l = Some L →
  state_of (TriggerHandlerList.clear l s)
  = state_of (for_of (l_handlers L) TriggerHandler.cancel s).
Proof.
  intros HL. unfold TriggerHandlerList.clear.
  rewrite (bind_Ok _ _ s s L) by (unfold deref_list; by rewrite HL).
  unfold bind. by destruct (for_of _ _ s).
Qed.

(** X16.  What [clearTrigger] does before it throws: it cancels the
    broadcast handlers registered under the key and no others (the
    transform handlers of the key stay active), calls nothing, and leaves
    every sequence as it is. *)
Theorem clearTrigger_cancels_broadcast_handlers k s :
  reachable s →
  trace (step (OClearTrigger k) s) = trace s ∧
  (∀ m' k', sequence_of m' k' (step (OClearTrigger k) s)
            = sequence_of m' k' s) ∧
  ∀ h, isCancelled (step (OClearTrigger k) s) h = true ↔
       isCancelled s h = true ∨ registered_under Handlers k s h.
Proof.
  intros Hr. pose proof (reachable_regular s Hr) as Hreg.
  pose proof Hreg as [Hwf Hs]. rewrite clearTrigger_state.
  destruct (handlers s !! k) as [l|] eqn:Hk.
  - destruct (wf_lists s Hwf Handlers k l Hk) as [L HL].
    rewrite (clear_state l L s HL).
    assert (∀ c, c ∈ l_handlers L → is_Some (hstore s !! c)) as Hv.
    { intros c Hc. destruct (wf_member s Hwf l L c HL Hc) as (x & Hx & _).
      eauto. }
    split; [|split].
    + destruct (for_of_cancel_returns (l_handlers L) s Hv) as (s' & -> & T & _).
      done.
    + intros m' k'. apply same_sequences_of.
      apply (sat_for_of same_sequences). apply same_sequences_cancel.
    + intros h. rewrite (for_of_cancel_state _ s Hv). case_decide as Hin.
      * split; [|done]. intros _. right.
        by apply (listed_registered Handlers k s l L).
      * split; [by left|]. intros [Hc|Hreg']; [done|].
        destruct (isCancelled s h) eqn:Hc; [done|]. exfalso. apply Hin.
        pose proof (registered_listed Handlers k s h Hreg Hreg' Hc) as Hl.
        by rewrite (sequence_of_lookup Handlers k s l L Hk HL) in Hl.
  - split; [done|]. split; [done|]. intros h. split; [by left|].
    intros [Hc|(x & _ & Hx)]; [done|]. simpl in Hx. congruence.
Qed.

(** The theorem on [clearTrigger("x")] in [keys_scenario]. *)
Lemma clearTrigger_cancels_broadcast_handlers_witness :
  trace (step (OClearTrigger (VStr "x")) (steps keys_scenario init))
  = trace (steps keys_scenario init) ∧
  (∀ m' k', sequence_of m' k'
              (step (OClearTrigger (VStr "x")) (steps keys_scenario init))
            = sequence_of m' k' (steps keys_scenario init)) ∧
  ∀ h, isCancelled
         (step (OClearTrigger (VStr "x")) (steps keys_scenario init)) h = true ↔
       isCancelled (steps keys_scenario init) h = true ∨
       registered_under Handlers (VStr "x") (steps keys_scenario init) h.
Proof.
  apply (clearTrigger_cancels_broadcast_handlers (VStr "x")
           (steps keys_scenario init)).
  by exists keys_scenario.
Defined.

Lemma sorted_list_clean s L :
  l_needsPriorityUpdate L = false → sorted_list s L = L.
Proof. intros Hn. unfold sorted_list. by rewrite Hn. Qed.

Lemma same_sequences_execute h a :
  sat same_sequences (TriggerHandler.execute h a).
Proof.
  apply (rule_handler_execute same_sequences);
    [apply same_sequences_cancel|apply same_sequences_log].
Qed.

Lemma same_sequences_modify h v a :
  sat same_sequences (TriggerHandler.modify h v a).
Proof.
  apply (rule_handler_modify same_sequences);
    [apply same_sequences_cancel|apply same_sequences_log].
Qed.

Lemma same_sequences_list_execute l a s L :
  lstore s !! l = Some L → l_needsPriorityUpdate L = false →
  same_sequences s (state_of (TriggerHandlerList.execute l a s)).
Proof.
  intros HL Hn. rewrite (execute_unfold l a s L HL).
  rewrite (sorted_list_clean s L Hn), (put_list_same l L s HL).
  apply (sat_for_of same_sequences). intros h.
  apply (sat_get_bind same_sequences). intros s1.
  destruct (negb (isCancelled s1 h)); [|reflexivity].
  rewrite (state_of_bind_ret _ (fun _ => tt)). apply same_sequences_execute.
Qed.

Lemma same_sequences_list_modify l v a s L :
  lstore s !! l = Some L → l_needsPriorityUpdate L = false →
  same_sequences s (state_of (TriggerHandlerList.modify l v a s)).
Proof.
  intros HL Hn. rewrite (modify_unfold l v a s L HL).
  rewrite (sorted_list_clean s L Hn), (put_list_same l L s HL).
  apply (sat_for_of_acc same_sequences). intros r h.
  apply (sat_get_bind same_sequences). intros s1.
  destruct (negb (isCancelled s1 h)); [|reflexivity].
  apply same_sequences_modify.
Qed.

(** X17.  [execute], [Trigger] and [modify] remove nothing from a
    sequence unless a sort is due on the list of the key: cancelled
    handlers, one-shot handlers that have fired included, stay where they
    are until a poll or a sort takes them out.  This holds whether the
    callbacks return, throw or cancel handlers. *)
Theorem execute_and_modify_never_purge s m k o :
  reachable s → dispatches_to m k o → (∀ k' a', o ≠ OPoll k' a') →
  (∀ l L, lists_of m s !! k = Some l → lstore s !! l = Some L →
          l_needsPriorityUpdate L = false) →
  ∀ m' k', sequence_of m' k' (step o s) = sequence_of m' k' s.
Proof.
  intros Hr Ho Hnp Hclean m' k'. pose proof (reachable_wf s Hr) as Hwf.
  destruct (lists_of m s !! k) as [l|] eqn:Hk;
    [|by rewrite (dispatch_missing m k o s Ho Hk)].
  destruct (wf_lists s Hwf m k l Hk) as [L HL].
  pose proof (Hclean l L eq_refl HL) as Hn.
  apply same_sequences_of.
  destruct m, o; simpl in Ho; try done; subst; simpl in Hk; simpl.
  - unfold Trigger.Trigger. rewrite (state_of_bind_ret _ (fun _ => tt)).
    rewrite (execute_found _ _ _ _ Hk).
    by apply (same_sequences_list_execute l args s L).
  - rewrite (execute_found _ _ _ _ Hk).
    by apply (same_sequences_list_execute l args s L).
  - by destruct (Hnp k args).
  - rewrite (modify_found _ _ _ _ _ Hk).
    rewrite (state_of_bind_ret _ (fun r => if nullish r then input else r)).
    by apply (same_sequences_list_modify l input args s L).
Qed.

(** The theorem on [once_scenario] after a first broadcast: the one-shot
    handler has fired and is cancelled, and a second broadcast leaves it
    in the sequence. *)
Lemma execute_and_modify_never_purge_witness :
  sequence_of Handlers (VStr "x")
    (step (OExecute (VStr "x") [])
       (steps (once_scenario ++ [OExecute (VStr "x") []]) init))
  = sequence_of Handlers (VStr "x")
      (steps (once_scenario ++ [OExecute (VStr "x") []]) init).
Proof.
  apply (execute_and_modify_never_purge
           (steps (once_scenario ++ [OExecute (VStr "x") []]) init)
           Handlers (VStr "x") (OExecute (VStr "x") [])).
  - by exists (once_scenario ++ [OExecute (VStr "x") []]).
  - reflexivity.
  - intros k' a'. discriminate.
  - intros l L Hk HL. vm_compute in Hk. injection Hk as <-.
    vm_compute in HL. injection HL as <-. reflexivity.
Defined.

Lemma cancel_unfold h x s :
  hstore s !! h = Some x →
  TriggerHandler.cancel h s
  = Ok (with_lstore (alter (set_needsPurge true) (h_list x))
          (with_hstore (alter (set_cancelled true) h) s)) tt.
Proof.
  intros Hx. unfold TriggerHandler.cancel, bind, deref_handler.
  by rewrite Hx.
Qed.

(** X18.  Cancelling is idempotent: a second [cancel] of the same handler
    changes nothing. *)
Theorem cancel_is_idempotent h s :
  step (OCancel h) (step (OCancel h) s) = step (OCancel h) s.
Proof.
  simpl. destruct (hstore s !! h) as [x|] eqn:Hx.
  - rewrite (cancel_unfold h x s Hx). simpl.
    erewrite cancel_unfold
      by (simpl; by rewrite list_lookup_alter_eq, Hx).
    simpl. unfold with_lstore, with_hstore. simpl. f_equal.
    + rewrite list_alter_alter_eq. apply list_alter_ext; [|done].
      by intros [].
    + rewrite list_alter_alter_eq. apply list_alter_ext; [|done].
      by intros [].
  - assert (TriggerHandler.cancel h s = Throw s BadRef) as H
      by (unfold TriggerHandler.cancel, bind, deref_handler; by rewrite Hx).
    rewrite H. simpl. by rewrite H.
Qed.

(** ** Dispatch and cancellation *)

Lemma for_of_skip xs (f : HandlerRef → M unit) s :
  (∀ h, h ∈ xs → isCancelled s h = true) →
  for_of xs (fun handler =>
    s <- get ;;
    if negb (isCancelled s handler) then f handler else ret tt) s
  = Ok s tt.
Proof.
  induction xs as [|x xs IH]; intros Hc; simpl; [done|].
  unfold bind at 1 2, get. rewrite (Hc x) by left. simpl.
  apply IH. intros h Hh. apply Hc. by right.
Qed.

(** X19.  A key all of whose broadcast handlers are cancelled behaves
    like a key without handlers, whatever its callbacks are: [execute]
    and [poll] return without calling anything, [poll] returns the empty
    sequence, and after [poll] the key's sequence is empty. *)
Theorem dispatch_on_cancelled_handlers k a s :
  reachable s →
  (∀ h, registered_under Handlers k s h → isCancelled s h = true) →
  (∃ s', Trigger.execute k a s = Ok s' tt ∧ trace s' = trace s) ∧
  (∃ s', Trigger.poll k a s = Ok s' [] ∧ trace s' = trace s ∧
         sequence_of Handlers k s' = []).
Proof.
  intros Hr Hall. pose proof (reachable_wf s Hr) as Hwf.
  destruct (handlers s !! k) as [l|] eqn:Hk.
  - destruct (wf_lists s Hwf Handlers k l Hk) as [L HL].
    assert (∀ h, h ∈ l_handlers (sorted_list s L) →
              isCancelled (put_list l (sorted_list s L) s) h = true) as Hc.
    { intros h Hh%sorted_list_handlers. apply Hall.
      by apply (listed_registered Handlers k s l L). }
    split.
    + rewrite (execute_found k a s l Hk), (execute_unfold l a s L HL).
      rewrite (for_of_skip _ (fun handler =>
                 _ <- TriggerHandler.execute handler a ;; ret tt) _ Hc).
      by eexists.
    + pose proof (wf_step (OPoll k a) s Hwf) as Hwf'. simpl in Hwf'.
      rewrite (poll_found k a s l Hk) in *.
      rewrite (poll_unfold l a s L HL) in *.
      rewrite (bind_Ok _ _ _ _ _
                 (for_of_acc_skip _ [] (fun handler result =>
                    v <- TriggerHandler.execute handler a ;;
                    ret (result ++ [v])) _ Hc)) in *.
      assert (lstore (put_list l (sorted_list s L) s) !! l
              = Some (sorted_list s L)) as HL0
        by (apply lookup_put_list; eauto).
      rewrite (bind_Ok _ _ _ _ _ (purge_spec l _ _ HL0)) in *.
      simpl in Hwf'. eexists. split; [done|]. split; [done|].
      set (s0 := put_list l (sorted_list s L) s) in *.
      set (L1 := purged_list s0 (sorted_list s L)) in *.
      assert (lstore (put_list l L1 s0) !! l = Some L1) as HL1
        by (apply lookup_put_list; eauto).
      rewrite (sequence_of_lookup Handlers k (put_list l L1 s0) l L1 Hk HL1).
      destruct (l_handlers L1) as [|h hs] eqn:Hh; [done|]. exfalso.
      assert (h ∈ l_handlers L1) as Hin by (rewrite Hh; by left).
      assert (l_needsPurge L1 = false) as Hp.
      { unfold L1, purged_list.
        by destruct (l_needsPurge (sorted_list s L)) eqn:E. }
      pose proof (wf_purged _ Hwf' l L1 h HL1 Hp Hin) as Hact.
      apply purged_list_handlers in Hin. specialize (Hc h Hin).
      unfold isCancelled in *. simpl in *. congruence.
  - split.
    + exists s. unfold Trigger.execute, getHandlerList, bind, get.
      cbn [lists_of]. by rewrite Hk.
    + exists s. unfold Trigger.poll, getHandlerList, bind, get, sequence_of.
      cbn [lists_of]. by rewrite Hk.
Qed.

(** The theorem on [cancelled_scenario], whose only handler is
    cancelled. *)
Lemma dispatch_on_cancelled_handlers_witness :
  (∃ s', Trigger.execute (VStr "x") [] (steps cancelled_scenario init)
         = Ok s' tt ∧ trace s' = trace (steps cancelled_scenario init)) ∧
  (∃ s', Trigger.poll (VStr "x") [] (steps cancelled_scenario init)
         = Ok s' [] ∧ trace s' = trace (steps cancelled_scenario init) ∧
         sequence_of Handlers (VStr "x") s' = []).
Proof.
  apply (dispatch_on_cancelled_handlers (VStr "x") []
           (steps cancelled_scenario init)).
  - by exists cancelled_scenario.
  - intros h (x & Hx & _). unfold isCancelled. rewrite Hx.
    apply list_elem_of_lookup_2 in Hx. vm_compute in Hx.
    apply elem_of_cons in Hx as [->|Hx]; [reflexivity|inversion Hx].
Defined.

Lemma isOnce_fire act s h h' : isOnce (fire act s h) h' = isOnce s h'.
Proof.
  unfold isOnce, fire. destruct (hstore s !! h) as [y|] eqn:Hy; [|done].
  destruct (h_cancelled y); [done|].
  destruct (h_once y); simpl; [|done].
  destruct (decide (h' = h)) as [->|Hne].
  - by rewrite list_lookup_alter_eq, Hy.
  - by rewrite list_lookup_alter_ne.
Qed.

Lemma isCancelled_fire act s h :
  isCancelled (fire act s h) h = isCancelled s h || isOnce s h.
Proof.
  unfold isCancelled, isOnce, fire.
  destruct (hstore s !! h) as [y|] eqn:Hy; [|by rewrite Hy].
  destruct (h_cancelled y) eqn:Hc; [by rewrite Hy, Hc|].
  destruct (h_once y); simpl.
  - by rewrite list_lookup_alter_eq, Hy.
  - by rewrite Hy, Hc.
Qed.

Lemma isCancelled_foldl_fire act ids s h :
  isCancelled (foldl (fire act) s ids) h
  = isCancelled s h || (bool_decide (h ∈ ids) && isOnce s h).
Proof.
  revert s. induction ids as [|h' ids IH]; intros s; simpl.
  { by rewrite orb_false_r. }
  rewrite IH, isOnce_fire. destruct (decide (h = h')) as [<-|Hne].
  - rewrite isCancelled_fire.
    rewrite (bool_decide_eq_true_2 (h ∈ h :: ids)) by (by left).
    by destruct (isCancelled s h), (isOnce s h), (bool_decide (h ∈ ids)).
  - rewrite fire_isCancelled by done. do 2 f_equal.
    apply bool_decide_ext. rewrite elem_of_cons. tauto.
Qed.

Lemma dispatch_hstore m K o l L s :
  wf s → plain_callbacks s → dispatches_to m K o →
  lists_of m s !! K = Some l → lstore s !! l = Some L →
  ∃ act, hstore (step o s)
         = hstore (foldl (fire act) (put_list l (sorted_list s L) s)
                     (l_handlers (sorted_list s L))).
Proof.
  intros Hwf Hp Ho Hk HL.
  assert (∀ h, h ∈ l_handlers (sorted_list s L) →
            is_Some (hstore (put_list l (sorted_list s L) s) !! h)) as Hv
    by (intros h Hh; by apply (traversal_valid l L s h)).
  destruct m, o; simpl in Ho; try done; subst; simpl in Hk; simpl.
  - exists (fun x => h_args x ++ args). unfold Trigger.Trigger.
    rewrite (state_of_bind_ret _ (fun _ => tt)).
    rewrite (execute_found _ _ _ _ Hk), (execute_unfold l args s L HL).
    by rewrite for_of_plain.
  - exists (fun x => h_args x ++ args).
    rewrite (execute_found _ _ _ _ Hk), (execute_unfold l args s L HL).
    by rewrite for_of_plain.
  - exists (fun x => h_args x ++ args).
    rewrite (poll_found _ _ _ _ Hk), (poll_unfold l args s L HL).
    destruct (for_of_acc_poll_plain args (l_handlers (sorted_list s L)) []
                (put_list l (sorted_list s L) s) Hp Hv) as [r Hr].
    rewrite (bind_Ok _ _ _ _ _ Hr).
    destruct (foldl_fire_lstore (fun x => h_args x ++ args)
                (l_handlers (sorted_list s L))
                (put_list l (sorted_list s L) s) l) as [L2 HL2].
    { rewrite lookup_put_list; eauto. }
    by rewrite (bind_Ok _ _ _ _ _ (purge_spec l _ L2 HL2)).
  - exists (fun x => input :: h_args x ++ args).
    rewrite (modify_found _ _ _ _ _ Hk).
    rewrite (state_of_bind_ret _ (fun r => if nullish r then input else r)).
    rewrite (modify_unfold l input args s L HL).
    destruct (for_of_acc_modify_plain input args
                (l_handlers (sorted_list s L)) input
                (put_list l (sorted_list s L) s) Hp Hv) as [r Hr].
    by rewrite Hr.
Qed.

(** X20.  When the callbacks return normally and cancel nothing, a
    dispatch cancels exactly the one-shot handlers it calls: afterwards a
    handler is cancelled if and only if it was cancelled before, or it was
    called and its [once] flag was set. *)
Theorem dispatch_cancels_one_shot_handlers s m k o h :
  reachable s → plain_callbacks s → dispatches_to m k o →
  isCancelled (step o s) h = true ↔
  isCancelled s h = true ∨ (h ∈ calls s (step o s) ∧ isOnce s h = true).
Proof.
  intros Hr Hp Ho. pose proof (reachable_wf s Hr) as Hwf.
  destruct (lists_of m s !! k) as [l|] eqn:Hk.
  - destruct (wf_lists s Hwf m k l Hk) as [L HL].
    rewrite (dispatch_calls m k o l L s Hwf Hp Ho Hk HL).
    destruct (dispatch_hstore m k o l L s Hwf Hp Ho Hk HL) as [act Hh].
    assert (isCancelled (step o s) h
            = isCancelled s h
              || (bool_decide (h ∈ l_handlers (sorted_list s L))
                  && isOnce s h)) as ->.
    { transitivity
        (isCancelled (foldl (fire act) (put_list l (sorted_list s L) s)
                        (l_handlers (sorted_list s L))) h).
      - unfold isCancelled. by rewrite Hh.
      - by rewrite isCancelled_foldl_fire. }
    rewrite orb_true_iff, andb_true_iff, bool_decide_eq_true.
    rewrite list_elem_of_filter, negb_true_iff.
    destruct (isCancelled s h); [by split; left|]. tauto.
  - rewrite (dispatch_missing m k o s Ho Hk), calls_refl.
    split; [by left|]. intros [?|[?%elem_of_nil _]]; done.
Qed.

(** The theorem on a broadcast in [once_scenario]: the one-shot handler
    is called and is cancelled afterwards. *)
Lemma dispatch_cancels_one_shot_handlers_witness :
  isCancelled (step (OExecute (VStr "x") []) (steps once_scenario init)) 1
  = true ↔
  isCancelled (steps once_scenario init) 1 = true ∨
  (1%nat ∈ calls (steps once_scenario init)
             (step (OExecute (VStr "x") []) (steps once_scenario init)) ∧
   isOnce (steps once_scenario init) 1 = true).
Proof.
  apply (dispatch_cancels_one_shot_handlers (steps once_scenario init)
           Handlers (VStr "x") (OExecute (VStr "x") []) 1).
  - by exists once_scenario.
  - plain_by_evaluation.
  - reflexivity.
Defined.

(** ** Handlers cancelled by a callback *)

#[local] Instance hushed_refl : Reflexive hushed.
Proof. intros s. split; [reflexivity|]. by repeat split. Qed.

#[local] Instance hushed_trans : Transitive hushed.
Proof.
  intros s1 s2 s3 (S12 & E12 & M12 & T12) (S23 & E23 & M23 & T23).
  split; [by etrans|]. split; [congruence|]. split; [by auto|congruence].
Qed.

Lemma hushed_cancel h : sat hushed (TriggerHandler.cancel h).
Proof.
  intros s. split; [apply settled_cancel|].
  unfold TriggerHandler.cancel, bind, deref_handler.
  destruct (hstore s !! h) as [x|] eqn:Hx; simpl; [|done].
  split; [by rewrite length_alter|]. split; [|done].
  intros h'. unfold isCancelled. simpl.
  destruct (decide (h' = h)) as [->|Hne].
  - by rewrite list_lookup_alter_eq, Hx.
  - by rewrite list_lookup_alter_ne.
Qed.

Lemma hushed_lists s s' :
  hstore s' = hstore s → trace s' = trace s → hushed s s'.
Proof.
  intros Hh Ht. split; [apply (stable_app []); by rewrite app_nil_r|].
  split; [by rewrite Hh|]. split; [|done].
  intros h. unfold isCancelled. by rewrite Hh.
Qed.

Lemma hushed_purge l : sat hushed (TriggerHandlerList.purge l).
Proof.
  intros s. apply hushed_lists;
    (destruct (lstore s !! l) as [L|] eqn:HL;
      [by rewrite (purge_spec l s L HL)
      |unfold TriggerHandlerList.purge, bind, deref_list; by rewrite HL]).
Qed.

Lemma hushed_updatePriorities l :
  sat hushed (TriggerHandlerList.updatePriorities l).
Proof.
  intros s. apply hushed_lists;
    (destruct (lstore s !! l) as [L|] eqn:HL;
      [by rewrite (updatePriorities_spec l s L HL)
      |unfold TriggerHandlerList.updatePriorities, bind, deref_list;
       by rewrite HL]).
Qed.

Lemma hushed_guarded s s' : hushed s s' → guarded s s'.
Proof.
  intros (Hs & He & Hm & Ht). split; [done|]. split; [done|]. split; [done|].
  exists []. split; [by rewrite app_nil_r|]. split.
  - by intros h ?%elem_of_nil.
  - intros t1 h act t2 x f Habs. by destruct t1.
Qed.

#[local] Instance guarded_refl : Reflexive guarded.
Proof. intros s. apply hushed_guarded. reflexivity. Qed.

#[local] Instance guarded_trans : Transitive guarded.
Proof.
  intros s1 s2 s3 (S12 & E12 & M12 & t12 & T12 & A12 & C12)
                  (S23 & E23 & M23 & t23 & T23 & A23 & C23).
  split; [by etrans|]. split; [congruence|]. split; [by auto|].
  exists (t12 ++ t23). split; [by rewrite T23, T12, app_assoc|].
  assert (∀ h, h ∈ t23.*1 → isCancelled s1 h = false) as A13.
  { intros h Hh. specialize (A23 h Hh).
    destruct (isCancelled s1 h) eqn:Hc; [|done].
    rewrite (M12 h Hc) in A23. done. }
  split.
  { intros h. rewrite fmap_app, elem_of_app. intros [?|?]; auto. }
  intros t1 h act t2 x f Ht Hx Hf Hv c Hc.
  assert (∀ c, c ∈ cancels (f act) → is_Some (hstore s2 !! c)) as Hv2.
  { intros c' Hc'. apply lookup_lt_is_Some. rewrite E12.
    by apply lookup_lt_is_Some, Hv. }
  destruct (S12 h x Hx) as (x2 & Hx2 & Hcb & _). pose proof Hf as Hf1.
  rewrite <- Hcb in Hf.
  apply app_eq_app in Ht as [l [[H1 H2]|[H1 H2]]].
  - destruct l as [|p l]; simpl in H2.
    + rewrite app_nil_r in H1. subst t12.
      apply (C23 [] h act t2 x2 f); try done; by rewrite H2.
    + injection H2 as <- ->.
      destruct (C12 t1 h act l x f H1 Hx Hf1 Hv c Hc) as [Hcc Hnot].
      split; [by apply M23|].
      rewrite fmap_app, elem_of_app. intros [?|Hin]; [done|].
      specialize (A23 c Hin). congruence.
  - apply (C23 l h act t2 x2 f); done.
Qed.

Lemma state_of_completion {A} (m : M A) (c : Completion) s :
  state_of ((m ;; match c with
                  | Return v => ret v
                  | Raise v => throw (Thrown v)
                  end) s)
  = state_of (m s).
Proof. unfold bind. destruct (m s); [by destruct c|done]. Qed.

Lemma guarded_invoke h x actuals s :
  hstore s !! h = Some x → h_cancelled x = false →
  guarded s
    (state_of ((when (h_once x) (TriggerHandler.cancel h) ;;
                TriggerHandler.call h (h_callback x) actuals) s)).
Proof.
  intros Hx Hc. unfold bind at 1.
  pose proof (sat_when hushed (h_once x) _ (hushed_cancel h) s) as H1.
  destruct (when (h_once x) (TriggerHandler.cancel h) s) as [s1 []|s1 e];
    simpl in H1; [|by apply hushed_guarded].
  destruct (h_callback x) as [f|v] eqn:Hf; simpl;
    [|by apply hushed_guarded].
  unfold bind at 1, update. rewrite state_of_completion.
  set (s2 := with_trace (fun t => t ++ [(h, actuals)]) s1).
  pose proof (sat_for_of hushed (cancels (f actuals)) _ hushed_cancel s2)
    as H3.
  destruct H1 as (S1 & E1 & M1 & T1). destruct H3 as (S3 & E3 & M3 & T3).
  assert (stable s1 s2) as S2
    by (apply (stable_app []); simpl; by rewrite app_nil_r).
  split; [by etrans; [exact S1|etrans]|].
  split; [rewrite E3; simpl; by rewrite E1|].
  split; [intros h' Hh'; by apply M3, (M1 h')|].
  exists [(h, actuals)]. split; [rewrite T3; simpl; by rewrite T1|].
  split.
  { intros h' Hh'. simpl in Hh'. apply list_elem_of_singleton in Hh'.
    subst h'. unfold isCancelled. by rewrite Hx. }
  intros t1 h' act t2 x' f' Ht Hx' Hf' Hv c Hcin.
  destruct t1 as [|p t1]; simpl in Ht;
    [|injection Ht as _ Ht; by destruct t1].
  injection Ht as <- <- <-. assert (x' = x) as -> by congruence.
  assert (f' = f) as -> by congruence. split; [|by intros ?%elem_of_nil].
  rewrite (for_of_cancel_state (cancels (f actuals)) s2).
  - by rewrite decide_True.
  - intros c' Hc'. apply lookup_lt_is_Some. simpl. rewrite E1.
    by apply lookup_lt_is_Some, Hv.
Qed.

Lemma guarded_execute h a s :
  isCancelled s h = false →
  guarded s (state_of (TriggerHandler.execute h a s)).
Proof.
  intros Hc. unfold TriggerHandler.execute, bind at 1, deref_handler.
  destruct (hstore s !! h) as [x|] eqn:Hx; simpl; [|reflexivity].
  apply guarded_invoke; [done|]. unfold isCancelled in Hc. by rewrite Hx in Hc.
Qed.

Lemma guarded_modify h v a s :
  isCancelled s h = false →
  guarded s (state_of (TriggerHandler.modify h v a s)).
Proof.
  intros Hc. unfold TriggerHandler.modify, bind at 1, deref_handler.
  destruct (hstore s !! h) as [x|] eqn:Hx; simpl; [|reflexivity].
  apply guarded_invoke; [done|]. unfold isCancelled in Hc. by rewrite Hx in Hc.
Qed.

Lemma guarded_dispatch o s : dispatch o → guarded s (step o s).
Proof.
  intros Ho. destruct o; try done; simpl.
  - apply (rule_Trigger guarded args);
      [intros l s0; apply hushed_guarded, hushed_updatePriorities
      |intros h s0; apply guarded_execute].
  - apply (rule_execute guarded args);
      [intros l s0; apply hushed_guarded, hushed_updatePriorities
      |intros h s0; apply guarded_execute].
  - apply (rule_poll guarded args);
      [intros l s0; apply hushed_guarded, hushed_purge
      |intros l s0; apply hushed_guarded, hushed_updatePriorities
      |intros h s0; apply guarded_execute].
  - apply (rule_modify guarded args input);
      [intros l s0; apply hushed_guarded, hushed_updatePriorities
      |intros h s0; apply guarded_modify].
Qed.

(** X21.  A handler that a callback cancels while a dispatch is under way
    is not called in what is left of that dispatch: the traversals test
    [isCancelled] as they reach each handler, not when they start.  For
    every call the dispatch makes whose callback cancels handlers that
    exist, each of them is cancelled when the dispatch ends and is not
    called after that call. *)
Theorem cancelled_by_callback_is_skipped o s t1 h act t2 x f c :
  dispatch o →
  trace (step o s) = trace s ++ t1 ++ (h, act) :: t2 →
  hstore s !! h = Some x → h_callback x = Fn f →
  (∀ c', c' ∈ cancels (f act) → is_Some (hstore s !! c')) →
  c ∈ cancels (f act) →
  isCancelled (step o s) c = true ∧ c ∉ t2.*1.
Proof.
  intros Ho Ht Hx Hf Hv Hc.
  destruct (guarded_dispatch o s Ho) as (_ & _ & _ & t & Ht' & _ & Hg).
  rewrite Ht' in Ht. apply app_inv_head in Ht.
  by apply (Hg t1 h act t2 x f).
Qed.

(** The theorem on a broadcast in [reentrant_scenario]: the first handler
    cancels the third, which is then not called. *)
Lemma cancelled_by_callback_is_skipped_witness :
  isCancelled (step (OExecute (VStr "x") []) (steps reentrant_scenario init))
    2 = true ∧
  2%nat ∉ [(1%nat, @nil Value)].*1.
Proof.
  apply (cancelled_by_callback_is_skipped (OExecute (VStr "x") [])
           (steps reentrant_scenario init) [] 0 [] [(1%nat, [])]
           (mkHandler false 0 [] (cancelling [2%nat] (VStr "A")) 0 false)
           (fun _ => mkEffect [2%nat] (Return (VStr "A"))) 2).
  - exact I.
  - vm_compute; reflexivity.
  - vm_compute; reflexivity.
  - reflexivity.
  - intros c' ->%list_elem_of_singleton. vm_compute. eauto.
  - simpl. by left.
Defined.

(** ** The order after a dispatch *)

#[local] Instance flag_down_refl l : Reflexive (flag_down l).
Proof. intros s L HL Hn. eauto. Qed.

#[local] Instance flag_down_trans l : Transitive (flag_down l).
Proof.
  intros s1 s2 s3 H12 H23 L HL Hn.
  destruct (H12 L HL Hn) as (L2 & HL2 & Hn2). eauto.
Qed.

Lemma flag_down_alter f l0 l s s' :
  lstore s' = alter f l0 (lstore s) →
  (∀ L, l_needsPriorityUpdate (f L) = l_needsPriorityUpdate L) →
  flag_down l s s'.
Proof.
  intros Hl Hf L HL Hn. rewrite Hl.
  destruct (decide (l = l0)) as [->|Hne].
  - exists (f L). by rewrite list_lookup_alter_eq, HL, Hf.
  - exists L. by rewrite list_lookup_alter_ne.
Qed.

Lemma flag_down_cancel l h : sat (flag_down l) (TriggerHandler.cancel h).
Proof.
  intros s. unfold TriggerHandler.cancel, bind, deref_handler.
  destruct (hstore s !! h) as [x|]; simpl; [|reflexivity].
  by apply (flag_down_alter (set_needsPurge true) (h_list x)).
Qed.

Lemma flag_down_log l h actuals :
  sat (flag_down l) (update (with_trace (fun t => t ++ [(h, actuals)]))).
Proof. intros s L HL Hn. eauto. Qed.

Lemma flag_down_purge l l0 : sat (flag_down l) (TriggerHandlerList.purge l0).
Proof.
  intros s. destruct (lstore s !! l0) as [L0|] eqn:HL0.
  - rewrite (purge_spec l0 s L0 HL0). simpl. intros L HL Hn.
    destruct (decide (l = l0)) as [->|Hne].
    + exists (purged_list s L0). split; [apply lookup_put_list; eauto|].
      assert (L0 = L) as -> by congruence.
      unfold purged_list. by destruct (l_needsPurge L).
    + exists L. split; [|done]. unfold put_list. simpl.
      by rewrite list_lookup_insert_ne.
  - unfold TriggerHandlerList.purge, bind, deref_list. rewrite HL0.
    reflexivity.
Qed.

Lemma sorted_list_flag s L : l_needsPriorityUpdate (sorted_list s L) = false.
Proof.
  unfold sorted_list. by destruct (l_needsPriorityUpdate L) eqn:Hn.
Qed.

Lemma flag_down_after m k o l s :
  wf s → dispatches_to m k o → lists_of m s !! k = Some l →
  ∃ L', lstore (step o s) !! l = Some L' ∧ l_needsPriorityUpdate L' = false.
Proof.
  intros Hwf Ho Hk. destruct (wf_lists s Hwf m k l Hk) as [L HL].
  assert (lstore (put_list l (sorted_list s L) s) !! l
          = Some (sorted_list s L)) as HL0 by (apply lookup_put_list; eauto).
  assert (∀ h a, sat (flag_down l) (TriggerHandler.execute h a)) as He.
  { intros h a. apply (rule_handler_execute (flag_down l));
      [apply flag_down_cancel|apply flag_down_log]. }
  assert (∀ h v a, sat (flag_down l) (TriggerHandler.modify h v a)) as Hm.
  { intros h v a. apply (rule_handler_modify (flag_down l));
      [apply flag_down_cancel|apply flag_down_log]. }
  assert (∀ a, sat (flag_down l)
            (for_of (l_handlers (sorted_list s L)) (fun handler =>
               s <- get ;;
               if negb (isCancelled s handler)
               then _ <- TriggerHandler.execute handler a ;; ret tt
               else ret tt))) as Hloop.
  { intros a. apply (sat_for_of (flag_down l)). intros h.
    apply (sat_get_bind (flag_down l)). intros s1.
    destruct (negb (isCancelled s1 h)); [|reflexivity].
    rewrite (state_of_bind_ret _ (fun _ => tt)). apply He. }
  destruct m, o; simpl in Ho; try done; subst; simpl in Hk; simpl.
  - unfold Trigger.Trigger. rewrite (state_of_bind_ret _ (fun _ => tt)).
    rewrite (execute_found _ _ _ _ Hk), (execute_unfold l args s L HL).
    apply (Hloop args _ _ HL0), sorted_list_flag.
  - rewrite (execute_found _ _ _ _ Hk), (execute_unfold l args s L HL).
    apply (Hloop args _ _ HL0), sorted_list_flag.
  - rewrite (poll_found _ _ _ _ Hk), (poll_unfold l args s L HL).
    match goal with |- ∃ L', lstore (state_of (?m ?s0)) !! _ = _ ∧ _ =>
      enough (sat (flag_down l) m) as H
        by exact (H s0 _ HL0 (sorted_list_flag s L))
    end.
    apply (sat_bind (flag_down l)).
    + apply (sat_for_of_acc (flag_down l)). intros r h.
      apply (sat_get_bind (flag_down l)). intros s1.
      destruct (negb (isCancelled s1 h)); [|reflexivity].
      rewrite (state_of_bind_ret _ (fun x => r ++ [x])). apply He.
    + intros r. apply (sat_bind (flag_down l)); [apply flag_down_purge|].
      intros _. apply sat_ret. typeclasses eauto.
  - rewrite (modify_found _ _ _ _ _ Hk).
    rewrite (state_of_bind_ret _ (fun r => if nullish r then input else r)).
    rewrite (modify_unfold l input args s L HL).
    match goal with |- ∃ L', lstore (state_of (?m ?s0)) !! _ = _ ∧ _ =>
      enough (sat (flag_down l) m) as H
        by exact (H s0 _ HL0 (sorted_list_flag s L))
    end.
    apply (sat_for_of_acc (flag_down l)). intros r h.
    apply (sat_get_bind (flag_down l)). intros s1.
    destruct (negb (isCancelled s1 h)); [|reflexivity]. apply Hm.
Qed.

(** X22.  A dispatch during which no callback registers a handler or
    sets a priority leaves the sequence of its key in ascending priority,
    also when a callback throws or cancels handlers: the sort that is due
    is made before the first call, and cancelling does not disturb the
    order.  (Callbacks here return, throw and cancel, and do nothing else;
    for a callback that registers or sets a priority the order flag is up
    again when the dispatch ends, and the order invariant of the flag
    applies.) *)
Theorem dispatch_leaves_sequence_sorted s m k o :
  reachable s → dispatches_to m k o →
  StronglySorted
    (fun a b => getPriority (step o s) a ≤ getPriority (step o s) b)
    (sequence_of m k (step o s)).
Proof.
  intros Hr Ho. pose proof (reachable_wf s Hr) as Hwf.
  pose proof (wf_step o s Hwf) as Hwf'.
  destruct (lists_of m s !! k) as [l|] eqn:Hk.
  - destruct (flag_down_after m k o l s Hwf Ho Hk) as (L' & HL' & Hn).
    destruct (settled_step o s) as [_ (Hh & Hm & _)].
    { intros Hreg. by destruct m, o. }
    assert (lists_of m (step o s) !! k = Some l) as Hk'
      by (destruct m; simpl in *; congruence).
    rewrite (sequence_of_lookup m k (step o s) l L' Hk' HL').
    by apply (wf_sorted _ Hwf' l L').
  - rewrite (dispatch_missing m k o s Ho Hk). unfold sequence_of.
    rewrite Hk. constructor.
Qed.

(** The theorem on [order_scenario], where priorities were set on all
    three handlers and no dispatch has sorted them yet. *)
Lemma dispatch_leaves_sequence_sorted_witness :
  StronglySorted
    (fun a b =>
       getPriority (step (OPoll (VStr "x") []) (steps order_scenario init)) a
       ≤ getPriority (step (OPoll (VStr "x") []) (steps order_scenario init)) b)
    (sequence_of Handlers (VStr "x")
       (step (OPoll (VStr "x") []) (steps order_scenario init))).
Proof.
  apply (dispatch_leaves_sequence_sorted (steps order_scenario init)
           Handlers (VStr "x") (OPoll (VStr "x") [])).
  - by exists order_scenario.
  - reflexivity.
Defined.

(** ** The handler methods are lazy *)

Lemma same_sequences_setPriority h p :
  sat same_sequences (TriggerHandler.setPriority h p).
Proof.
  intros s. unfold TriggerHandler.setPriority, bind, deref_handler.
  destruct (hstore s !! h) as [x|]; simpl; [|reflexivity].
  unfold queuePriorityUpdate, bind, update. simpl.
  apply (same_sequences_alter
           (set_usesPriorities true ∘ set_needsPriorityUpdate true)
           (h_list x)); try done.
  simpl. by rewrite list_alter_alter_eq.
Qed.

Lemma same_sequences_setOnce h b :
  sat same_sequences (TriggerHandler.setOnce h b).
Proof.
  intros s. unfold TriggerHandler.setOnce, bind, deref_handler.
  by destruct (hstore s !! h) as [x|].
Qed.

(** X23.  The methods of a handler act lazily: [cancel], [setPriority]
    and [setOnce] call nothing and leave every sequence as it is; a
    cancelled handler is taken out, and a handler with a new priority is
    moved, only by a later dispatch. *)
Theorem handler_methods_are_lazy o s m k :
  handler_method o →
  sequence_of m k (step o s) = sequence_of m k s ∧
  trace (step o s) = trace s.
Proof.
  intros Ho. destruct o; try done; simpl; split;
    try (apply same_sequences_of;
         first [apply same_sequences_cancel|apply same_sequences_setPriority
               |apply same_sequences_setOnce]).
  - apply silent_cancel.
  - unfold TriggerHandler.setPriority, bind, deref_handler.
    by destruct (hstore s !! h).
  - unfold TriggerHandler.setOnce, bind, deref_handler.
    by destruct (hstore s !! h).
Qed.

(** The theorem on [setPriority] of the first handler of
    [keys_scenario]. *)
Lemma handler_methods_are_lazy_witness :
  sequence_of Handlers (VStr "x")
    (step (OSetPriority 0 7) (steps keys_scenario init))
  = sequence_of Handlers (VStr "x") (steps keys_scenario init) ∧
  trace (step (OSetPriority 0 7) (steps keys_scenario init))
  = trace (steps keys_scenario init).
Proof.
  apply (handler_methods_are_lazy (OSetPriority 0 7)
           (steps keys_scenario init) Handlers (VStr "x")).
  exact I.
Defined.

(** * Edge cases of dispatch *)

(** ** Keys without handlers *)

(** C6: dispatching a key that has no handlers is not an error, and each
    dispatch depends on its own map only.  When [handlers] has no list for
    the key, [execute] changes nothing and [poll] returns the empty
    sequence and changes nothing, whatever [modifiers] holds; when
    [modifiers] has no list for the key, [modify] returns its input and
    changes nothing, whatever [handlers] holds.  The same results come out
    when the map has a list for the key whose handlers are all cancelled
    (an empty list among them): nothing is called, [execute] returns,
    [poll] returns the empty sequence and [modify] returns its input. *)
Theorem dispatch_without_handlers K args v s :
  (handlers s !! K = None →
   Trigger.execute K args s = Ok s tt ∧ Trigger.poll K args s = Ok s []) ∧
  (modifiers s !! K = None → Trigger.modify v K args s = Ok s v) ∧
  (∀ l L, handlers s !! K = Some l → lstore s !! l = Some L →
     (∀ h, h ∈ l_handlers L → isCancelled s h = true) →
     (∃ s', Trigger.execute K args s = Ok s' tt ∧ trace s' = trace s) ∧
     (∃ s', Trigger.poll K args s = Ok s' [] ∧ trace s' = trace s)) ∧
  (∀ l L, modifiers s !! K = Some l → lstore s !! l = Some L →
     (∀ h, h ∈ l_handlers L → isCancelled s h = true) →
     ∃ s', Trigger.modify v K args s = Ok s' v ∧ trace s' = trace s).
Proof.
  split; [|split; [|split]].
  - intros Hh. split.
    + unfold Trigger.execute, getHandlerList, bind, get. cbn [lists_of].
      by rewrite Hh.
    + unfold Trigger.poll, getHandlerList, bind, get. cbn [lists_of].
      by rewrite Hh.
  - intros Hm. unfold Trigger.modify, getHandlerList, bind, get.
    cbn [lists_of]. rewrite Hm. simpl. unfold ret. by destruct (nullish v).
  - intros l L Hk HL Hall.
    assert (∀ h, h ∈ l_handlers (sorted_list s L) →
              isCancelled (put_list l (sorted_list s L) s) h = true) as Hc
      by (intros h Hh%sorted_list_handlers; by apply Hall).
    split.
    + rewrite (execute_found K args s l Hk), (execute_unfold l args s L HL).
      rewrite (for_of_skip _ (fun handler =>
                 _ <- TriggerHandler.execute handler args ;; ret tt) _ Hc).
      by eexists.
    + rewrite (poll_found K args s l Hk), (poll_unfold l args s L HL).
      rewrite (bind_Ok _ _ _ _ _
                 (for_of_acc_skip _ [] (fun handler result =>
                    x <- TriggerHandler.execute handler args ;;
                    ret (result ++ [x])) _ Hc)).
      assert (lstore (put_list l (sorted_list s L) s) !! l
              = Some (sorted_list s L)) as HL0
        by (apply lookup_put_list; eauto).
      rewrite (bind_Ok _ _ _ _ _ (purge_spec l _ _ HL0)).
      by eexists.
  - intros l L Hm HL Hall. exists (put_list l (sorted_list s L) s).
    split; [|done].
    rewrite (modify_found _ _ _ _ _ Hm). unfold bind at 1.
    rewrite (modify_unfold _ _ _ _ _ HL).
    rewrite (for_of_acc_skip _ _ (fun handler _ =>
               TriggerHandler.modify handler v args)).
    + unfold ret. f_equal. by destruct v.
    + intros h Hs%sorted_list_handlers. by apply Hall.
Qed.

(** The theorem on [idle_scenario]: nothing is registered on ["z"];
    ["x"] has two active broadcast handlers, and [modify] on ["y"], which
    has a broadcast list and no transform list, returns its input; the
    handlers of the broadcast list of ["y"] and of the transform list of
    ["x"] are all cancelled. *)
Lemma dispatch_without_handlers_witness :
  (Trigger.execute (VStr "z") [] (steps idle_scenario init)
   = Ok (steps idle_scenario init) tt ∧
   Trigger.poll (VStr "z") [] (steps idle_scenario init)
   = Ok (steps idle_scenario init) []) ∧
  Trigger.modify (VNum 5) (VStr "y") [] (steps idle_scenario init)
  = Ok (steps idle_scenario init) (VNum 5) ∧
  ((∃ s', Trigger.execute (VStr "y") [] (steps idle_scenario init)
          = Ok s' tt ∧ trace s' = trace (steps idle_scenario init)) ∧
   (∃ s', Trigger.poll (VStr "y") [] (steps idle_scenario init)
          = Ok s' [] ∧ trace s' = trace (steps idle_scenario init))) ∧
  ∃ s', Trigger.modify (VNum 5) (VStr "x") [] (steps idle_scenario init)
        = Ok s' (VNum 5) ∧
        trace s' = trace (steps idle_scenario init).
Proof.
  split; [|split; [|split]].
  - apply (dispatch_without_handlers (VStr "z") [] VNull
             (steps idle_scenario init)).
    vm_compute; reflexivity.
  - apply (dispatch_without_handlers (VStr "y") [] (VNum 5)
             (steps idle_scenario init)).
    vm_compute; reflexivity.
  - destruct (dispatch_without_handlers (VStr "y") [] VNull
                (steps idle_scenario init)) as (_ & _ & H & _).
    apply (H 1%nat (mkList [1%nat] false false true (VStr "y"))).
    + vm_compute; reflexivity.
    + vm_compute; reflexivity.
    + intros h ->%list_elem_of_singleton. vm_compute; reflexivity.
  - destruct (dispatch_without_handlers (VStr "x") [] (VNum 5)
                (steps idle_scenario init)) as (_ & _ & _ & H).
    apply (H 2%nat (mkList [2%nat] false false true (VStr "x"))).
    + vm_compute; reflexivity.
    + vm_compute; reflexivity.
    + intros h ->%list_elem_of_singleton. vm_compute; reflexivity.
Defined.

(** ** One-shot handlers and the handlers in front of them *)

Lemma modify_body_harmless v a h r s :
  harmless s h →
  ∃ r', (s <- get ;;
         if negb (isCancelled s h)
         then TriggerHandler.modify h v a
         else ret r) s
        = Ok (fire (fun x => v :: h_args x ++ a) s h) r'.
Proof.
  intros (x & Hx & Hc). unfold bind at 1, get.
  destruct (isCancelled s h) eqn:Hi; simpl.
  - exists r. by rewrite fire_cancelled.
  - unfold isCancelled in Hi. rewrite Hx in Hi.
    destruct Hc as [Hc|Hp]; [congruence|].
    apply (modify_plain h x v a s Hx Hi Hp).
Qed.

Lemma for_of_acc_modify_harmless v a ids r s :
  (∀ h, h ∈ ids → harmless s h) →
  ∃ r', for_of_acc ids r (fun result handler =>
          s <- get ;;
          if negb (isCancelled s handler)
          then TriggerHandler.modify handler v a
          else ret result) s
        = Ok (foldl (fire (fun x => v :: h_args x ++ a)) s ids) r'.
Proof.
  revert s r. induction ids as [|h ids IH]; intros s r Hv; simpl;
    [by exists r|].
  destruct (modify_body_harmless v a h r s (Hv h ltac:(left))) as [r1 Hr1].
  rewrite (bind_Ok _ _ _ _ _ Hr1).
  apply IH. intros h' Hh'. apply harmless_fire, Hv. by right.
Qed.














(** ** What poll does around its traversal *)






(** ** The handlers a dispatch calls *)

(** With harmless handlers, a dispatch to a list calls the handlers of the
    sequence [#updatePriorities] leaves that are not cancelled, in that
    order. *)
Lemma dispatch_calls_harmless m K o l L s :
  wf s → dispatches_to m K o →
  lists_of m s !! K = Some l → lstore s !! l = Some L →
  (∀ h, h ∈ l_handlers (sorted_list s L) → harmless s h) →
  calls s (step o s) = filter (active s) (l_handlers (sorted_list s L)).
Proof.
  intros Hwf Ho Hk HL Hv.
  assert (∀ act, ∃ t,
            trace (foldl (fire act) (put_list l (sorted_list s L) s)
                     (l_handlers (sorted_list s L))) = trace s ++ t ∧
            t.*1 = filter (active s) (l_handlers (sorted_list s L))) as Ht
    by (intros act; by apply traversal_trace).
  destruct m, o; simpl in Ho; try done; subst; simpl in Hk; simpl.
  - unfold Trigger.Trigger. rewrite (state_of_bind_ret _ (fun _ => tt)).
    rewrite (execute_found _ _ _ _ Hk), (execute_unfold l args s L HL).
    rewrite (for_of_harmless args _ (put_list l (sorted_list s L) s) Hv).
    destruct (Ht (fun x => h_args x ++ args)) as (t & Ht' & Hf).
    by rewrite (calls_app _ _ t).
  - rewrite (execute_found _ _ _ _ Hk), (execute_unfold l args s L HL).
    rewrite (for_of_harmless args _ (put_list l (sorted_list s L) s) Hv).
    destruct (Ht (fun x => h_args x ++ args)) as (t & Ht' & Hf).
    by rewrite (calls_app _ _ t).
  - rewrite (poll_found _ _ _ _ Hk), (poll_unfold l args s L HL).
    destruct (for_of_acc_harmless args (l_handlers (sorted_list s L)) []
                (put_list l (sorted_list s L) s) Hv) as [r Hr].
    rewrite (bind_Ok _ _ _ _ _ Hr).
    destruct (foldl_fire_lstore (fun x => h_args x ++ args)
                (l_handlers (sorted_list s L))
                (put_list l (sorted_list s L) s) l) as [L2 HL2].
    { rewrite lookup_put_list; eauto. }
    rewrite (bind_Ok _ _ _ _ _ (purge_spec l _ L2 HL2)).
    destruct (Ht (fun x => h_args x ++ args)) as (t & Ht' & Hf).
    by rewrite (calls_app _ _ t).
  - rewrite (modify_found _ _ _ _ _ Hk).
    rewrite (state_of_bind_ret _ (fun r => if nullish r then input else r)).
    rewrite (modify_unfold l input args s L HL).
    destruct (for_of_acc_modify_harmless input args
                (l_handlers (sorted_list s L)) input
                (put_list l (sorted_list s L) s) Hv) as [r Hr].
    rewrite Hr.
    destruct (Ht (fun x => input :: h_args x ++ args)) as (t & Ht' & Hf).
    by rewrite (calls_app _ _ t).
Qed.

(** X10.  When every handler registered under a key is cancelled or has a
    callback that returns normally and makes no call into the module (it
    cancels, registers, re-prioritises and dispatches nothing), a dispatch
    on that key calls exactly the handlers that are registered under the
    key and not cancelled, each of them once.  What the handlers of other
    keys would do does not matter.  (Callbacks here return, throw and
    cancel, and do nothing else: a callback that re-enters the module
    while the traversal runs is not covered.) *)
Theorem dispatch_calls_exactly_the_active s m k o :
  reachable s → (∀ h, registered_under m k s h → harmless s h) →
  dispatches_to m k o →
  NoDup (calls s (step o s)) ∧
  ∀ h, h ∈ calls s (step o s) ↔
       registered_under m k s h ∧ isCancelled s h = false.
Proof.
  intros Hr Hp Ho. pose proof (reachable_regular s Hr) as Hreg.
  pose proof Hreg as [Hwf Hs].
  destruct (lists_of m s !! k) as [l|] eqn:Hk.
  - destruct (wf_lists s Hwf m k l Hk) as [L HL].
    rewrite (dispatch_calls_harmless m k o l L s Hwf Ho Hk HL).
    + split; [apply NoDup_filter; by apply (sorted_list_NoDup l)|].
      intros h. rewrite list_elem_of_filter, negb_true_iff. split.
      * intros [Hc Hh%sorted_list_handlers]. split; [|done].
        by apply (listed_registered m k s l L).
      * intros [Hh Hc]. split; [done|]. apply sorted_list_keeps; [|done].
        pose proof (registered_listed m k s h Hreg Hh Hc) as Hin.
        by rewrite (sequence_of_lookup m k s l L Hk HL) in Hin.
    + intros h Hh%sorted_list_handlers. apply Hp.
      by apply (listed_registered m k s l L).
  - rewrite (dispatch_missing m k o s Ho Hk), calls_refl.
    split; [constructor|]. intros h. split; [by intros ?%elem_of_nil|].
    intros [(x & _ & Hx) _]. congruence.
Qed.

(** The theorem on a broadcast on key ["x"] of
    [once_beside_throw_scenario], whose other key has a handler that
    throws. *)
Lemma dispatch_calls_exactly_the_active_witness :
  NoDup (calls (steps once_beside_throw_scenario init)
           (step (OExecute (VStr "x") [])
              (steps once_beside_throw_scenario init))) ∧
  ∀ h, h ∈ calls (steps once_beside_throw_scenario init)
             (step (OExecute (VStr "x") [])
                (steps once_beside_throw_scenario init)) ↔
       registered_under Handlers (VStr "x")
         (steps once_beside_throw_scenario init) h ∧
       isCancelled (steps once_beside_throw_scenario init) h = false.
Proof.
  apply (dispatch_calls_exactly_the_active
           (steps once_beside_throw_scenario init) Handlers (VStr "x")
           (OExecute (VStr "x") [])).
  - by exists once_beside_throw_scenario.
  - intros h (x & Hx & Hk). exists x. split; [done|]. right.
    destruct h as [|[|[|h]]]; vm_compute in Hx; simplify_eq;
      try apply returning_plain; vm_compute in Hk; discriminate.
  - reflexivity.
Defined.
